(** * TTRPG probabilistic combat estimator: a shallow embedding

    The development follows [src/dice.py] ([Dice]),
    [src/aleatory_variable.py] ([AleatoryVariable]), the record of
    [src/character.py] ([Character]) and [src/simulator.py] ([RoundModel],
    [CombatModel]).  Plotting and the [__str__] methods are not part of it.

    Modelling conventions.
    - Python integers are [Z], and so are the values of a domain (the
      64-bit range of a domain value is not modelled).
    - The frequency vector of a [Dice] is an int64 array whose cells and
      whose total wrap around: see [Np.wrap64], [Np.iconvolve] and
      [Np.isum].
    - Probability mass (numpy float64 arrays) is idealised as exact rational
      arithmetic over [Q]; equalities between masses are stated with [Qeq]
      ([==]).  Rounding error in the last place and signed zeros are not
      modelled.
    - Two places where floating point is visible in a result are modelled
      explicitly: division by a zero total (see [npfloat], [Np.divide] and
      [Np.normalize]), and the quotient of two Python integers that
      [Character.combine] truncates to an integer (see [Np.binary64]).
    - A Python exception is an explicit outcome of the computation, see
      [outcome].
    - Objects are values: the code never mutates an array that another
      object holds ([__mul__] scales in place only the fresh result of
      [__pow__]). *)

From Stdlib Require Import ZArith QArith Qabs Qround Qpower Lia Lqa Qfield.
From stdpp Require Import base option list gmap strings pretty.

(** ** Outcomes of a Python computation *)

Inductive pyerror : Type :=
| AssertionError
| IndexError
| ValueError
| TypeError.

(** The value of a float64 cell after a division: finite, infinite or NaN. *)
Inductive npfloat : Type :=
| Fin (q : Q)
| PInf
| NInf
| NaN.

(** A computation either returns a value, raises, or returns normally
    (no exception) with an array holding non-finite cells; in the last case
    the cells are recorded and the exact model stops there. *)
Inductive outcome (A : Type) : Type :=
| Returns (a : A)
| Raises (e : pyerror)
| NonFinite (cells : list npfloat).

Arguments Returns {A} a.
Arguments Raises {A} e.
Arguments NonFinite {A} cells.

#[global] Instance outcome_ret : MRet outcome := λ A a, Returns a.

#[global] Instance outcome_bind : MBind outcome := λ A B f m,
  match m with
  | Returns a => f a
  | Raises e => Raises e
  | NonFinite c => NonFinite c
  end.

#[global] Instance outcome_fmap : FMap outcome := λ A B f m,
  match m with
  | Returns a => Returns (f a)
  | Raises e => Raises e
  | NonFinite c => NonFinite c
  end.

(** [assert c]. *)
Definition py_assert (c : bool) : outcome unit :=
  if c then Returns tt else Raises AssertionError.

(** [for x in l: s = body(s, x)]. *)
Fixpoint for_in {A S : Type} (l : list A) (body : S → A → outcome S) (s : S)
  : outcome S :=
  match l with
  | [] => Returns s
  | x :: l' => s' ← body s x; for_in l' body s'
  end.

(** ** numpy and builtins *)

Module Np.

(** [range(a, b)] and [np.arange(a, b)]. *)
Definition arange (a b : Z) : list Z := seqZ a (b - a).

(** [range(n)] as loop indices. *)
Definition range (n : nat) : list nat := seq 0 n.

(** [len(l)] as a Python integer. *)
Definition len {A : Type} (l : list A) : Z := Z.of_nat (length l).

(** [l[i]] for an integer [i]: a negative index counts from the end, an
    index out of range raises [IndexError]. *)
Definition index {A : Type} (l : list A) (i : Z) : outcome A :=
  let j := if (i <? 0)%Z then (i + len l)%Z else i in
  if (j <? 0)%Z then Raises IndexError
  else match l !! Z.to_nat j with
       | Some x => Returns x
       | None => Raises IndexError
       end.

(** [l[i] += w]. *)
Definition iadd (l : list Q) (i : Z) (w : Q) : outcome (list Q) :=
  let j := if (i <? 0)%Z then (i + len l)%Z else i in
  if (j <? 0)%Z then Raises IndexError
  else match l !! Z.to_nat j with
       | Some x => Returns (<[Z.to_nat j := (x + w)%Q]> l)
       | None => Raises IndexError
       end.

(** [np.zeros(n)], [np.ones(n)], [np.full(n, x)]. *)
Definition full (n : Z) (x : Q) : list Q := replicate (Z.to_nat n) x.
Definition zeros (n : Z) : list Q := full n 0%Q.
Definition ones (n : Z) : list Q := full n 1%Q.

(** Builtin [sum]: starts from 0 and adds from the left. *)
Definition sum (l : list Q) : Q := fold_left Qplus l 0%Q.

(** Elementwise sum of two vectors, the longer tail kept. *)
Fixpoint padd (a b : list Q) : list Q :=
  match a, b with
  | [], _ => b
  | _, [] => a
  | x :: a', y :: b' => (x + y)%Q :: padd a' b'
  end.

(** The full discrete convolution: [conv a v !! k] is the sum of
    [a[i] * v[k - i]]. *)
Fixpoint conv (a v : list Q) : list Q :=
  match a with
  | [] => []
  | x :: a' => padd (map (Qmult x) v) (0%Q :: conv a' v)
  end.

(** [np.convolve(a, v)] refuses an empty operand. *)
Definition convolve (a v : list Q) : outcome (list Q) :=
  match a, v with
  | [], _ => Raises ValueError
  | _, [] => Raises ValueError
  | _, _ => Returns (conv a v)
  end.

(** [np.cumsum]. *)
Fixpoint cumsum_from (acc : Q) (l : list Q) : list Q :=
  match l with
  | [] => []
  | x :: l' => (acc + x)%Q :: cumsum_from (acc + x)%Q l'
  end.

Definition cumsum (l : list Q) : list Q :=
  match l with
  | [] => []
  | x :: l' => x :: cumsum_from x l'
  end.

(** [c[1:] -= c[:-1].copy()]: first differences, the head kept. *)
Definition diff1 (c : list Q) : list Q :=
  match c with
  | [] => []
  | x :: c' => x :: zip_with Qminus c' c
  end.

(** [np.flip]. *)
Definition flip {A : Type} (l : list A) : list A := reverse l.

(** [np.rint]: round to the nearest integer, ties to the even one. *)
Definition rint (q : Q) : Z :=
  let f := Qfloor q in
  match (q - inject_Z f ?= 1 # 2)%Q with
  | Lt => f
  | Gt => (f + 1)%Z
  | Eq => if Z.even f then f else (f + 1)%Z
  end.

(** [np.round(q, 2)], on the exact value of [q].  The float that the code
    rounds can lie on the other side of a tie, so the general properties of
    this development use of [round2] only that it is monotone and moves a
    value by at most half a hundredth, never how a tie falls. *)
Definition round2 (q : Q) : Q := (inject_Z (rint (q * 100)) / 100)%Q.

(** One float64 division [x / s]. *)
Definition fdiv (x s : Q) : npfloat :=
  if Qeq_bool s 0 then
    match (x ?= 0)%Q with
    | Eq => NaN
    | Gt => PInf
    | Lt => NInf
    end
  else Fin (x / s)%Q.

(** [v / s] on a whole vector. *)
Definition vdiv (v : list Q) (s : Q) : list npfloat :=
  map (λ x, fdiv x s) v.

(** [v / sum(v)]: numpy raises nothing on a zero total, the cells become
    NaN or infinite. *)
Definition normalize (v : list Q) : outcome (list Q) :=
  let s := sum v in
  if Qeq_bool s 0 then
    match v with
    | [] => Returns []
    | _ => NonFinite (vdiv v s)
    end
  else Returns (map (λ x, (x / s)%Q) v).

(** [np.where(a == x)[0][0]]: the first position holding [x]. *)
Fixpoint where_first (a : list Z) (x : Z) : outcome nat :=
  match a with
  | [] => Raises IndexError
  | y :: a' => if (y =? x)%Z then Returns 0 else S <$> where_first a' x
  end.

(** [l[i]] for a loop index [i] taken from [range]. *)
Definition item {A : Type} (l : list A) (i : nat) : outcome A :=
  match l !! i with
  | Some x => Returns x
  | None => Raises IndexError
  end.

(** [acc[start:stop] += v]: the slice is cut at the end of [acc]; [v] must
    have the length of the slice, or be a single cell that is broadcast. *)
Definition slice_iadd (acc : list Q) (start stop : nat) (v : list Q)
  : outcome (list Q) :=
  let k := (stop `min` length acc) - start in
  let put (w : list Q) :=
    take start acc ++ zip_with Qplus (take k (drop start acc)) w
      ++ drop (start + k) acc in
  if decide (length v = k) then Returns (put v)
  else match v with
       | [w] => Returns (put (replicate k w))
       | _ => Raises ValueError
       end.

(** [v / s] for a divisor [s]: numpy raises nothing when [s] is zero. *)
Definition divide (v : list Q) (s : Q) : outcome (list Q) :=
  if Qeq_bool s 0 then
    match v with
    | [] => Returns []
    | _ => NonFinite (vdiv v s)
    end
  else Returns (map (λ x, (x / s)%Q) v).

(** *** int64 arrays

    [np.ones(die, dtype=int)] and its convolutions are int64 arrays;
    numpy's integer arithmetic wraps around without an exception. *)

(** The int64 that holds the integer [z], in two's complement. *)
Definition wrap64 (z : Z) : Z :=
  ((z + 9223372036854775808) mod 18446744073709551616
   - 9223372036854775808)%Z.

(** [np.ones(n, dtype=int)]. *)
Definition iones (n : Z) : list Z := replicate (Z.to_nat n) 1%Z.

(** Elementwise sum of two integer vectors, the longer tail kept. *)
Fixpoint ipadd (a b : list Z) : list Z :=
  match a, b with
  | [], _ => b
  | _, [] => a
  | x :: a', y :: b' => (x + y)%Z :: ipadd a' b'
  end.

(** The full discrete convolution over the integers. *)
Fixpoint iconv (a v : list Z) : list Z :=
  match a with
  | [] => []
  | x :: a' => ipadd (map (Z.mul x) v) (0%Z :: iconv a' v)
  end.

(** [np.convolve(a, v)] on int64 arrays: every cell wraps. *)
Definition iconvolve (a v : list Z) : outcome (list Z) :=
  match a, v with
  | [], _ => Raises ValueError
  | _, [] => Raises ValueError
  | _, _ => Returns (map wrap64 (iconv a v))
  end.

(** Builtin [sum] of an int64 array: from 0, each addition of two
    [np.int64] scalars wraps. *)
Definition isum (l : list Z) : Z :=
  fold_left (λ acc x, wrap64 (acc + x)) l 0%Z.

(** An array with its dtype. *)
Inductive ndarray : Type :=
| Int64 (l : list Z)
| Float64 (l : list Q).

(** The cells of an array as numbers. *)
Definition cells (a : ndarray) : list Q :=
  match a with
  | Int64 l => map inject_Z l
  | Float64 l => l
  end.

(** Builtin [sum(a)]: wrapping for an int64 array. *)
Definition total (a : ndarray) : Q :=
  match a with
  | Int64 l => inject_Z (isum l)
  | Float64 l => sum l
  end.

(** *** The quotient of two Python integers

    [a / b] on Python integers is the exact quotient rounded to the nearest
    binary64 number, ties to the even significand, and raises
    [OverflowError] when that is beyond the largest float. *)

(** The binade of [q], not zero: the [e] with [2 ^ e <= |q| < 2 ^ (e + 1)]. *)
Definition binade (q : Q) : Z :=
  let e0 := (Z.log2 (Z.abs (Qnum q)) - Z.log2 (Zpos (Qden q)))%Z in
  if Qle_bool (2 ^ e0) (Qabs q) then e0 else (e0 - 1)%Z.

(** [q] rounded to binary64: 53 significant bits, gradual underflow below
    [2 ^ -1022]; [None] from [2 ^ 1024] on. *)
Definition binary64 (q : Q) : option Q :=
  if Qeq_bool q 0 then Some 0%Q
  else
    let k := (Z.max (binade q) (-1022) - 52)%Z in
    let r := (inject_Z (rint (q * 2 ^ (- k))) * 2 ^ k)%Q in
    if Qle_bool (2 ^ 1024) (Qabs r) then None else Some r.

(** [int(x)] of a finite float: truncation toward zero. *)
Definition trunc (q : Q) : Z :=
  if Qle_bool 0 q then Qfloor q else (- Qfloor (- q))%Z.

End Np.

(** ** Dice model ([src/dice.py]) *)

Module Dice.

Record t : Type := mk {
  distribution : list Q;
  values : list Z;
  pmf : list Q;
  cdf : list Q;
  cardinality : Z;
  avg : Q;
  string : string
}.

(** [Dice._boon_distribution(n_boons, die)]: the distribution of the highest
    (lowest when [n_boons < 0]) of [|n_boons|] rolls of a [die]. *)
Definition _boon_distribution (n_boons : Z) (die : Z) : list Q :=
  let cdf := Np.cumsum (Np.full die (1 / inject_Z die)%Q) in
  let cdf := map (λ x, Qpower x (Z.abs n_boons)) cdf in
  let cdf := Np.diff1 cdf in
  if (n_boons <? 0)%Z then Np.flip cdf else cdf.

(** [Dice._distribution_values(times, die, mod, boons)]: the frequency
    vector is an int64 array until the convolution with the boon
    distribution makes it a float64 one. *)
Definition _distribution_values (times die mod_ boons : Z)
  : outcome (Np.ndarray * list Z) :=
  let low_bound := (mod_ + times)%Z in
  let upp_bound := (mod_ + times * die)%Z in
  let dice := Np.iones die in
  dist ← for_in (Np.arange 1 times) (λ dist _, Np.iconvolve dist dice) dice;
  if (boons =? 0)%Z then
    Returns (Np.Int64 dist, Np.arange low_bound (upp_bound + 1))
  else
    let '(low_bound, upp_bound) :=
      if (boons >? 0)%Z then ((low_bound + 1)%Z, (upp_bound + 6)%Z)
      else ((low_bound - 6)%Z, (upp_bound - 1)%Z) in
    let boon := _boon_distribution boons 6 in
    dist ← Np.convolve (map inject_Z dist) boon;
    Returns (Np.Float64 dist, Np.arange low_bound (upp_bound + 1)).

(** [sum([values[i] * pmf[i] for i in range(cardinality)])]. *)
Definition expected (values : list Z) (pmf : list Q) (cardinality : Z)
  : outcome Q :=
  terms ← mapM (λ i, v ← Np.item values i; p ← Np.item pmf i;
                     Returns (inject_Z v * p)%Q)
               (Np.range (Z.to_nat cardinality));
  Returns (Np.sum terms).

(** The label built at the end of [__init__]. *)
Definition label (times die mod_ boons : Z) : String.string :=
  let s := pretty times +:+ "d" +:+ pretty die in
  let s := if (mod_ =? 0)%Z then s
           else if (mod_ >? 0)%Z then s +:+ "+" +:+ pretty mod_
           else s +:+ pretty mod_ in
  if (boons =? 0)%Z then s else s +:+ "@" +:+ pretty boons.

(** [Dice.__init__(times, die, mod=0, boons=0)].  The field [distribution]
    keeps the cells of the frequency vector as numbers; its dtype matters to
    [sum(self.distribution)] alone. *)
Definition init (times die mod_ boons : Z) : outcome t :=
  _ ← py_assert ((times >? 0)%Z && (die >? 0)%Z);
  '(distribution, values) ← _distribution_values times die mod_ boons;
  pmf ← Np.divide (Np.cells distribution) (Np.total distribution);
  let cdf := Np.cumsum pmf in
  let cardinality := Np.len values in
  avg ← expected values pmf cardinality;
  Returns (mk (Np.cells distribution) values pmf cdf cardinality avg
              (label times die mod_ boons)).

(** [Dice.prob_against(target)]: [[pFail, pSuccess]]. *)
Definition prob_against (self : t) (target : Z) : outcome (list Q) :=
  low_bound ← Np.index (values self) 0;
  upp_bound ← Np.index (values self) (-1);
  if (low_bound >=? target)%Z then Returns [0%Q; 1%Q]
  else if (upp_bound <? target)%Z then Returns [1%Q; 0%Q]
  else
    fail_prob ← Np.index (cdf self) (target - low_bound - 1);
    let succ_prob := (1 - fail_prob)%Q in
    Returns [Np.round2 fail_prob; Np.round2 succ_prob].

(** Builtin [min] and [max] of a list: an empty list raises. *)
Definition py_min (l : list Z) : outcome Z :=
  match l with
  | [] => Raises ValueError
  | x :: l' => Returns (foldl Z.min x l')
  end.

Definition py_max (l : list Z) : outcome Z :=
  match l with
  | [] => Raises ValueError
  | x :: l' => Returns (foldl Z.max x l')
  end.

(** [' + '.join(l)]. *)
Fixpoint join_plus (l : list String.string) : String.string :=
  match l with
  | [] => ""
  | [s] => s
  | s :: l' => s +:+ " + " +:+ join_plus l'
  end.

(** [Dice.combine] of the argument list [dices]. *)
Definition combine (dices : list t) : outcome t :=
  lows ← mapM (λ d, Np.index (values d) 0) dices;
  low_bound ← py_min lows;
  upps ← mapM (λ d, Np.index (values d) (-1)) dices;
  upp_bound ← py_max upps;
  let lb_zt := if (low_bound <=? 0)%Z then 0%Z else low_bound in
  let ub_zt := if (upp_bound >=? 0)%Z then 0%Z else upp_bound in
  let values_ := Np.arange (low_bound - lb_zt) (upp_bound - ub_zt + 1) in
  let probab := Np.zeros (Np.len values_) in
  probab ← for_in dices (λ probab d,
      v0 ← Np.index (values d) 0;
      start_index ← Np.where_first values_ v0;
      let stop_index := start_index + length (values d) in
      Np.slice_iadd probab start_index stop_index (pmf d)) probab;
  tot ← init 1 1 0 0;
  pmf_ ← Np.normalize probab;
  let cardinality_ := Np.len values_ in
  avg_ ← expected values_ pmf_ cardinality_;
  Returns (mk probab values_ pmf_ (Np.cumsum pmf_) cardinality_ avg_
              (join_plus (map string dices))).

End Dice.

(** ** Aleatory variables ([src/aleatory_variable.py]) *)

Module AleatoryVariable.

Record t : Type := mk {
  domain : list Z;
  distribution : list Q
}.

(** [len(self)]. *)
Definition len (self : t) : nat := length (domain self).

(** [AleatoryVariable.from_exact(value, bounds=None)]. *)
Definition from_exact (value : Z) (bounds : option (Z * Z)) : outcome t :=
  match bounds with
  | None => Returns (mk [value] (Np.ones 1))
  | Some (lb, ub) =>
      let domain := Np.arange lb (ub + 1) in
      _ ← py_assert (bool_decide (value ∈ domain));
      let distribution := Np.zeros (ub - lb + 1) in
      let distribution :=
        zip_with (λ d x, if (d =? value)%Z then 1%Q else x) domain distribution in
      Returns (mk domain distribution)
  end.

(** [AleatoryVariable.from_dice(dice)]. *)
Definition from_dice (dice : Dice.t) : t :=
  mk (Dice.values dice) (Dice.pmf dice).

(** [AleatoryVariable.from_hit(dice, target)]. *)
Definition from_hit (dice : Dice.t) (target : Z) : outcome t :=
  let domain := Np.arange 0 2 in
  distribution ← Dice.prob_against dice target;
  Returns (mk domain distribution).

(** [set_domain_bounds(low_bound, upp_bound)]: the widened variable. *)
Definition set_domain_bounds (self : t) (low_bound upp_bound : Z) : outcome t :=
  d0 ← Np.index (domain self) 0;
  d1 ← Np.index (domain self) (-1);
  _ ← py_assert ((low_bound <=? d0)%Z && (upp_bound >=? d1)%Z);
  if ((low_bound =? d0)%Z && (upp_bound =? d1)%Z) then Returns self
  else
    let new_domain := Np.arange low_bound (upp_bound + 1) in
    let new_distribution := Np.zeros (Np.len new_domain) in
    start_index ← Np.where_first new_domain d0;
    let stop_index := start_index + length (domain self) in
    let k := (stop_index `min` length new_distribution) - start_index in
    if decide (length (distribution self) = k) then
      Returns (mk new_domain
                 (take start_index new_distribution ++ distribution self
                    ++ drop (start_index + k) new_distribution))
    else match distribution self with
         | [w] => Returns (mk new_domain
                    (take start_index new_distribution ++ replicate k w
                       ++ drop (start_index + k) new_distribution))
         | _ => Raises ValueError
         end.

(** [self ** n]. *)
Definition pow (self : t) (n : Z) : outcome t :=
  if (n =? 0)%Z then from_exact 0 None
  else
    d0 ← Np.index (domain self) 0;
    d1 ← Np.index (domain self) (-1);
    let domain_ := Np.arange (d0 * Z.abs n) (d1 * Z.abs n + 1) in
    distribution_ ← for_in (Np.arange 0 (Z.abs n - 1))
        (λ dist _, Np.convolve dist (distribution self)) (distribution self);
    if (n >? 0)%Z then Returns (mk domain_ distribution_)
    else Returns (mk (Np.flip (map Z.opp domain_)) (Np.flip distribution_)).

(** The inner loop of [__sub__] for one index [s] of [self]. *)
Definition sub_row (n : nat) (other : t) (s : nat) (ps : Q) (dist : list Q)
  : outcome (list Q) :=
  let weighted_partial := map (λ y, (y * ps)%Q) (distribution other) in
  for_in (Np.range (length weighted_partial)) (λ dist o,
      od ← Np.item (domain other) o;
      w ← Np.item weighted_partial o;
      let index := (Z.of_nat s - od)%Z in
      if (index <? 0)%Z then Np.iadd dist 0 w
      else if (index >=? Z.of_nat n)%Z then Np.iadd dist (-1) w
      else Np.iadd dist index w) dist.

(** [self - other]. *)
Definition sub (self other : t) : outcome t :=
  let distribution_ := Np.zeros (Z.of_nat (len self)) in
  distribution_ ← for_in (Np.range (len self)) (λ dist s,
      ps ← Np.item (distribution self) s;
      sub_row (len self) other s ps dist) distribution_;
  Returns (mk (domain self) distribution_).

(** [self + other]. *)
Definition add (self other : t) : outcome t :=
  let tmp := mk (map (λ x, (x * -1)%Z) (domain other)) (distribution other) in
  sub self tmp.

(** The accumulation loop of [__mul__], before the normalisation. *)
Definition mul_acc (self other : t) (domain_ : list Z) : outcome (list Q) :=
  for_in (Np.range (len other)) (λ acc o,
      v ← Np.item (domain other) o;
      tmp ← pow self v;
      p ← Np.item (distribution other) o;
      let tmp_distribution := map (λ x, (x * p)%Q) (distribution tmp) in
      t0 ← Np.index (domain tmp) 0;
      start_index ← Np.where_first domain_ t0;
      let stop_index := start_index + len tmp in
      Np.slice_iadd acc start_index stop_index tmp_distribution)
    (Np.zeros (Np.len domain_)).

(** The domain of [self * other]. *)
Definition mul_domain (self other : t) : outcome (list Z) :=
  s0 ← Np.index (domain self) 0;
  o0 ← Np.index (domain other) 0;
  s1 ← Np.index (domain self) (-1);
  o1 ← Np.index (domain other) (-1);
  Returns (Np.arange (s0 * o0) (s1 * o1 + 1)).

(** [self * other]. *)
Definition mul (self other : t) : outcome t :=
  domain_ ← mul_domain self other;
  acc ← mul_acc self other domain_;
  distribution_ ← Np.normalize acc;
  Returns (mk domain_ distribution_).

End AleatoryVariable.

(** ** Characters ([src/character.py]) *)

Module Character.

Record t : Type := mk {
  health : Z;
  defense : Z;
  attack_dice : Dice.t;
  damage_dice : Dice.t;
  n_attacks : Z
}.

(** What [Character.combine] does: the [ZeroDivisionError] or the
    [OverflowError] of the division by the total health, or whatever the
    rest of the function does. *)
Inductive combined (A : Type) : Type :=
  | ZeroDivisionError
  | OverflowError
  | Combined (o : outcome A).
Arguments ZeroDivisionError {A}.
Arguments OverflowError {A}.
Arguments Combined {A} o.

(** The accumulators [tot.health], [tot.defense] and [tot.n_attacks] at the
    end of the loop of [combine], from [Character(n_attacks=0)]. *)
Definition combine_totals (characters : list t) : Z * Z * Z :=
  foldl (λ '(h, d, n) ch,
           (h + health ch, d + defense ch * health ch, n + n_attacks ch)%Z)
        (0, 0, 0)%Z characters.

(** [Character.combine] of the argument list [characters].  The division
    [tot.defense /= tot.health] is the float division of two Python
    integers, and [int] truncates the float toward zero. *)
Definition combine (characters : list t) : combined t :=
  let '(health_, weighted, n_attacks_) := combine_totals characters in
  if (health_ =? 0)%Z then ZeroDivisionError
  else
    match Np.binary64 (inject_Z weighted / inject_Z health_) with
    | None => OverflowError
    | Some quotient =>
        let defense_ := Np.trunc quotient in
        Combined (
          attack ← Dice.combine (map attack_dice characters);
          damage ← Dice.combine (map damage_dice characters);
          Returns (mk health_ defense_ attack damage n_attacks_))
    end.

End Character.

(** ** Round states and the combat model ([src/simulator.py]) *)

Module RoundModel.

Record t : Type := mk {
  a_hp : option AleatoryVariable.t;
  a_hits : option AleatoryVariable.t;
  a_damage : option AleatoryVariable.t;
  b_hp : option AleatoryVariable.t;
  b_hits : option AleatoryVariable.t;
  b_damage : option AleatoryVariable.t
}.

(** [RoundModel()]: every field [None]. *)
Definition empty : t := mk None None None None None None.

(** [self.get(attribute_name, default)], the attribute given by its
    projection. *)
Definition get (self : t) (attribute : t → option AleatoryVariable.t)
    (default : AleatoryVariable.t) : AleatoryVariable.t :=
  match attribute self with
  | Some val => val
  | None => default
  end.

End RoundModel.

Module CombatModel.

Record t : Type := mk {
  max_rounds : Z;
  rounds : list RoundModel.t;
  round_number : Z;
  a_hits : AleatoryVariable.t;
  b_hits : AleatoryVariable.t;
  a_dmg : AleatoryVariable.t;
  b_dmg : AleatoryVariable.t
}.

(** [CombatModel.__init__(a_character, b_character, max_rounds)]. *)
Definition init (a_character b_character : Character.t) (max_rounds : Z)
  : outcome t :=
  let ha := Character.health a_character in
  let hb := Character.health b_character in
  a_hp ← AleatoryVariable.from_exact ha (Some (0, ha + 1)%Z);
  b_hp ← AleatoryVariable.from_exact hb (Some (0, hb + 1)%Z);
  let rounds :=
    [RoundModel.mk (Some a_hp) None None (Some b_hp) None None] in
  a_hits ← AleatoryVariable.from_hit (Character.attack_dice a_character)
             (Character.defense b_character);
  b_hits ← AleatoryVariable.from_hit (Character.attack_dice b_character)
             (Character.defense a_character);
  a_hits ← AleatoryVariable.pow a_hits (Character.n_attacks a_character);
  b_hits ← AleatoryVariable.pow b_hits (Character.n_attacks b_character);
  let a_dmg := AleatoryVariable.from_dice (Character.damage_dice a_character) in
  let b_dmg := AleatoryVariable.from_dice (Character.damage_dice b_character) in
  Returns (mk max_rounds rounds 0 a_hits b_hits a_dmg b_dmg).

(** [prev_hp - damage] where [prev_hp] is a field of the previous round. *)
Definition hp_minus (prev_hp : option AleatoryVariable.t)
    (damage : AleatoryVariable.t) : outcome AleatoryVariable.t :=
  match prev_hp with
  | Some hp => AleatoryVariable.sub hp damage
  | None => Raises TypeError
  end.

(** [advance_round(round_evidence)].  The default handed to each [get] is
    evaluated before the call, whether the evidence holds the field or
    not. *)
Definition advance_round (self : t) (round_evidence : option RoundModel.t)
  : outcome t :=
  prev_round ← Np.index (rounds self) (round_number self);
  let round_evidence := default RoundModel.empty round_evidence in
  let a_hits_ := RoundModel.get round_evidence RoundModel.a_hits (a_hits self) in
  let b_hits_ := RoundModel.get round_evidence RoundModel.b_hits (b_hits self) in
  da ← AleatoryVariable.mul (a_dmg self) a_hits_;
  let a_damage := RoundModel.get round_evidence RoundModel.a_damage da in
  db ← AleatoryVariable.mul (b_dmg self) b_hits_;
  let b_damage := RoundModel.get round_evidence RoundModel.b_damage db in
  ha ← hp_minus (RoundModel.a_hp prev_round) b_damage;
  let a_hp := RoundModel.get round_evidence RoundModel.a_hp ha in
  hb ← hp_minus (RoundModel.b_hp prev_round) a_damage;
  let b_hp := RoundModel.get round_evidence RoundModel.b_hp hb in
  Returns (mk (max_rounds self)
              (rounds self ++ [RoundModel.mk (Some a_hp) (Some a_hits_)
                                 (Some a_damage) (Some b_hp) (Some b_hits_)
                                 (Some b_damage)])
              (round_number self + 1)
              (a_hits self) (b_hits self) (a_dmg self) (b_dmg self)).

(** [simulate(evidence)]. *)
Definition simulate (self : t) (evidence : option (gmap Z RoundModel.t))
  : outcome t :=
  let evidence := default ∅ evidence in
  for_in (Np.arange 1 (max_rounds self)) (λ self _,
      advance_round self (evidence !! (round_number self + 1)%Z)) self.

End CombatModel.

(** ** Vocabulary of the statements *)

(** The data-model invariant of an aleatory variable: one mass per value. *)
Definition aligned (X : AleatoryVariable.t) : Prop :=
  length (AleatoryVariable.distribution X) = length (AleatoryVariable.domain X).

(** The domain is the contiguous range [lo..hi], not empty. *)
Definition contiguous (X : AleatoryVariable.t) (lo hi : Z) : Prop :=
  (lo <= hi)%Z ∧ AleatoryVariable.domain X = Np.arange lo (hi + 1).

(** No negative mass. *)
Definition nonneg_mass (l : list Q) : Prop := Forall (λ x, 0 <= x)%Q l.

(** The cell [i] of a vector, 0 outside it. *)
Definition cell (l : list Q) (i : nat) : Q := nth i l 0%Q.

(** The value at position [i] of an integer vector, 0 outside it. *)
Definition zcell (l : list Z) (i : nat) : Z := nth i l 0%Z.

(** [f 0 + ... + f (n - 1)]. *)
Fixpoint bigsum (f : nat → Q) (n : nat) : Q :=
  match n with
  | 0 => 0%Q
  | S k => (bigsum f k + f k)%Q
  end.

(** The bin that [__sub__] charges for a target [index] in a vector of [n]
    cells: the nearest boundary bin when [index] is outside. *)
Definition clampi (n : nat) (index : Z) : nat :=
  if (index <? 0)%Z then 0
  else if (index >=? Z.of_nat n)%Z then n - 1
  else Z.to_nat index.

(** The joint mass that the pair of positions [(s, o)] sends to bin [i]. *)
Definition joint (X Y : AleatoryVariable.t) (i s o : nat) : Q :=
  if decide (clampi (AleatoryVariable.len X)
               (Z.of_nat s - zcell (AleatoryVariable.domain Y) o) = i)
  then (cell (AleatoryVariable.distribution Y) o
        * cell (AleatoryVariable.distribution X) s)%Q
  else 0%Q.

(** A point mass at value 0: one position holds value 0 with mass 1, every
    other position holds no mass. *)
Definition point_at_zero (P : AleatoryVariable.t) : Prop :=
  aligned P ∧
  ∃ o0, o0 < length (AleatoryVariable.domain P) ∧
    zcell (AleatoryVariable.domain P) o0 = 0%Z ∧
    cell (AleatoryVariable.distribution P) o0 = 1%Q ∧
    ∀ o, o < length (AleatoryVariable.domain P) → o ≠ o0 →
      cell (AleatoryVariable.distribution P) o = 0%Q.

(** The invariant of a [Dice] object: a contiguous, non-empty range of
    values [lo..hi], one probability per value, no negative probability,
    total probability 1, and the cumulative sums of the pmf as cdf. *)
Definition dice_ok (d : Dice.t) (lo hi : Z) : Prop :=
  (lo <= hi)%Z ∧
  Dice.values d = Np.arange lo (hi + 1) ∧
  length (Dice.pmf d) = length (Dice.values d) ∧
  Dice.cdf d = Np.cumsum (Dice.pmf d) ∧
  nonneg_mass (Dice.pmf d) ∧
  (Np.sum (Dice.pmf d) == 1)%Q.

(** The probability that a [Dice] gives to the value [v]: its pmf cell at
    the position of [v], 0 for a value outside its range. *)
Definition pmf_at (d : Dice.t) (v : Z) : Q :=
  match Dice.values d with
  | [] => 0%Q
  | lo :: _ => if (lo <=? v)%Z then cell (Dice.pmf d) (Z.to_nat (v - lo)) else 0%Q
  end.

(** A point mass of probability 1 at [v] over the domain [lo..hi]. *)
Definition point_mass (A : AleatoryVariable.t) (lo hi v : Z) : Prop :=
  (lo <= v <= hi)%Z ∧
  AleatoryVariable.domain A = Np.arange lo (hi + 1) ∧
  aligned A ∧
  ∀ i, i < length (AleatoryVariable.domain A) →
    cell (AleatoryVariable.distribution A) i
    = if decide ((lo + Z.of_nat i)%Z = v) then 1%Q else 0%Q.

(** The fields of a combat model that [advance_round] only reads. *)
Definition consts (m : CombatModel.t) :=
  (CombatModel.max_rounds m, CombatModel.a_hits m, CombatModel.b_hits m,
   CombatModel.a_dmg m, CombatModel.b_dmg m).

(** The round state [r] that [advance_round] derives from the previous
    round state [prev] and the evidence [e] of the round. *)
Definition next_round (m : CombatModel.t) (e prev r : RoundModel.t) : Prop :=
  let a_hits_ := RoundModel.get e RoundModel.a_hits (CombatModel.a_hits m) in
  let b_hits_ := RoundModel.get e RoundModel.b_hits (CombatModel.b_hits m) in
  ∃ da db ha hb,
    AleatoryVariable.mul (CombatModel.a_dmg m) a_hits_ = Returns da ∧
    AleatoryVariable.mul (CombatModel.b_dmg m) b_hits_ = Returns db ∧
    let a_damage := RoundModel.get e RoundModel.a_damage da in
    let b_damage := RoundModel.get e RoundModel.b_damage db in
    CombatModel.hp_minus (RoundModel.a_hp prev) b_damage = Returns ha ∧
    CombatModel.hp_minus (RoundModel.b_hp prev) a_damage = Returns hb ∧
    r = RoundModel.mk (Some (RoundModel.get e RoundModel.a_hp ha))
          (Some a_hits_) (Some a_damage)
          (Some (RoundModel.get e RoundModel.b_hp hb))
          (Some b_hits_) (Some b_damage).

(** The history and its cursor agree: the cursor is the index of the last
    round state. *)
Definition cursor_ok (m : CombatModel.t) : Prop :=
  CombatModel.round_number m = (Np.len (CombatModel.rounds m) - 1)%Z ∧
  CombatModel.rounds m ≠ [].

(** The loop body of [simulate]. *)
Definition simulate_body (evidence : gmap Z RoundModel.t)
    (self : CombatModel.t) (t : Z) : outcome CombatModel.t :=
  CombatModel.advance_round self
    (evidence !! (CombatModel.round_number self + 1)%Z).

(** The top six bins of a mass vector are all zero. *)
Definition top_six_zero (l : list Q) : Prop :=
  ∀ i, (Np.len l - 6 <= Z.of_nat i < Np.len l)%Z → (cell l i == 0)%Q.

(** ** A small encounter

    Two characters of equal [health], both attacking once a round with a d4
    and dealing a d2 of damage; three rounds; the evidence fixes the damage
    of [a] in round 2 to exactly 6. *)

Definition six : AleatoryVariable.t := AleatoryVariable.mk [6%Z] [1%Q].

Definition evidence_six : gmap Z RoundModel.t :=
  {[ 2%Z := RoundModel.mk None None (Some six) None None None ]}.

Definition duel (health : Z) : outcome (Character.t * Character.t) :=
  d4 ← Dice.init 1 4 0 0;
  d2 ← Dice.init 1 2 0 0;
  Returns (Character.mk health 3 d4 d2 1, Character.mk health 2 d4 d2 1).

Definition duel_start (health : Z) : outcome CombatModel.t :=
  '(a, b) ← duel health;
  CombatModel.init a b 3.

Definition duel_run (health : Z) : outcome CombatModel.t :=
  m0 ← duel_start health;
  CombatModel.simulate m0 (Some evidence_six).

(** The states of the encounter at starting health 4 and 8. *)
Definition no_model : CombatModel.t := CombatModel.mk 0 [] 0 six six six six.

Definition duel_4_final : CombatModel.t :=
  Eval vm_compute in
    match duel_run 4 with Returns m => m | _ => no_model end.

Definition duel_8_start : CombatModel.t :=
  Eval vm_compute in
    match duel_start 8 with Returns m => m | _ => no_model end.

Definition duel_8_final : CombatModel.t :=
  Eval vm_compute in
    match duel_run 8 with Returns m => m | _ => no_model end.

(** ** Loop bodies

    The bodies of the loops of [__sub__], [__mul__] and [Dice.combine],
    named so that the loops can be followed one iteration at a time. *)

(** The body of the inner loop of [__sub__] at index [s] of [self]. *)
Definition row_body (n : nat) (Y : AleatoryVariable.t) (s : nat) (ps : Q)
    (dist : list Q) (o : nat) : outcome (list Q) :=
  od ← Np.item (AleatoryVariable.domain Y) o;
  w ← Np.item (map (λ y, (y * ps)%Q) (AleatoryVariable.distribution Y)) o;
  let index := (Z.of_nat s - od)%Z in
  if (index <? 0)%Z then Np.iadd dist 0 w
  else if (index >=? Z.of_nat n)%Z then Np.iadd dist (-1) w
  else Np.iadd dist index w.

(** What the position [o] of [other] adds to the bin [i] in that loop. *)
Definition row_term (n : nat) (Y : AleatoryVariable.t) (s : nat) (ps : Q)
    (i o : nat) : Q :=
  if decide (clampi n (Z.of_nat s - zcell (AleatoryVariable.domain Y) o) = i)
  then (cell (AleatoryVariable.distribution Y) o * ps)%Q else 0%Q.

(** The body of the outer loop of [__sub__]. *)
Definition sub_body (X Y : AleatoryVariable.t) (dist : list Q) (s : nat)
  : outcome (list Q) :=
  ps ← Np.item (AleatoryVariable.distribution X) s;
  AleatoryVariable.sub_row (AleatoryVariable.len X) Y s ps dist.

(** One die fits in the union range [L..U]. *)
Definition fits (L U : Z) (d : Dice.t) : Prop :=
  ∃ lo hi, dice_ok d lo hi ∧ (L <= lo)%Z ∧ (hi <= U)%Z.

(** The body of the loop of [Dice.combine] over the range [L..U]. *)
Definition combine_body (L U : Z) (probab : list Q) (d : Dice.t)
  : outcome (list Q) :=
  v0 ← Np.index (Dice.values d) 0;
  start_index ← Np.where_first (Np.arange L (U + 1)) v0;
  let stop_index := start_index + length (Dice.values d) in
  Np.slice_iadd probab start_index stop_index (Dice.pmf d).

(** The body of the loop of [__mul__] over the result domain [dom]. *)
Definition mul_body (X Y : AleatoryVariable.t) (dom : list Z)
    (acc : list Q) (o : nat) : outcome (list Q) :=
  v ← Np.item (AleatoryVariable.domain Y) o;
  tmp ← AleatoryVariable.pow X v;
  p ← Np.item (AleatoryVariable.distribution Y) o;
  let tmp_distribution :=
    map (λ x, (x * p)%Q) (AleatoryVariable.distribution tmp) in
  t0 ← Np.index (AleatoryVariable.domain tmp) 0;
  start_index ← Np.where_first dom t0;
  let stop_index := start_index + AleatoryVariable.len tmp in
  Np.slice_iadd acc start_index stop_index tmp_distribution.

Definition duel_8_characters : Character.t * Character.t :=
  Eval vm_compute in
    match duel 8 with
    | Returns ab => ab
    | _ => let d := Dice.mk [] [] [] [] 0 0 "" in
           (Character.mk 0 0 d d 0, Character.mk 0 0 d d 0)
    end.

Definition duel_8_round1 : RoundModel.t :=
  Eval vm_compute in
    default RoundModel.empty (CombatModel.rounds duel_8_final !! 1).

Definition duel_8_b_hp1 : AleatoryVariable.t :=
  Eval vm_compute in default six (RoundModel.b_hp duel_8_round1).

(** ** Small operands *)

Definition ex_X : AleatoryVariable.t :=
  AleatoryVariable.mk [0; 1; 2]%Z [1 # 2; 1 # 4; 1 # 4]%Q.

Definition ex_Y : AleatoryVariable.t :=
  AleatoryVariable.mk [1; 2]%Z [1 # 2; 1 # 2]%Q.

Definition ex_P : AleatoryVariable.t :=
  AleatoryVariable.mk [-2; -1; 0; 1; 2]%Z [0; 0; 1; 0; 0]%Q.

Definition ex_empty_mass : AleatoryVariable.t :=
  AleatoryVariable.mk [1%Z] [0%Q].

Definition ex_one : AleatoryVariable.t :=
  AleatoryVariable.mk [1%Z] [1%Q].

Definition ex_d4 : Dice.t :=
  Dice.mk [1; 1; 1; 1]%Q [1; 2; 3; 4]%Z [1 # 4; 1 # 4; 1 # 4; 1 # 4]%Q
    (Np.cumsum [1 # 4; 1 # 4; 1 # 4; 1 # 4]%Q) 4 (5 # 2) "1d4".

Definition ex_d2 : Dice.t :=
  Dice.mk [1; 1]%Q [1; 2]%Z [1 # 2; 1 # 2]%Q
    (Np.cumsum [1 # 2; 1 # 2]%Q) 2 (3 # 2) "1d2".

(** A character the engine can run: dice satisfying the [Dice] invariant,
    damage values that are not negative, and a number of attacks that is not
    negative. *)
Definition sane_character (c : Character.t) : Prop :=
  (∃ lo hi, dice_ok (Character.attack_dice c) lo hi) ∧
  (∃ lo hi, dice_ok (Character.damage_dice c) lo hi ∧ (0 <= lo)%Z) ∧
  (0 <= Character.n_attacks c)%Z.

(** A variable that [__mul__] accepts as its right operand: aligned, over a
    contiguous domain that starts at 0 or above, with no negative mass and a
    positive total. *)
Definition countable (H : AleatoryVariable.t) : Prop :=
  aligned H ∧
  (∃ lo hi, contiguous H lo hi ∧ (0 <= lo)%Z) ∧
  nonneg_mass (AleatoryVariable.distribution H) ∧
  (0 < Np.sum (AleatoryVariable.distribution H))%Q.

(** The invariant of a run without evidence: the cursor is on the last
    round, whose two health variables are aligned, and the constants of the
    model can be multiplied. *)
Definition runnable (m : CombatModel.t) : Prop :=
  cursor_ok m ∧
  (∃ r hpa hpb, last (CombatModel.rounds m) = Some r ∧
     RoundModel.a_hp r = Some hpa ∧ RoundModel.b_hp r = Some hpb ∧
     aligned hpa ∧ aligned hpb) ∧
  countable (CombatModel.a_hits m) ∧ countable (CombatModel.b_hits m) ∧
  countable (CombatModel.a_dmg m) ∧ countable (CombatModel.b_dmg m).

(** ** Vocabulary of the further properties *)

(** The bounds of the values of [Dice(times, die, mod, boons)]. *)
Definition dice_low (times mod_ boons : Z) : Z :=
  if (boons >? 0)%Z then (mod_ + times + 1)%Z
  else if (boons <? 0)%Z then (mod_ + times - 6)%Z
  else (mod_ + times)%Z.

Definition dice_upp (times die mod_ boons : Z) : Z :=
  if (boons >? 0)%Z then (mod_ + times * die + 6)%Z
  else if (boons <? 0)%Z then (mod_ + times * die - 1)%Z
  else (mod_ + times * die)%Z.

(** The mass that an aleatory variable gives to the value [v]: its cell at
    the position of [v], 0 for a value outside its domain. *)
Definition mass_at (X : AleatoryVariable.t) (v : Z) : Q :=
  match AleatoryVariable.domain X with
  | [] => 0%Q
  | lo :: _ =>
      if (lo <=? v)%Z
      then cell (AleatoryVariable.distribution X) (Z.to_nat (v - lo))
      else 0%Q
  end.

(** The mass that [X ** v] gives to the value [w], 0 when the power does
    not return. *)
Definition pow_mass_at (X : AleatoryVariable.t) (v w : Z) : Q :=
  match AleatoryVariable.pow X v with
  | Returns T => mass_at T w
  | _ => 0%Q
  end.

(** The mass at [w] of the mixture of the powers of [X] weighted by [Y]:
    the sum over the positions [o] of [Y] of the mass of [Y] at [o] times
    the mass that [X ** Y.domain[o]] gives to [w]. *)
Definition mixture (X Y : AleatoryVariable.t) (w : Z) : Q :=
  bigsum (λ o, cell (AleatoryVariable.distribution Y) o
               * pow_mass_at X (zcell (AleatoryVariable.domain Y) o) w)%Q
    (length (AleatoryVariable.distribution Y)).

(** The total of the mixture before normalisation. *)
Definition mixture_total (X Y : AleatoryVariable.t) : Q :=
  bigsum (λ o, cell (AleatoryVariable.distribution Y) o
               * Np.sum (AleatoryVariable.distribution X)
                 ^ zcell (AleatoryVariable.domain Y) o)%Q
    (length (AleatoryVariable.distribution Y)).

(** A probability distribution over the values [dom]: one mass per value,
    no negative mass, total 1. *)
Definition distribution_over (A : AleatoryVariable.t) (dom : list Z) : Prop :=
  AleatoryVariable.domain A = dom ∧
  aligned A ∧
  nonneg_mass (AleatoryVariable.distribution A) ∧
  (Np.sum (AleatoryVariable.distribution A) == 1)%Q.

(** Both health variables of a round state are probability distributions
    over [0..health + 1], for the starting healths [ha] and [hb]. *)
Definition healthy_round (ha hb : Z) (r : RoundModel.t) : Prop :=
  ∃ hpa hpb,
    RoundModel.a_hp r = Some hpa ∧ RoundModel.b_hp r = Some hpb ∧
    distribution_over hpa (Np.arange 0 (ha + 1 + 1)) ∧
    distribution_over hpb (Np.arange 0 (hb + 1 + 1)).

(** The expected value of a [Dice] read off its values and pmf. *)
Definition mean (d : Dice.t) : Q :=
  bigsum (λ i, inject_Z (zcell (Dice.values d) i) * cell (Dice.pmf d) i)%Q
    (length (Dice.values d)).

(** The sum of a list of integers. *)
Definition Zsum (l : list Z) : Z := foldr Z.add 0%Z l.

(** Both dice of a character satisfy the [Dice] invariant. *)
Definition dice_sound (c : Character.t) : Prop :=
  (∃ lo hi, dice_ok (Character.attack_dice c) lo hi) ∧
  (∃ lo hi, dice_ok (Character.damage_dice c) lo hi).

(** A damage die with a negative value, [1d2-2], and the model of two
    characters that use it. *)
Definition ex_d2m2 : Dice.t :=
  Dice.mk [1; 1]%Q [-1; 0]%Z [1 # 2; 1 # 2]%Q
    (Np.cumsum [1 # 2; 1 # 2]%Q) 2 (- (1 # 2)) "1d2-2".

Definition weak_a : Character.t := Character.mk 8 3 ex_d4 ex_d2m2 1.
Definition weak_b : Character.t := Character.mk 8 2 ex_d4 ex_d2m2 1.

(** Two characters of health 1 whose defense is beyond what a float holds
    exactly, and beyond the largest float. *)
Definition wall_53 : Character.t :=
  Character.mk 1 (2 ^ 53 + 1) ex_d4 ex_d2 1.
Definition wall_400 : Character.t :=
  Character.mk 1 (10 ^ 400) ex_d4 ex_d2 1.

Definition weak_start : CombatModel.t :=
  Eval vm_compute in
    match CombatModel.init weak_a weak_b 3 with
    | Returns m => m
    | _ => no_model
    end.

(** * Properties *)

(** ** The outcome monad and loops *)

Lemma bind_Returns {A B : Type} (m : outcome A) (f : A → outcome B) (b : B) :
  m ≫= f = Returns b → ∃ a, m = Returns a ∧ f a = Returns b.
Proof. destruct m as [a| |]; simpl; intros H; [eauto | discriminate..]. Qed.

Lemma bind_Returns_l {A B : Type} (a : A) (f : A → outcome B) :
  Returns a ≫= f = f a.
Proof. reflexivity. Qed.

Lemma fmap_Returns {A B : Type} (m : outcome A) (f : A → B) (b : B) :
  f <$> m = Returns b → ∃ a, m = Returns a ∧ f a = b.
Proof.
  destruct m as [a| |]; simpl; intros H; [|discriminate..].
  exists a. split; [done|]. by injection H.
Qed.

Lemma for_in_app {A S : Type} (l1 l2 : list A) (body : S → A → outcome S) s :
  for_in (l1 ++ l2) body s = for_in l1 body s ≫= for_in l2 body.
Proof.
  revert s. induction l1 as [|x l1 IH]; intros s; simpl; [done|].
  destruct (body s x) as [s'| |]; simpl; [apply IH | done..].
Qed.

Lemma for_in_snoc {A S : Type} (l : list A) x (body : S → A → outcome S) s s' :
  for_in l body s = Returns s' →
  for_in (l ++ [x]) body s = body s' x.
Proof.
  intros H. rewrite for_in_app, H. simpl.
  by destruct (body s' x).
Qed.

(** A loop whose body keeps an invariant and never fails under it
    returns, and the invariant holds at the end. *)
Lemma for_in_invariant {A S : Type} (I : S → Prop) (l : list A)
    (body : S → A → outcome S) s :
  I s →
  (∀ s x, x ∈ l → I s → ∃ s', body s x = Returns s' ∧ I s') →
  ∃ s', for_in l body s = Returns s' ∧ I s'.
Proof.
  revert s. induction l as [|x l IH]; intros s Hs Hbody; simpl; [eauto|].
  destruct (Hbody s x) as (s1 & -> & Hs1); [left | done |]. simpl.
  apply IH; [done|]. intros s2 y Hy. apply Hbody. by right.
Qed.

(** ** Sums of rational vectors *)

Lemma sum_from (l : list Q) (a : Q) : (fold_left Qplus l a == a + Np.sum l)%Q.
Proof.
  unfold Np.sum. revert a. induction l as [|x l IH]; intros a; simpl.
  - ring.
  - rewrite (IH (a + x)%Q), (IH (0 + x)%Q). ring.
Qed.

Lemma sum_nil : Np.sum [] = 0%Q.
Proof. reflexivity. Qed.

Lemma sum_cons (x : Q) (l : list Q) : (Np.sum (x :: l) == x + Np.sum l)%Q.
Proof. unfold Np.sum at 1. simpl. rewrite sum_from. ring. Qed.

Lemma sum_app (l1 l2 : list Q) : (Np.sum (l1 ++ l2) == Np.sum l1 + Np.sum l2)%Q.
Proof.
  induction l1 as [|x l1 IH]; simpl.
  - rewrite sum_nil. ring.
  - rewrite !sum_cons, IH. ring.
Qed.

Lemma sum_replicate (n : nat) (x : Q) :
  (Np.sum (replicate n x) == inject_Z (Z.of_nat n) * x)%Q.
Proof.
  induction n as [|n IH].
  - simpl. rewrite sum_nil. ring.
  - rewrite Nat2Z.inj_succ. unfold Z.succ. rewrite inject_Z_plus.
    simpl replicate. rewrite sum_cons, IH. ring.
Qed.

Lemma sum_zeros (n : Z) : (Np.sum (Np.zeros n) == 0)%Q.
Proof. unfold Np.zeros, Np.full. rewrite sum_replicate. ring. Qed.

Lemma sum_insert (l : list Q) (i : nat) (x y : Q) :
  l !! i = Some x → (Np.sum (<[i:=y]> l) == Np.sum l - x + y)%Q.
Proof.
  revert i. induction l as [|z l IH]; intros [|i] H; simpl in *; try done.
  - injection H as ->. rewrite !sum_cons. ring.
  - rewrite !sum_cons, (IH i H). ring.
Qed.

Lemma sum_map_scale (l : list Q) (c : Q) :
  (Np.sum (map (λ y, y * c) l) == Np.sum l * c)%Q.
Proof.
  induction l as [|x l IH]; simpl.
  - rewrite sum_nil. ring.
  - rewrite !sum_cons, IH. ring.
Qed.

Lemma sum_take_S (l : list Q) (k : nat) (x : Q) :
  l !! k = Some x → (Np.sum (take (S k) l) == Np.sum (take k l) + x)%Q.
Proof.
  intros H. rewrite (take_S_r l k x H), sum_app, sum_cons, sum_nil. ring.
Qed.

Lemma sum_nonneg (l : list Q) : Forall (λ x, 0 <= x)%Q l → (0 <= Np.sum l)%Q.
Proof.
  induction 1 as [|x l Hx _ IH].
  - rewrite sum_nil. lra.
  - rewrite sum_cons. lra.
Qed.

Lemma bigsum_ext (f g : nat → Q) (n : nat) :
  (∀ k, k < n → (f k == g k)%Q) → (bigsum f n == bigsum g n)%Q.
Proof.
  induction n as [|n IH]; intros H; simpl; [reflexivity|].
  rewrite IH, (H n) by (intros; try apply H; lia). reflexivity.
Qed.

Lemma bigsum_zero (f : nat → Q) (n : nat) :
  (∀ k, k < n → (f k == 0)%Q) → (bigsum f n == 0)%Q.
Proof.
  induction n as [|n IH]; intros H; simpl; [reflexivity|].
  rewrite IH, (H n) by (intros; try apply H; lia). ring.
Qed.

Lemma bigsum_plus (f g : nat → Q) (n : nat) :
  (bigsum (λ k, f k + g k) n == bigsum f n + bigsum g n)%Q.
Proof. induction n as [|n IH]; simpl; [|rewrite IH]; ring. Qed.

Lemma bigsum_scale (f : nat → Q) (c : Q) (n : nat) :
  (bigsum (λ k, f k * c) n == bigsum f n * c)%Q.
Proof. induction n as [|n IH]; simpl; [|rewrite IH]; ring. Qed.

(** A sum with a single non-zero term. *)
Lemma bigsum_single (f : nat → Q) (n k0 : nat) :
  k0 < n → (∀ k, k < n → k ≠ k0 → (f k == 0)%Q) →
  (bigsum f n == f k0)%Q.
Proof.
  induction n as [|n IH]; intros Hk H; [lia|]. simpl.
  destruct (decide (k0 = n)) as [->|Hne].
  - rewrite bigsum_zero; [ring|]. intros k Hk'. apply H; lia.
  - rewrite IH, (H n); [ring | lia | done | lia |]. intros k ? ?. apply H; lia.
Qed.

Lemma cell_lookup (l : list Q) (i : nat) (x : Q) : l !! i = Some x → cell l i = x.
Proof. intros H. unfold cell. by rewrite nth_lookup, H. Qed.

Lemma lookup_cell (l : list Q) (i : nat) : i < length l → l !! i = Some (cell l i).
Proof.
  intros H. destruct (lookup_lt_is_Some_2 l i H) as [x Hx].
  by rewrite (cell_lookup _ _ _ Hx).
Qed.

Lemma cell_ge (l : list Q) (i : nat) : length l ≤ i → cell l i = 0%Q.
Proof. intros H. unfold cell. by rewrite nth_lookup, lookup_ge_None_2. Qed.

Lemma zcell_lookup (l : list Z) (i : nat) (x : Z) : l !! i = Some x → zcell l i = x.
Proof. intros H. unfold zcell. by rewrite nth_lookup, H. Qed.

Lemma lookup_zcell (l : list Z) (i : nat) : i < length l → l !! i = Some (zcell l i).
Proof.
  intros H. destruct (lookup_lt_is_Some_2 l i H) as [x Hx].
  by rewrite (zcell_lookup _ _ _ Hx).
Qed.

Lemma bigsum_cells (l : list Q) : (bigsum (cell l) (length l) == Np.sum l)%Q.
Proof.
  induction l as [|x l IH] using rev_ind; [reflexivity|].
  rewrite length_app, Nat.add_1_r. simpl.
  rewrite sum_app, sum_cons, sum_nil, <- IH.
  rewrite (bigsum_ext (cell (l ++ [x])) (cell l)).
  - unfold cell at 2. rewrite nth_lookup, lookup_app_r, Nat.sub_diag by lia.
    simpl. ring.
  - intros k Hk. unfold cell. by rewrite !nth_lookup, lookup_app_l.
Qed.

Lemma bigsum_take (l : list Q) (k : nat) :
  k ≤ length l → (bigsum (cell l) k == Np.sum (take k l))%Q.
Proof.
  intros Hk. rewrite <- (bigsum_cells (take k l)), length_take_le by done.
  apply bigsum_ext. intros j Hj. unfold cell.
  by rewrite !nth_lookup, lookup_take_lt.
Qed.

Lemma item_Returns {A : Type} (l : list A) (i : nat) (x : A) :
  l !! i = Some x → Np.item l i = Returns x.
Proof. unfold Np.item. by intros ->. Qed.

Lemma clampi_lt (n : nat) (index : Z) : 0 < n → clampi n index < n.
Proof.
  unfold clampi. intros Hn.
  destruct (Z.ltb_spec index 0); [done|].
  destruct (Z.geb_spec index (Z.of_nat n)); lia.
Qed.

(** One bin update of [__sub__]. *)
Lemma sub_step (d : list Q) (n : nat) (index : Z) (w : Q) :
  length d = n → 0 < n →
  (if (index <? 0)%Z then Np.iadd d 0 w
   else if (index >=? Z.of_nat n)%Z then Np.iadd d (-1) w
   else Np.iadd d index w)
  = Returns (<[clampi n index := (cell d (clampi n index) + w)%Q]> d).
Proof.
  intros Hlen Hn. unfold clampi, Np.iadd, Np.len. rewrite Hlen.
  destruct (Z.ltb_spec index 0) as [Hi|Hi].
  - simpl. change (Z.to_nat 0) with 0. by rewrite (lookup_cell d 0) by lia.
  - destruct (Z.geb_spec index (Z.of_nat n)) as [Hi'|Hi'].
    + simpl. destruct (Z.ltb_spec (-1 + Z.of_nat n) 0); [lia|].
      replace (Z.to_nat (-1 + Z.of_nat n)) with (n - 1) by lia.
      by rewrite (lookup_cell d (n - 1)) by lia.
    + destruct (Z.ltb_spec index 0); [lia|].
      by rewrite (lookup_cell d (Z.to_nat index)) by lia.
Qed.

Lemma cell_insert (d : list Q) (b i : nat) (y : Q) :
  b < length d →
  cell (<[b:=y]> d) i = if decide (b = i) then y else cell d i.
Proof.
  intros Hb. unfold cell. rewrite !nth_lookup.
  destruct (decide (b = i)) as [->|Hne].
  - by rewrite list_lookup_insert_eq.
  - by rewrite list_lookup_insert_ne.
Qed.

(** ** The saturating subtraction *)

Section sub_row.
Variables (n : nat) (Y : AleatoryVariable.t) (s : nat) (ps : Q).
Hypothesis HY : aligned Y.
Hypothesis Hn : 0 < n.

Let Ydom := AleatoryVariable.domain Y.
Let Ydist := AleatoryVariable.distribution Y.

Lemma row_body_spec (d : list Q) (o : nat) :
  length d = n → o < length Ydist →
  ∃ d', row_body n Y s ps d o = Returns d' ∧ length d' = n ∧
    (Np.sum d' == Np.sum d + cell Ydist o * ps)%Q ∧
    ∀ i, (cell d' i == cell d i + row_term n Y s ps i o)%Q.
Proof using HY Hn.
  intros Hd Ho. unfold row_body. fold Ydom Ydist.
  rewrite (item_Returns Ydom o (zcell Ydom o)).
  2:{ apply lookup_zcell. unfold Ydom. rewrite <- HY. exact Ho. }
  rewrite (item_Returns _ o (cell Ydist o * ps)%Q).
  2:{ rewrite list_lookup_fmap, (lookup_cell Ydist o Ho). done. }
  simpl. rewrite (sub_step d n) by done.
  set (b := clampi n (Z.of_nat s - zcell Ydom o)).
  assert (Hb : b < length d) by (rewrite Hd; apply clampi_lt; done).
  eexists. split; [done|]. split; [by rewrite length_insert|]. split.
  - rewrite (sum_insert d b (cell d b)) by (by apply lookup_cell). ring.
  - intros i. rewrite cell_insert by done. unfold row_term. fold Ydom Ydist b.
    destruct (decide (b = i)) as [->|]; ring.
Qed.

Lemma row_prefix_spec (d : list Q) (k : nat) :
  length d = n → k ≤ length Ydist →
  ∃ d', for_in (seq 0 k) (row_body n Y s ps) d = Returns d' ∧ length d' = n ∧
    (Np.sum d' == Np.sum d + bigsum (λ o, cell Ydist o * ps) k)%Q ∧
    ∀ i, (cell d' i == cell d i + bigsum (row_term n Y s ps i) k)%Q.
Proof using HY Hn.
  intros Hd. induction k as [|k IH]; intros Hk.
  - exists d. simpl. split; [done|]. split; [done|].
    split; [|intros i]; ring.
  - destruct IH as (d1 & Hrun & Hlen & Hsum & Hcell); [lia|].
    destruct (row_body_spec d1 k Hlen) as (d2 & Hb & Hlen2 & Hsum2 & Hcell2);
      [lia|].
    exists d2. rewrite seq_S. simpl "+".
    rewrite (for_in_snoc _ _ _ _ _ Hrun).
    split; [done|]. split; [done|]. split.
    + simpl. rewrite Hsum2, Hsum. ring.
    + intros i. simpl. rewrite Hcell2, Hcell. ring.
Qed.
End sub_row.

Lemma sub_row_unfold (n : nat) (Y : AleatoryVariable.t) (s : nat) (ps : Q) d :
  AleatoryVariable.sub_row n Y s ps d
  = for_in (seq 0 (length (AleatoryVariable.distribution Y))) (row_body n Y s ps) d.
Proof. unfold AleatoryVariable.sub_row, Np.range. by rewrite length_map. Qed.

Section sub_spec.
Variables X Y : AleatoryVariable.t.
Hypothesis HX : aligned X.
Hypothesis HY : aligned Y.

Let n := AleatoryVariable.len X.
Let m := length (AleatoryVariable.distribution Y).
Let Xdist := AleatoryVariable.distribution X.

Lemma sub_prefix_spec (k : nat) :
  k ≤ n →
  ∃ d', for_in (seq 0 k) (sub_body X Y) (Np.zeros (Z.of_nat n)) = Returns d' ∧
    length d' = n ∧
    (Np.sum d' == Np.sum (take k Xdist) * Np.sum (AleatoryVariable.distribution Y))%Q ∧
    ∀ i, (cell d' i == bigsum (λ s, bigsum (joint X Y i s) m) k)%Q.
Proof using HX HY.
  induction k as [|k IH]; intros Hk.
  - eexists. simpl. split; [done|].
    split; [unfold Np.zeros, Np.full; rewrite length_replicate; lia|].
    split.
    + rewrite sum_zeros, take_0, sum_nil. ring.
    + intros i. unfold cell, Np.zeros, Np.full. rewrite nth_lookup.
      destruct (replicate _ _ !! i) as [x|] eqn:E; [|reflexivity].
      apply lookup_replicate in E as [-> _]. reflexivity.
  - destruct IH as (d1 & Hrun & Hlen & Hsum & Hcell); [lia|].
    assert (HkX : k < length Xdist) by (unfold Xdist; rewrite HX; exact Hk).
    destruct (row_prefix_spec n Y k (cell Xdist k) HY ltac:(lia) d1 m Hlen)
      as (d2 & Hrow & Hlen2 & Hsum2 & Hcell2); [done|].
    exists d2. rewrite seq_S. simpl "+".
    rewrite (for_in_snoc _ _ _ _ _ Hrun). unfold sub_body at 1. fold Xdist n.
    rewrite (item_Returns Xdist k _ (lookup_cell Xdist k HkX)). simpl.
    rewrite sub_row_unfold. fold m.
    split; [done|]. split; [done|]. split.
    + rewrite Hsum2, Hsum, (sum_take_S Xdist k _ (lookup_cell Xdist k HkX)).
      unfold m. rewrite (bigsum_scale (cell (AleatoryVariable.distribution Y))).
      rewrite (bigsum_cells (AleatoryVariable.distribution Y)). ring.
    + intros i. simpl. rewrite Hcell2, Hcell. reflexivity.
Qed.

(** What [X - Y] returns: the domain of [X], one cell per value of [X],
    the cell [i] gathering the joint mass of every pair sent to bin [i]. *)
Lemma sub_spec :
  ∃ R, AleatoryVariable.sub X Y = Returns R ∧
    AleatoryVariable.domain R = AleatoryVariable.domain X ∧
    length (AleatoryVariable.distribution R) = n ∧
    (Np.sum (AleatoryVariable.distribution R)
     == Np.sum Xdist * Np.sum (AleatoryVariable.distribution Y))%Q ∧
    ∀ i, (cell (AleatoryVariable.distribution R) i
          == bigsum (λ s, bigsum (joint X Y i s) m) n)%Q.
Proof using HX HY.
  destruct (sub_prefix_spec n (Nat.le_refl n)) as (d & Hrun & Hlen & Hsum & Hcell).
  exists (AleatoryVariable.mk (AleatoryVariable.domain X) d).
  unfold AleatoryVariable.sub, Np.range. fold n.
  change (for_in (seq 0 n) _ _) with (for_in (seq 0 n) (sub_body X Y) (Np.zeros (Z.of_nat n))).
  rewrite Hrun. simpl. split; [done|]. split; [done|]. split; [done|].
  split; [|done].
  rewrite Hsum, take_ge; [reflexivity|]. unfold Xdist. rewrite HX. done.
Qed.
End sub_spec.

Lemma add_as_sub (X Y : AleatoryVariable.t) :
  AleatoryVariable.add X Y
  = AleatoryVariable.sub X
      (AleatoryVariable.mk (map Z.opp (AleatoryVariable.domain Y))
         (AleatoryVariable.distribution Y)).
Proof.
  unfold AleatoryVariable.add. do 2 f_equal.
  apply map_ext. intros x. lia.
Qed.

Lemma aligned_negated (Y : AleatoryVariable.t) :
  aligned Y →
  aligned (AleatoryVariable.mk (map Z.opp (AleatoryVariable.domain Y))
             (AleatoryVariable.distribution Y)).
Proof. unfold aligned. simpl. by rewrite length_map. Qed.

(** C1. For aligned [X] and [Y], [X - Y] and [X + Y] both return, [X + Y]
    being [X - Y'] for [Y'] the operand [Y] with its domain sign-negated;
    every cell of [X - Y] is the sum of the joint terms whose clamped target
    bin it is (nothing is discarded), so the total mass of either result is
    the product of the two total masses, and is 1 when both operands sum
    to 1. *)
Theorem sub_add_preserve_mass (X Y : AleatoryVariable.t) :
  aligned X → aligned Y →
  ∃ R S,
    AleatoryVariable.sub X Y = Returns R ∧
    AleatoryVariable.add X Y = Returns S ∧
    AleatoryVariable.add X Y
    = AleatoryVariable.sub X
        (AleatoryVariable.mk (map Z.opp (AleatoryVariable.domain Y))
           (AleatoryVariable.distribution Y)) ∧
    (∀ i, cell (AleatoryVariable.distribution R) i
          == bigsum (λ s, bigsum (joint X Y i s)
                            (length (AleatoryVariable.distribution Y)))
               (AleatoryVariable.len X))%Q ∧
    (Np.sum (AleatoryVariable.distribution R)
     == Np.sum (AleatoryVariable.distribution X)
        * Np.sum (AleatoryVariable.distribution Y))%Q ∧
    (Np.sum (AleatoryVariable.distribution S)
     == Np.sum (AleatoryVariable.distribution X)
        * Np.sum (AleatoryVariable.distribution Y))%Q ∧
    ((Np.sum (AleatoryVariable.distribution X) == 1)%Q →
     (Np.sum (AleatoryVariable.distribution Y) == 1)%Q →
     (Np.sum (AleatoryVariable.distribution R) == 1)%Q ∧
     (Np.sum (AleatoryVariable.distribution S) == 1)%Q).
Proof.
  intros HX HY.
  destruct (sub_spec X Y HX HY) as (R & HR & _ & _ & HsumR & HcellR).
  destruct (sub_spec X _ HX (aligned_negated Y HY)) as (S & HS & _ & _ & HsumS & _).
  simpl in HsumS.
  exists R, S. rewrite add_as_sub.
  repeat split; try done.
  - rewrite HsumR, H, H0. ring.
  - rewrite HsumS, H, H0. ring.
Qed.

(** C2. For aligned [X] and [Y], whatever the size and offset of the domain
    of [Y], [X - Y] returns a variable over exactly the domain of [X], with
    one cell per value of [X]. *)
Theorem sub_keeps_domain (X Y : AleatoryVariable.t) :
  aligned X → aligned Y →
  ∃ R, AleatoryVariable.sub X Y = Returns R ∧
    AleatoryVariable.domain R = AleatoryVariable.domain X ∧
    AleatoryVariable.len R = AleatoryVariable.len X ∧
    length (AleatoryVariable.distribution R) = AleatoryVariable.len X.
Proof.
  intros HX HY.
  destruct (sub_spec X Y HX HY) as (R & HR & Hdom & Hlen & _).
  exists R. unfold AleatoryVariable.len. by rewrite Hdom.
Qed.

(** ** Adding the point mass at 0 *)

Lemma from_exact_zero_point (bounds : option (Z * Z)) (P : AleatoryVariable.t) :
  AleatoryVariable.from_exact 0 bounds = Returns P → point_at_zero P.
Proof.
  destruct bounds as [[lb ub]|]; simpl.
  - intros H. apply bind_Returns in H as ([] & Hin & H).
    injection H as <-. unfold py_assert in Hin.
    case_bool_decide as H0; [|discriminate].
    assert (Hal : length (zip_with (λ (d : Z) (x : Q), if (d =? 0)%Z then 1%Q else x)
                      (Np.arange lb (ub + 1)) (Np.zeros (ub - lb + 1)))
                  = length (Np.arange lb (ub + 1))).
    { rewrite length_zip_with. unfold Np.zeros, Np.full, Np.arange.
      rewrite length_replicate, length_seqZ. lia. }
    split; [exact Hal|]. simpl.
    apply list_elem_of_lookup in H0 as [o0 Ho0].
    exists o0. split; [by eapply lookup_lt_Some|].
    split; [by apply zcell_lookup|].
    assert (Hc : ∀ o d, Np.arange lb (ub + 1) !! o = Some d →
      cell (zip_with (λ (d : Z) (x : Q), if (d =? 0)%Z then 1%Q else x)
              (Np.arange lb (ub + 1)) (Np.zeros (ub - lb + 1))) o
      = if (d =? 0)%Z then 1%Q else 0%Q).
    { intros o d Hd. apply cell_lookup. rewrite lookup_zip_with, Hd. simpl.
      assert (Ho : o < length (Np.zeros (ub - lb + 1))).
      { apply lookup_lt_Some in Hd. rewrite length_zip_with in Hal. lia. }
      unfold Np.zeros, Np.full in *. rewrite length_replicate in Ho.
      by rewrite lookup_replicate_2. }
    split; [by rewrite (Hc o0 0%Z Ho0)|].
    intros o Ho Hne.
    destruct (lookup_lt_is_Some_2 _ _ Ho) as [d Hd].
    rewrite (Hc o d Hd).
    destruct (Z.eqb_spec d 0) as [->|]; [|done].
    exfalso. apply Hne. unfold Np.arange in *.
    apply lookup_seqZ in Hd as [Hd _]. apply lookup_seqZ in Ho0 as [Ho0 _]. lia.
  - intros H. injection H as <-. split; [done|]. simpl.
    exists 0. split; [lia|]. split; [done|]. split; [done|].
    intros o Ho Hne. lia.
Qed.

Lemma cells_Forall2 (l1 l2 : list Q) :
  length l1 = length l2 → (∀ i, (cell l1 i == cell l2 i)%Q) → Forall2 Qeq l1 l2.
Proof.
  intros Hlen Hc. apply Forall2_same_length_lookup_2; [done|].
  intros i x y Hx Hy.
  rewrite <- (cell_lookup _ _ _ Hx), <- (cell_lookup _ _ _ Hy). apply Hc.
Qed.

Lemma clampi_inside (n s : nat) : s < n → clampi n (Z.of_nat s - 0) = s.
Proof.
  intros Hs. unfold clampi.
  destruct (Z.ltb_spec (Z.of_nat s - 0) 0); [lia|].
  destruct (Z.geb_spec (Z.of_nat s - 0) (Z.of_nat n)); lia.
Qed.

Lemma add_point_at_zero (X P : AleatoryVariable.t) :
  aligned X → point_at_zero P →
  ∃ R, AleatoryVariable.add X P = Returns R ∧
    AleatoryVariable.domain R = AleatoryVariable.domain X ∧
    Forall2 Qeq (AleatoryVariable.distribution R) (AleatoryVariable.distribution X).
Proof.
  intros HX (HP & o0 & Ho0 & Hz & Hone & Hzero).
  rewrite add_as_sub.
  set (P' := AleatoryVariable.mk _ _).
  destruct (sub_spec X P' HX (aligned_negated P HP)) as (R & HR & Hdom & Hlen & _ & Hcell).
  exists R. split; [done|]. split; [done|].
  apply cells_Forall2; [by rewrite Hlen, HX|].
  intros i. rewrite Hcell. simpl.
  set (n := AleatoryVariable.len X).
  assert (Hm : length (AleatoryVariable.distribution P)
               = length (AleatoryVariable.domain P)) by exact HP.
  assert (Hrow : ∀ s, s < n →
    (bigsum (joint X P' i s) (length (AleatoryVariable.distribution P))
     == if decide (s = i) then cell (AleatoryVariable.distribution X) s else 0)%Q).
  { intros s Hs. rewrite (bigsum_single _ _ o0); [|lia|].
    - unfold joint. simpl. fold n.
      assert (Hz' : zcell (map Z.opp (AleatoryVariable.domain P)) o0 = 0%Z).
      { apply zcell_lookup. rewrite list_lookup_fmap.
        rewrite (lookup_zcell _ _ Ho0), Hz. done. }
      rewrite Hz', (clampi_inside n s Hs), Hone.
      destruct (decide (s = i)); ring.
    - intros o Ho Hne. unfold joint. simpl.
      rewrite (Hzero o) by lia. destruct (decide _); ring. }
  rewrite (bigsum_ext _ (λ s, if decide (s = i)
             then cell (AleatoryVariable.distribution X) s else 0%Q) n Hrow).
  destruct (decide (i < n)) as [Hi|Hi].
  - rewrite (bigsum_single _ _ i Hi).
    + destruct (decide (i = i)); [reflexivity | done].
    + intros k _ Hk. destruct (decide (k = i)); [done | reflexivity].
  - rewrite bigsum_zero.
    + rewrite cell_ge; [reflexivity|]. rewrite HX. unfold n, AleatoryVariable.len in Hi. lia.
    + intros k Hk. destruct (decide (k = i)); [lia | reflexivity].
Qed.

(** C4. For an aligned [X] and the point mass at 0, built by [from_exact]
    with or without bounds, [X + pointMass(0)] returns a variable with the
    domain of [X] and, cell for cell, the mass of [X]. *)
Theorem add_point_mass_zero (X P : AleatoryVariable.t) (bounds : option (Z * Z)) :
  aligned X →
  AleatoryVariable.from_exact 0 bounds = Returns P →
  ∃ R, AleatoryVariable.add X P = Returns R ∧
    AleatoryVariable.domain R = AleatoryVariable.domain X ∧
    Forall2 Qeq (AleatoryVariable.distribution R) (AleatoryVariable.distribution X).
Proof.
  intros HX HP. apply add_point_at_zero; [done|].
  by eapply from_exact_zero_point.
Qed.

(** ** Powers *)

Lemma index_arange_first (lo hi : Z) :
  (lo <= hi)%Z → Np.index (Np.arange lo (hi + 1)) 0 = Returns lo.
Proof.
  intros H. unfold Np.index, Np.arange. simpl.
  change (Z.to_nat 0) with 0.
  rewrite (lookup_seqZ_lt lo (hi + 1 - lo) 0) by lia.
  f_equal. lia.
Qed.

Lemma index_arange_last (lo hi : Z) :
  (lo <= hi)%Z → Np.index (Np.arange lo (hi + 1)) (-1) = Returns hi.
Proof.
  intros H. unfold Np.index, Np.arange, Np.len. simpl.
  rewrite length_seqZ.
  destruct (Z.ltb_spec (-1 + Z.of_nat (Z.to_nat (hi + 1 - lo))) 0); [lia|].
  rewrite (lookup_seqZ_lt lo (hi + 1 - lo)) by lia.
  f_equal. lia.
Qed.

Lemma padd_cons_nonempty (a b : list Q) (y : Q) : Np.padd a (y :: b) ≠ [].
Proof. by destruct a. Qed.

Lemma conv_nonempty (a v : list Q) : a ≠ [] → Np.conv a v ≠ [].
Proof. destruct a as [|x a]; [done|]. intros _. simpl. apply padd_cons_nonempty. Qed.

Lemma convolve_Returns (a v : list Q) :
  a ≠ [] → v ≠ [] → Np.convolve a v = Returns (Np.conv a v).
Proof. by destruct a, v. Qed.

(** The repeated self-convolution of [__pow__] returns as soon as the mass
    vector is not empty. *)
Lemma pow_loop_Returns (v : list Q) (l : list Z) :
  v ≠ [] →
  ∃ d, for_in l (λ dist _, Np.convolve dist v) v = Returns d ∧ d ≠ [].
Proof.
  intros Hv. apply (for_in_invariant (λ d, d ≠ [])); [done|].
  intros d _ _ Hd. exists (Np.conv d v).
  split; [by apply convolve_Returns | by apply conv_nonempty].
Qed.

Lemma contiguous_nonempty (X : AleatoryVariable.t) (lo hi : Z) :
  aligned X → contiguous X lo hi → AleatoryVariable.distribution X ≠ [].
Proof.
  intros HX [Hle Hdom] Hnil. unfold aligned in HX.
  rewrite Hnil, Hdom in HX. unfold Np.arange in HX.
  rewrite length_seqZ in HX. simpl in HX. lia.
Qed.

(** C3. For an aligned [X] over the contiguous domain [lo..hi] and [n > 0]:
    [X ** 1] returns [X] itself, [X ** 0] returns the point mass at 0 (domain
    [[0]], mass [[1]]), and [X ** n] and [X ** (-n)] both return, the second
    being the first with its domain sign-negated and reversed and its mass
    reversed. *)
Theorem pow_one_zero_mirror (X : AleatoryVariable.t) (lo hi n : Z) :
  aligned X → contiguous X lo hi → (0 < n)%Z →
  AleatoryVariable.pow X 1 = Returns X ∧
  AleatoryVariable.pow X 0 = Returns (AleatoryVariable.mk [0%Z] [1%Q]) ∧
  ∃ R, AleatoryVariable.pow X n = Returns R ∧
    AleatoryVariable.domain R = Np.arange (lo * n) (hi * n + 1) ∧
    AleatoryVariable.pow X (- n)
    = Returns (AleatoryVariable.mk
                 (reverse (map Z.opp (AleatoryVariable.domain R)))
                 (reverse (AleatoryVariable.distribution R))).
Proof.
  intros HX Hc Hn. pose proof (contiguous_nonempty X lo hi HX Hc) as Hne.
  destruct Hc as [Hle Hdom].
  split; [|split].
  - unfold AleatoryVariable.pow. simpl "=?".  cbv iota.
    rewrite Hdom, index_arange_first, index_arange_last by done. simpl.
    rewrite !Z.mul_1_r, <- Hdom. by destruct X.
  - done.
  - destruct (pow_loop_Returns (AleatoryVariable.distribution X)
                (Np.arange 0 (Z.abs n - 1)) Hne) as (d & Hd & _).
    exists (AleatoryVariable.mk (Np.arange (lo * n) (hi * n + 1)) d).
    unfold AleatoryVariable.pow.
    destruct (Z.eqb_spec n 0); [lia|]. destruct (Z.eqb_spec (- n) 0); [lia|].
    rewrite Hdom, index_arange_first, index_arange_last by done. simpl.
    rewrite Z.abs_opp, Hd. simpl.
    destruct (Z.gtb_spec n 0); [|lia]. destruct (Z.gtb_spec (- n) 0); [lia|].
    rewrite (Z.abs_eq n) by lia. done.
Qed.

(** ** Convolution, normalisation and slices *)

Lemma length_padd (a b : list Q) : length (Np.padd a b) = length a `max` length b.
Proof.
  revert b. induction a as [|x a IH]; intros [|y b]; simpl; try done.
  by rewrite IH.
Qed.

Lemma sum_padd (a b : list Q) : (Np.sum (Np.padd a b) == Np.sum a + Np.sum b)%Q.
Proof.
  revert b. induction a as [|x a IH]; intros [|y b]; simpl.
  - rewrite sum_nil. ring.
  - rewrite sum_nil. ring.
  - rewrite sum_nil. ring.
  - rewrite !sum_cons, IH. ring.
Qed.

Lemma nonneg_padd (a b : list Q) :
  nonneg_mass a → nonneg_mass b → nonneg_mass (Np.padd a b).
Proof.
  intros Ha. revert b. induction Ha as [|x a Hx Ha IH]; intros b Hb; [done|].
  destruct Hb as [|y b Hy Hb]; simpl.
  - by constructor.
  - constructor; [lra | by apply IH].
Qed.

Lemma length_conv (a v : list Q) :
  a ≠ [] → v ≠ [] → length (Np.conv a v) = length a + length v - 1.
Proof.
  intros Ha Hv. induction a as [|x a IH]; [done|]. simpl.
  rewrite length_padd, length_map. simpl.
  destruct a as [|y a]; [simpl; destruct v; [done | simpl; lia]|].
  rewrite IH by done. simpl. destruct v; [done | simpl; lia].
Qed.

Lemma sum_map_mult (c : Q) (l : list Q) :
  (Np.sum (map (Qmult c) l) == c * Np.sum l)%Q.
Proof.
  induction l as [|x l IH]; simpl.
  - rewrite sum_nil. ring.
  - rewrite !sum_cons, IH. ring.
Qed.

Lemma sum_conv (a v : list Q) : (Np.sum (Np.conv a v) == Np.sum a * Np.sum v)%Q.
Proof.
  induction a as [|x a IH]; simpl.
  - rewrite sum_nil. ring.
  - rewrite sum_padd, sum_map_mult, !sum_cons, IH. ring.
Qed.

Lemma nonneg_conv (a v : list Q) :
  nonneg_mass a → nonneg_mass v → nonneg_mass (Np.conv a v).
Proof.
  intros Ha Hv. induction Ha as [|x a Hx Ha IH]; simpl; [constructor|].
  apply nonneg_padd.
  - unfold nonneg_mass. rewrite Forall_map. eapply Forall_impl; [exact Hv|].
    simpl. intros y Hy. by apply Qmult_le_0_compat.
  - constructor; [lra | done].
Qed.

(** The self-convolution loop shared by [__pow__] and the dice. *)
Lemma conv_loop_spec (v : list Q) (l : list Z) (d : list Q) :
  v ≠ [] → d ≠ [] →
  ∃ d', for_in l (λ dist _, Np.convolve dist v) d = Returns d' ∧
    d' ≠ [] ∧
    length d' = length d + length l * (length v - 1) ∧
    (nonneg_mass v → nonneg_mass d → nonneg_mass d') ∧
    ((0 < Np.sum v)%Q → (0 < Np.sum d)%Q → (0 < Np.sum d')%Q) ∧
    ((Np.sum v == 1)%Q → (Np.sum d' == Np.sum d)%Q).
Proof.
  intros Hv. revert d. induction l as [|x l IH]; intros d Hd; simpl.
  - exists d. repeat split; done.
  - rewrite convolve_Returns by done. simpl.
    destruct (IH (Np.conv d v) (conv_nonempty d v Hd))
      as (d' & Hrun & Hne & Hlen & Hnn & Hpos & Hone).
    exists d'. split; [done|]. split; [done|]. split; [|split; [|split]].
    + rewrite Hlen, length_conv by done.
      destruct d; [done|]. destruct v; [done|]. simpl. lia.
    + intros Hv0 Hd0. apply Hnn; [done|]. by apply nonneg_conv.
    + intros Hv0 Hd0. apply Hpos; [done|]. rewrite sum_conv.
      by apply Qmult_lt_0_compat.
    + intros H1. rewrite (Hone H1), sum_conv, H1. ring.
Qed.

Lemma Qeq_bool_false (x : Q) : ¬ (x == 0)%Q → Qeq_bool x 0 = false.
Proof.
  intros H. destruct (Qeq_bool x 0) eqn:E; [|done].
  by apply Qeq_bool_eq in E.
Qed.

Lemma normalize_spec (v : list Q) :
  ¬ (Np.sum v == 0)%Q →
  Np.normalize v = Returns (map (λ x, (x / Np.sum v)%Q) v) ∧
  (Np.sum (map (λ x, (x / Np.sum v)%Q) v) == 1)%Q.
Proof.
  intros Hs. unfold Np.normalize. rewrite (Qeq_bool_false _ Hs). split; [done|].
  transitivity (Np.sum (map (λ y, y * / Np.sum v)%Q v)); [reflexivity|].
  rewrite sum_map_scale. by field.
Qed.

Lemma normalize_cell (v : list Q) (i : nat) :
  (cell (map (λ x, (x / Np.sum v)%Q) v) i == cell v i / Np.sum v)%Q.
Proof.
  unfold cell. rewrite !nth_lookup, list_lookup_fmap.
  destruct (v !! i); simpl; [reflexivity|]. unfold Qdiv. ring.
Qed.

Lemma nonneg_normalize (v : list Q) :
  nonneg_mass v → (0 < Np.sum v)%Q →
  nonneg_mass (map (λ x, (x / Np.sum v)%Q) v).
Proof.
  intros Hv Hs. unfold nonneg_mass. rewrite Forall_map.
  eapply Forall_impl; [exact Hv|]. simpl. intros x Hx.
  apply Qle_shift_div_l; [done|]. lra.
Qed.

Lemma where_first_arange (lo hi x : Z) :
  (lo <= x <= hi)%Z →
  Np.where_first (Np.arange lo (hi + 1)) x = Returns (Z.to_nat (x - lo)).
Proof.
  unfold Np.arange. intros H.
  remember (Z.to_nat (x - lo)) as k eqn:Hk.
  revert lo H Hk. induction k as [|k IH]; intros lo H Hk.
  - assert (x = lo) as -> by lia.
    rewrite (seqZ_cons lo) by lia. simpl. by rewrite Z.eqb_refl.
  - rewrite (seqZ_cons lo) by lia. simpl.
    destruct (Z.eqb_spec lo x); [lia|].
    replace (Z.pred (hi + 1 - lo)) with (hi + 1 - Z.succ lo)%Z by lia.
    rewrite (IH (Z.succ lo)) by lia. done.
Qed.

Lemma sum_zip_plus (a b : list Q) :
  length a = length b →
  (Np.sum (zip_with Qplus a b) == Np.sum a + Np.sum b)%Q.
Proof.
  revert b. induction a as [|x a IH]; intros [|y b] H; simpl in *; try done.
  rewrite !sum_cons, IH by lia. ring.
Qed.

Lemma slice_iadd_spec (acc : list Q) (start : nat) (v : list Q) :
  start + length v ≤ length acc →
  ∃ acc', Np.slice_iadd acc start (start + length v) v = Returns acc' ∧
    length acc' = length acc ∧
    (Np.sum acc' == Np.sum acc + Np.sum v)%Q ∧
    ∀ i, (cell acc' i
          == cell acc i
             + (if decide (start ≤ i < start + length v)
                then cell v (i - start) else 0))%Q.
Proof.
  intros Hfit. unfold Np.slice_iadd.
  replace (((start + length v) `min` length acc) - start) with (length v) by lia.
  rewrite decide_True by done. eexists. split; [done|].
  set (mid := take (length v) (drop start acc)).
  set (pre := take start acc).
  set (post := drop (start + length v) acc).
  assert (Hmid : length mid = length v).
  { unfold mid. rewrite length_take, length_drop. lia. }
  assert (Hpre : length pre = start) by (unfold pre; rewrite length_take; lia).
  assert (Hacc : acc = pre ++ mid ++ post).
  { unfold pre, mid, post. rewrite <- drop_drop, take_drop, take_drop. done. }
  assert (Hzl : length (zip_with Qplus mid v) = length v).
  { rewrite length_zip_with. lia. }
  split; [|split].
  - rewrite Hacc, !length_app, Hzl, Hmid. done.
  - rewrite Hacc, !sum_app.
    assert (Hz := sum_zip_plus mid v Hmid).
    rewrite Hz. ring.
  - intros i. unfold cell. rewrite !nth_lookup. rewrite Hacc.
    destruct (decide (i < start)) as [Hi|Hi].
    + rewrite !lookup_app_l by lia. rewrite decide_False by lia.
      destruct (pre !! i); simpl; ring.
    + rewrite !(lookup_app_r pre) by lia. rewrite Hpre.
      destruct (decide (i - start < length v)) as [Hi2|Hi2].
      * rewrite !lookup_app_l by lia. rewrite decide_True by lia.
        rewrite lookup_zip_with.
        destruct (lookup_lt_is_Some_2 mid (i - start)) as [a Ha]; [lia|].
        destruct (lookup_lt_is_Some_2 v (i - start)) as [b Hb]; [lia|].
        rewrite Ha, Hb. simpl. reflexivity.
      * rewrite !lookup_app_r by lia. rewrite Hzl, Hmid.
        rewrite decide_False by lia.
        destruct (post !! _); simpl; ring.
Qed.

(** ** Dice *)

Lemma Qpower_nat_mono (x y : Q) (k : nat) :
  (0 <= x)%Q → (x <= y)%Q → (x ^ Z.of_nat k <= y ^ Z.of_nat k)%Q.
Proof.
  intros Hx Hxy. induction k as [|k IH]; [simpl; lra|].
  rewrite Nat2Z.inj_succ. unfold Z.succ.
  rewrite !Qpower_plus' by lia.
  change (x ^ 1)%Q with x. change (y ^ 1)%Q with y.
  pose proof (Qpower_0_le x (Z.of_nat k) Hx).
  apply Qmult_le_compat_nonneg; split; lra.
Qed.

Lemma Qpower_abs_mono (x y : Q) (n : Z) :
  (0 <= x)%Q → (x <= y)%Q → (x ^ Z.abs n <= y ^ Z.abs n)%Q.
Proof.
  intros. rewrite <- (Z2Nat.id (Z.abs n)) by lia. by apply Qpower_nat_mono.
Qed.

Lemma Qpower_one (n : Z) : ((46656 # 46656) ^ n == 1)%Q.
Proof.
  assert (H : (46656 # 46656 == 1)%Q) by reflexivity.
  rewrite H. apply Qpower_1.
Qed.

Lemma sum_reverse (l : list Q) : (Np.sum (reverse l) == Np.sum l)%Q.
Proof.
  induction l as [|x l IH]; [reflexivity|].
  rewrite reverse_cons, sum_app, !sum_cons, sum_nil, IH. ring.
Qed.

Lemma nonneg_reverse (l : list Q) : nonneg_mass l → nonneg_mass (reverse l).
Proof. unfold nonneg_mass. by rewrite Forall_reverse. Qed.

(** The boon distribution has six cells, no negative cell and total 1. *)
Lemma boon_distribution_spec (n : Z) :
  length (Dice._boon_distribution n 6) = 6 ∧
  nonneg_mass (Dice._boon_distribution n 6) ∧
  (Np.sum (Dice._boon_distribution n 6) == 1)%Q.
Proof.
  unfold Dice._boon_distribution.
  assert (Hc : Np.cumsum (Np.full 6 (1 / inject_Z 6))
               = [1 # 6; 12 # 36; 108 # 216; 864 # 1296; 6480 # 7776;
                  46656 # 46656]%Q) by (vm_compute; reflexivity).
  rewrite Hc. clear Hc. set (k := Z.abs n).
  cbn [map Np.diff1 zip_with].
  assert (H1 : (0 <= (1 # 6) ^ k)%Q) by (apply Qpower_0_le; lra).
  assert (H2 : ((1 # 6) ^ k <= (12 # 36) ^ k)%Q)
    by (apply Qpower_abs_mono; [lra | unfold Qle; simpl; lia]).
  assert (H3 : ((12 # 36) ^ k <= (108 # 216) ^ k)%Q)
    by (apply Qpower_abs_mono; [lra | unfold Qle; simpl; lia]).
  assert (H4 : ((108 # 216) ^ k <= (864 # 1296) ^ k)%Q)
    by (apply Qpower_abs_mono; [lra | unfold Qle; simpl; lia]).
  assert (H5 : ((864 # 1296) ^ k <= (6480 # 7776) ^ k)%Q)
    by (apply Qpower_abs_mono; [lra | unfold Qle; simpl; lia]).
  assert (H6 : ((6480 # 7776) ^ k <= (46656 # 46656) ^ k)%Q)
    by (apply Qpower_abs_mono; [lra | unfold Qle; simpl; lia]).
  pose proof (Qpower_one k) as H7.
  set (l := [_; _; _; _; _; _]).
  assert (Hl : length l = 6 ∧ nonneg_mass l ∧ (Np.sum l == 1)%Q).
  { split; [done|]. split.
    - unfold l. repeat constructor; lra.
    - unfold l, Np.sum. simpl. rewrite <- H7. ring. }
  destruct (n <? 0)%Z; [|done].
  destruct Hl as (Hlen & Hnn & Hsum). unfold Np.flip.
  split; [by rewrite length_reverse|].
  split; [by apply nonneg_reverse | by rewrite sum_reverse].
Qed.

Lemma ones_spec (n : Z) :
  (0 < n)%Z →
  Np.ones n ≠ [] ∧ length (Np.ones n) = Z.to_nat n ∧
  nonneg_mass (Np.ones n) ∧ (0 < Np.sum (Np.ones n))%Q.
Proof.
  intros Hn. unfold Np.ones, Np.full.
  split; [|split; [|split]].
  - destruct (Z.to_nat n) eqn:E; [lia | done].
  - by rewrite length_replicate.
  - apply Forall_replicate. lra.
  - rewrite sum_replicate, Z2Nat.id by lia.
    rewrite Qmult_1_r. change 0%Q with (inject_Z 0). rewrite <- Zlt_Qlt. done.
Qed.

(** *** The int64 frequency vector *)

Lemma wrap64_small (z : Z) :
  (- 2 ^ 63 <= z < 2 ^ 63)%Z → Np.wrap64 z = z.
Proof.
  change (2 ^ 63)%Z with 9223372036854775808%Z. intros H. unfold Np.wrap64.
  rewrite Z.mod_small by lia. lia.
Qed.

Lemma length_ipadd (a b : list Z) :
  length (Np.ipadd a b) = length a `max` length b.
Proof.
  revert b. induction a as [|x a IH]; intros [|y b]; simpl; try done.
  by rewrite IH.
Qed.

Lemma Zsum_ipadd (a b : list Z) : Zsum (Np.ipadd a b) = (Zsum a + Zsum b)%Z.
Proof.
  revert b. induction a as [|x a IH]; intros [|y b]; simpl; try lia.
  rewrite IH. lia.
Qed.

Lemma nonneg_ipadd (a b : list Z) :
  Forall (λ x, 0 <= x)%Z a → Forall (λ x, 0 <= x)%Z b →
  Forall (λ x, 0 <= x)%Z (Np.ipadd a b).
Proof.
  intros Ha. revert b. induction Ha as [|x a Hx Ha IH]; intros b Hb; [done|].
  destruct Hb as [|y b Hy Hb]; simpl.
  - by constructor.
  - constructor; [lia | by apply IH].
Qed.

Lemma iconv_nonempty (a v : list Z) : a ≠ [] → Np.iconv a v ≠ [].
Proof. destruct a as [|x a]; [done|]. intros _. simpl. by destruct (map _ v). Qed.

Lemma iconvolve_Returns (a v : list Z) :
  a ≠ [] → v ≠ [] →
  Np.iconvolve a v = Returns (map Np.wrap64 (Np.iconv a v)).
Proof. by destruct a, v. Qed.

Lemma length_iconv (a v : list Z) :
  a ≠ [] → v ≠ [] → length (Np.iconv a v) = length a + length v - 1.
Proof.
  intros Ha Hv. induction a as [|x a IH]; [done|]. simpl.
  rewrite length_ipadd, length_map. simpl.
  destruct a as [|y a]; [simpl; destruct v; [done | simpl; lia]|].
  rewrite IH by done. simpl. destruct v; [done | simpl; lia].
Qed.

Lemma Zsum_map_mul (c : Z) (l : list Z) :
  Zsum (map (Z.mul c) l) = (c * Zsum l)%Z.
Proof. induction l as [|x l IH]; simpl; [lia|]. rewrite IH. lia. Qed.

Lemma Zsum_iconv (a v : list Z) : Zsum (Np.iconv a v) = (Zsum a * Zsum v)%Z.
Proof.
  induction a as [|x a IH]; simpl; [done|].
  rewrite Zsum_ipadd, Zsum_map_mul. simpl. rewrite IH. lia.
Qed.

Lemma nonneg_iconv (a v : list Z) :
  Forall (λ x, 0 <= x)%Z a → Forall (λ x, 0 <= x)%Z v →
  Forall (λ x, 0 <= x)%Z (Np.iconv a v).
Proof.
  intros Ha Hv. induction Ha as [|x a Hx Ha IH]; simpl; [constructor|].
  apply nonneg_ipadd.
  - rewrite Forall_map. eapply Forall_impl; [exact Hv|]. simpl. lia.
  - constructor; [lia | done].
Qed.

Lemma Zsum_nonneg (l : list Z) : Forall (λ x, 0 <= x)%Z l → (0 <= Zsum l)%Z.
Proof. induction 1; simpl; lia. Qed.

(** No cell of a non-negative vector exceeds its total. *)
Lemma map_wrap64_small (l : list Z) :
  Forall (λ x, 0 <= x)%Z l → (Zsum l < 2 ^ 63)%Z → map Np.wrap64 l = l.
Proof.
  induction 1 as [|x l Hx Hl IH]; intros Hs; simpl in *; [done|].
  pose proof (Zsum_nonneg l Hl).
  rewrite wrap64_small, IH by lia. done.
Qed.

Lemma isum_from (l : list Z) (acc : Z) :
  Forall (λ x, 0 <= x)%Z l → (0 <= acc)%Z → (acc + Zsum l < 2 ^ 63)%Z →
  fold_left (λ acc x, Np.wrap64 (acc + x)) l acc = (acc + Zsum l)%Z.
Proof.
  intros Hl. revert acc. induction Hl as [|x l Hx Hl IH]; intros acc Ha Hs;
    simpl in *; [lia|].
  pose proof (Zsum_nonneg l Hl).
  rewrite wrap64_small by lia. rewrite IH by lia. lia.
Qed.

(** Below [2 ^ 63] the wrapping total is the total. *)
Lemma isum_small (l : list Z) :
  Forall (λ x, 0 <= x)%Z l → (Zsum l < 2 ^ 63)%Z → Np.isum l = Zsum l.
Proof. intros Hl Hs. unfold Np.isum. by rewrite isum_from. Qed.

Lemma iones_spec (n : Z) :
  (0 < n)%Z →
  Np.iones n ≠ [] ∧ length (Np.iones n) = Z.to_nat n ∧
  Forall (λ x, 0 <= x)%Z (Np.iones n) ∧ Zsum (Np.iones n) = n.
Proof.
  intros Hn. unfold Np.iones. split; [|split; [|split]].
  - destruct (Z.to_nat n) eqn:E; [lia | done].
  - by rewrite length_replicate.
  - apply Forall_replicate. lia.
  - rewrite <- (Z2Nat.id n) at 2 by lia.
    induction (Z.to_nat n) as [|k IH]; simpl; [done|]. rewrite IH. lia.
Qed.

Lemma sum_inject (l : list Z) :
  (Np.sum (map inject_Z l) == inject_Z (Zsum l))%Q.
Proof.
  induction l as [|x l IH]; simpl; [reflexivity|].
  rewrite sum_cons, IH, inject_Z_plus. reflexivity.
Qed.

Lemma nonneg_inject (l : list Z) :
  Forall (λ x, 0 <= x)%Z l → nonneg_mass (map inject_Z l).
Proof.
  intros H. unfold nonneg_mass. rewrite Forall_map.
  eapply Forall_impl; [exact H|]. simpl. intros x Hx.
  change 0%Q with (inject_Z 0). by rewrite <- Zle_Qle.
Qed.

(** The convolution loop over the int64 vector: while the total
    [die ^ times] stays below [2 ^ 63] no cell wraps. *)
Lemma iconv_loop_spec (die : Z) (l : list Z) (d : list Z) :
  (0 < die)%Z → d ≠ [] → Forall (λ x, 0 <= x)%Z d →
  (Zsum d * die ^ Z.of_nat (length l) < 2 ^ 63)%Z →
  ∃ d', for_in l (λ dist _, Np.iconvolve dist (Np.iones die)) d = Returns d' ∧
    d' ≠ [] ∧
    length d' = length d + length l * (Z.to_nat die - 1) ∧
    Forall (λ x, 0 <= x)%Z d' ∧
    Zsum d' = (Zsum d * die ^ Z.of_nat (length l))%Z.
Proof.
  intros Hdie. destruct (iones_spec die Hdie) as (Hone & Holen & Honn & Hosum).
  revert d. induction l as [|x l IH]; intros d Hd Hnn Hb.
  - exists d. simpl. rewrite Z.mul_1_r. repeat split; (done || lia).
  - cbn [for_in]. rewrite iconvolve_Returns by done. rewrite bind_Returns_l.
    pose proof (nonneg_iconv _ _ Hnn Honn) as Hcnn.
    pose proof (Zsum_iconv d (Np.iones die)) as Hcs. rewrite Hosum in Hcs.
    pose proof (Zsum_nonneg _ Hnn) as Hd0.
    cbn [length] in Hb. rewrite Nat2Z.inj_succ, Z.pow_succ_r in Hb by lia.
    assert (Hp : (1 <= die ^ Z.of_nat (length l))%Z)
      by (apply (Z.pow_le_mono_r die 0); lia).
    rewrite map_wrap64_small by (done || nia).
    destruct (IH (Np.iconv d (Np.iones die)))
      as (r & Hrun & Hrne & Hrlen & Hrnn & Hrsum).
    { by apply iconv_nonempty. }
    { done. }
    { rewrite Hcs. lia. }
    exists r. split; [done|]. split; [done|]. split; [|split; [done|]].
    + rewrite Hrlen, length_iconv by done.
      rewrite Holen. cbn [length].
      assert (0 < length d) by (destruct d; [done | simpl; lia]).
      lia.
    + rewrite Hrsum, Hcs. cbn [length].
      rewrite Nat2Z.inj_succ, Z.pow_succ_r by lia. lia.
Qed.

Lemma divide_spec (v : list Q) (s : Q) :
  ¬ (s == 0)%Q → Np.divide v s = Returns (map (λ x, (x / s)%Q) v).
Proof. intros Hs. unfold Np.divide. by rewrite (Qeq_bool_false _ Hs). Qed.

Lemma nonneg_divide (v : list Q) (s : Q) :
  nonneg_mass v → (0 < s)%Q → nonneg_mass (map (λ x, (x / s)%Q) v).
Proof.
  intros Hv Hs. unfold nonneg_mass. rewrite Forall_map.
  eapply Forall_impl; [exact Hv|]. simpl. intros x Hx.
  apply Qle_shift_div_l; [done|]. lra.
Qed.

Lemma sum_divide (v : list Q) (s : Q) :
  ¬ (s == 0)%Q → (Np.sum (map (λ x, (x / s)%Q) v) == Np.sum v / s)%Q.
Proof.
  intros Hs.
  transitivity (Np.sum (map (λ y, y * / s)%Q v)); [reflexivity|].
  rewrite sum_map_scale. reflexivity.
Qed.

Lemma distribution_values_spec (times die mod_ boons : Z) :
  (0 < times)%Z → (0 < die)%Z → (die ^ times < 2 ^ 63)%Z →
  ∃ arr lo hi,
    Dice._distribution_values times die mod_ boons
    = Returns (arr, Np.arange lo (hi + 1)) ∧
    (lo <= hi)%Z ∧
    length (Np.cells arr) = length (Np.arange lo (hi + 1)) ∧
    nonneg_mass (Np.cells arr) ∧
    (0 < Np.total arr)%Q ∧
    (Np.total arr == Np.sum (Np.cells arr))%Q ∧
    (boons = 0%Z → lo = (mod_ + times)%Z ∧ hi = (mod_ + times * die)%Z).
Proof.
  intros Ht Hd Hb. unfold Dice._distribution_values.
  destruct (iones_spec die Hd) as (Hne & Hlen & Hnn & Hsum).
  assert (Hal : length (Np.arange 1 times) = Z.to_nat (times - 1))
    by (unfold Np.arange; apply length_seqZ).
  assert (Hpow : (die * die ^ Z.of_nat (length (Np.arange 1 times)) = die ^ times)%Z).
  { rewrite Hal, Z2Nat.id, <- Z.pow_succ_r by lia. f_equal. lia. }
  destruct (iconv_loop_spec die (Np.arange 1 times) (Np.iones die) Hd Hne Hnn)
    as (d & Hrun & Hdne & Hdlen & Hdnn & Hdsum).
  { rewrite Hsum, Hpow. done. }
  rewrite Hsum, Hpow in Hdsum.
  rewrite Hrun, bind_Returns_l.
  assert (Hl : Z.of_nat (length d) = (times * die - times + 1)%Z).
  { rewrite Hdlen, Hlen, Hal.
    rewrite Nat2Z.inj_add, Nat2Z.inj_mul, Nat2Z.inj_sub by lia.
    rewrite !Z2Nat.id by lia. lia. }
  assert (Hpos : (0 < die ^ times)%Z) by (apply Z.pow_pos_nonneg; lia).
  assert (Hqs : (Np.sum (map inject_Z d) == inject_Z (die ^ times))%Q)
    by (by rewrite sum_inject, Hdsum).
  assert (Hqp : (0 < inject_Z (die ^ times))%Q)
    by (change 0%Q with (inject_Z 0); by rewrite <- Zlt_Qlt).
  destruct (Z.eqb_spec boons 0) as [->|Hbn].
  - exists (Np.Int64 d), (mod_ + times)%Z, (mod_ + times * die)%Z.
    split; [done|]. split; [nia|]. simpl.
    rewrite isum_small by (done || lia). rewrite Hdsum.
    split; [rewrite length_map; unfold Np.arange; rewrite length_seqZ; lia|].
    split; [by apply nonneg_inject|]. split; [done|]. split; [by rewrite Hqs | done].
  - destruct (boon_distribution_spec boons) as (Hbl & Hbnn & Hbsum).
    assert (Hbne : Dice._boon_distribution boons 6 ≠ []).
    { intros E. rewrite E in Hbl. done. }
    assert (Hmne : map inject_Z d ≠ []) by (by destruct d).
    rewrite (convolve_Returns _ _ Hmne Hbne).
    set (c := Np.conv (map inject_Z d) (Dice._boon_distribution boons 6)).
    assert (Hcl : length c = length d + 5).
    { unfold c. rewrite length_conv, Hbl, length_map by done. lia. }
    assert (Hcnn : nonneg_mass c).
    { apply nonneg_conv; [by apply nonneg_inject | done]. }
    assert (Hcs : (0 < Np.sum c)%Q).
    { unfold c. rewrite sum_conv, Hbsum, Qmult_1_r, Hqs. done. }
    destruct (Z.gtb_spec boons 0); rewrite bind_Returns_l.
    + exists (Np.Float64 c), (mod_ + times + 1)%Z, (mod_ + times * die + 6)%Z.
      split; [done|]. split; [nia|]. simpl.
      split; [unfold Np.arange; rewrite length_seqZ; lia|].
      split; [done|]. split; [done|]. split; [reflexivity | done].
    + exists (Np.Float64 c), (mod_ + times - 6)%Z, (mod_ + times * die - 1)%Z.
      split; [done|]. split; [nia|]. simpl.
      split; [unfold Np.arange; rewrite length_seqZ; lia|].
      split; [done|]. split; [done|]. split; [reflexivity | done].
Qed.

Lemma mapM_Returns {A B : Type} (f : A → outcome B) (l : list A) :
  (∀ x, x ∈ l → ∃ y, f x = Returns y) → ∃ k, mapM f l = Returns k.
Proof.
  induction l as [|x l IH]; intros H; simpl; [by eexists|].
  destruct (H x) as [y Hy]; [left|]. rewrite Hy. simpl.
  destruct IH as [k Hk]; [intros z Hz; apply H; by right|].
  rewrite Hk. simpl. by eexists.
Qed.

Lemma expected_Returns (values : list Z) (pmf : list Q) :
  length pmf = length values →
  ∃ q, Dice.expected values pmf (Np.len values) = Returns q.
Proof.
  intros Hlen. unfold Dice.expected, Np.len, Np.range. rewrite Nat2Z.id.
  destruct (mapM_Returns
    (λ i, v ← Np.item values i; p ← Np.item pmf i; Returns (inject_Z v * p)%Q)
    (seq 0 (length values))) as [k Hk].
  - intros i Hi. apply elem_of_seq in Hi.
    rewrite (item_Returns values i _ (lookup_zcell values i ltac:(lia))).
    rewrite (item_Returns pmf i _ (lookup_cell pmf i ltac:(lia))).
    simpl. by eexists.
  - rewrite Hk. simpl. by eexists.
Qed.

Lemma length_cumsum_from (acc : Q) (l : list Q) :
  length (Np.cumsum_from acc l) = length l.
Proof. revert acc. induction l as [|x l IH]; intros acc; simpl; [done|]. by rewrite IH. Qed.

Lemma length_cumsum (l : list Q) : length (Np.cumsum l) = length l.
Proof. destruct l; simpl; [done|]. by rewrite length_cumsum_from. Qed.

Lemma cumsum_from_lookup (acc : Q) (l : list Q) (k : nat) (c : Q) :
  Np.cumsum_from acc l !! k = Some c → (c == acc + Np.sum (take (S k) l))%Q.
Proof.
  revert acc k. induction l as [|x l IH]; intros acc [|k] H; simpl in *; try done.
  - injection H as <-. rewrite take_0, sum_cons, sum_nil. ring.
  - rewrite (IH _ _ H), !sum_cons. ring.
Qed.

(** The cell [k] of a cumulative sum is the sum of the cells up to [k]. *)
Lemma cumsum_lookup (l : list Q) (k : nat) (c : Q) :
  Np.cumsum l !! k = Some c → (c == Np.sum (take (S k) l))%Q.
Proof.
  destruct l as [|x l]; [done|]. destruct k as [|k]; simpl.
  - intros H. injection H as <-. rewrite take_0, sum_cons, sum_nil. ring.
  - intros H. rewrite (cumsum_from_lookup _ _ _ _ H), !sum_cons. ring.
Qed.

(** [Dice(times, die, mod, boons)] returns whenever its assertion passes
    and the total [die ^ times] of the int64 frequency vector is below
    [2 ^ 63]; the divisor of the pmf is then positive and the object
    satisfies the invariant. *)
Lemma dice_init_ok (times die mod_ boons : Z) :
  (0 < times)%Z → (0 < die)%Z → (die ^ times < 2 ^ 63)%Z →
  ∃ d lo hi arr,
    Dice._distribution_values times die mod_ boons
    = Returns (arr, Np.arange lo (hi + 1)) ∧
    (0 < Np.total arr)%Q ∧
    Dice.init times die mod_ boons = Returns d ∧ dice_ok d lo hi ∧
    (boons = 0%Z → lo = (mod_ + times)%Z ∧ hi = (mod_ + times * die)%Z).
Proof.
  intros Ht Hd Hb. unfold Dice.init.
  destruct (Z.gtb_spec times 0); [|lia]. destruct (Z.gtb_spec die 0); [|lia].
  simpl.
  destruct (distribution_values_spec times die mod_ boons Ht Hd Hb)
    as (arr & lo & hi & Hdv & Hle & Hlen & Hnn & Hpos & Htot & Hbn).
  rewrite Hdv. simpl.
  assert (Hs : ¬ (Np.total arr == 0)%Q) by lra.
  rewrite (divide_spec _ _ Hs). simpl.
  set (pmf := map (λ x, (x / Np.total arr)%Q) (Np.cells arr)) in *.
  assert (Hpl : length pmf = length (Np.arange lo (hi + 1))).
  { unfold pmf. by rewrite length_map. }
  destruct (expected_Returns _ _ Hpl) as [q Hq]. rewrite Hq. simpl.
  eexists _, lo, hi, arr. split; [done|]. split; [done|]. split; [done|].
  split; [|exact Hbn].
  repeat split; simpl; try done.
  - by apply nonneg_divide.
  - unfold pmf. rewrite sum_divide, <- Htot by done. by field.
Qed.

Lemma index_nonneg {A : Type} (l : list A) (i : Z) (x : A) :
  (0 <= i)%Z → l !! Z.to_nat i = Some x → Np.index l i = Returns x.
Proof.
  intros Hi Hx. unfold Np.index. cbv zeta.
  destruct (Z.ltb_spec i 0); [lia|].
  destruct (Z.ltb_spec i 0); [lia|]. by rewrite Hx.
Qed.

(** C5. For a [Dice] over the values [lo..hi] (with one cdf cell per value)
    and any integer [target]: [prob_against] returns [[0, 1]] when
    [target <= lo], [[1, 0]] when [target > hi], and otherwise
    [[round2 pFail, round2 (1 - pFail)]] where [pFail] is the cdf cell
    [target - lo - 1], which is the total pmf of the outcomes strictly
    below [target]. *)
Theorem prob_against_cases (d : Dice.t) (lo hi target : Z) :
  dice_ok d lo hi →
  ((target <= lo)%Z → Dice.prob_against d target = Returns [0%Q; 1%Q]) ∧
  ((hi < target)%Z → Dice.prob_against d target = Returns [1%Q; 0%Q]) ∧
  ((lo < target <= hi)%Z →
   ∃ pFail, Dice.cdf d !! Z.to_nat (target - lo - 1) = Some pFail ∧
     (pFail == Np.sum (take (Z.to_nat (target - lo)) (Dice.pmf d)))%Q ∧
     Dice.prob_against d target
     = Returns [Np.round2 pFail; Np.round2 (1 - pFail)]).
Proof.
  intros (Hle & Hv & Hlen & Hcdf & _ & _).
  unfold Dice.prob_against.
  rewrite Hv, index_arange_first, index_arange_last by done. simpl.
  split; [|split].
  - intros H. by destruct (Z.geb_spec lo target); [|lia].
  - intros H. destruct (Z.geb_spec lo target); [lia|].
    by destruct (Z.ltb_spec hi target); [|lia].
  - intros H. destruct (Z.geb_spec lo target); [lia|].
    destruct (Z.ltb_spec hi target); [lia|].
    assert (Hk : Z.to_nat (target - lo - 1) < length (Dice.cdf d)).
    { rewrite Hcdf, length_cumsum, Hlen, Hv. unfold Np.arange.
      rewrite length_seqZ. lia. }
    destruct (lookup_lt_is_Some_2 _ _ Hk) as [pFail Hp].
    exists pFail. split; [done|]. split.
    + rewrite Hcdf in Hp. rewrite (cumsum_lookup _ _ _ Hp).
      replace (S (Z.to_nat (target - lo - 1))) with (Z.to_nat (target - lo)) by lia.
      reflexivity.
    + rewrite (index_nonneg _ _ pFail) by (done || lia). done.
Qed.

(** ** Combining dice *)

Lemma mapM_map {A B : Type} (f : A → outcome B) (g : A → B) (l : list A) :
  (∀ x, x ∈ l → f x = Returns (g x)) → mapM f l = Returns (map g l).
Proof.
  induction l as [|x l IH]; intros H; simpl; [done|].
  rewrite (H x) by left. simpl. rewrite IH; [done|].
  intros y Hy. apply H. by right.
Qed.

Lemma foldl_min_le (x : Z) (l : list Z) :
  (foldl Z.min x l <= x)%Z ∧ ∀ y, y ∈ l → (foldl Z.min x l <= y)%Z.
Proof.
  revert x. induction l as [|z l IH]; intros x; simpl.
  - split; [lia|]. intros y Hy. by apply elem_of_nil in Hy.
  - destruct (IH (Z.min x z)) as [H1 H2]. split; [lia|].
    intros y Hy. apply elem_of_cons in Hy as [->|Hy]; [lia | by apply H2].
Qed.

Lemma foldl_max_ge (x : Z) (l : list Z) :
  (x <= foldl Z.max x l)%Z ∧ ∀ y, y ∈ l → (y <= foldl Z.max x l)%Z.
Proof.
  revert x. induction l as [|z l IH]; intros x; simpl.
  - split; [lia|]. intros y Hy. by apply elem_of_nil in Hy.
  - destruct (IH (Z.max x z)) as [H1 H2]. split; [lia|].
    intros y Hy. apply elem_of_cons in Hy as [->|Hy]; [lia | by apply H2].
Qed.

Lemma py_min_spec (l : list Z) :
  l ≠ [] → ∃ m, Dice.py_min l = Returns m ∧ ∀ y, y ∈ l → (m <= y)%Z.
Proof.
  destruct l as [|x l]; [done|]. intros _. eexists. split; [done|].
  destruct (foldl_min_le x l) as [H1 H2].
  intros y Hy. apply elem_of_cons in Hy as [->|Hy]; [done | by apply H2].
Qed.

Lemma py_max_spec (l : list Z) :
  l ≠ [] → ∃ m, Dice.py_max l = Returns m ∧ ∀ y, y ∈ l → (y <= m)%Z.
Proof.
  destruct l as [|x l]; [done|]. intros _. eexists. split; [done|].
  destruct (foldl_max_ge x l) as [H1 H2].
  intros y Hy. apply elem_of_cons in Hy as [->|Hy]; [done | by apply H2].
Qed.

Lemma dice_ok_bounds (d : Dice.t) (lo hi : Z) :
  dice_ok d lo hi →
  Np.index (Dice.values d) 0 = Returns lo ∧
  Np.index (Dice.values d) (-1) = Returns hi ∧
  length (Dice.values d) = Z.to_nat (hi + 1 - lo) ∧
  ∃ rest, Dice.values d = lo :: rest.
Proof.
  intros (Hle & Hv & _). rewrite Hv.
  split; [by apply index_arange_first|]. split; [by apply index_arange_last|].
  unfold Np.arange. split; [by rewrite length_seqZ|].
  rewrite (seqZ_cons lo) by lia. by eexists.
Qed.

Lemma dice_ok_unique (d : Dice.t) (lo hi lo' hi' : Z) :
  dice_ok d lo hi → dice_ok d lo' hi' → lo = lo' ∧ hi = hi'.
Proof.
  intros H H'. pose proof H as (Hle & _). pose proof H' as (Hle' & _).
  apply dice_ok_bounds in H as (H0 & H1 & _).
  apply dice_ok_bounds in H' as (H0' & H1' & _).
  rewrite H0 in H0'. rewrite H1 in H1'. split; congruence.
Qed.

Lemma pmf_at_ok (d : Dice.t) (lo hi v : Z) :
  dice_ok d lo hi →
  pmf_at d v = if (lo <=? v)%Z then cell (Dice.pmf d) (Z.to_nat (v - lo)) else 0%Q.
Proof.
  intros H. apply dice_ok_bounds in H as (_ & _ & _ & rest & Hr).
  unfold pmf_at. by rewrite Hr.
Qed.

Lemma cell_nonneg (l : list Q) (i : nat) : nonneg_mass l → (0 <= cell l i)%Q.
Proof.
  intros H. unfold cell. rewrite nth_lookup.
  destruct (l !! i) as [x|] eqn:E; simpl; [|lra].
  by apply (Forall_lookup_1 _ _ _ _ H E).
Qed.

Lemma nonneg_of_cells (l : list Q) : (∀ i, (0 <= cell l i)%Q) → nonneg_mass l.
Proof.
  intros H. apply Forall_lookup_2. intros i x Hx.
  rewrite <- (cell_lookup _ _ _ Hx). apply H.
Qed.

Section combine_loop.
Variables L U : Z.

Lemma combine_body_spec (acc : list Q) (d : Dice.t) :
  fits L U d → length acc = Z.to_nat (U + 1 - L) →
  ∃ acc', combine_body L U acc d = Returns acc' ∧
    length acc' = length acc ∧
    (Np.sum acc' == Np.sum acc + 1)%Q ∧
    ∀ i, (cell acc' i == cell acc i + pmf_at d (L + Z.of_nat i))%Q.
Proof.
  intros (lo & hi & Hok & HL & HU) Hacc.
  pose proof (dice_ok_bounds d lo hi Hok) as (H0 & _ & Hvl & _).
  pose proof Hok as (Hle & Hv & Hpl & _ & _ & Hone).
  unfold combine_body. rewrite H0. simpl.
  rewrite where_first_arange by lia. simpl. rewrite <- Hpl.
  destruct (slice_iadd_spec acc (Z.to_nat (lo - L)) (Dice.pmf d))
    as (acc' & Hrun & Hlen & Hsum & Hcell); [rewrite Hpl, Hvl, Hacc; lia|].
  exists acc'. split; [done|]. split; [done|].
  split; [by rewrite Hsum, Hone|].
  intros i. rewrite Hcell, (pmf_at_ok d lo hi) by done.
  destruct (Z.leb_spec lo (L + Z.of_nat i)).
  - replace (Z.to_nat (L + Z.of_nat i - lo)) with (i - Z.to_nat (lo - L)) by lia.
    destruct (decide _) as [|Hn]; [reflexivity|].
    rewrite (cell_ge (Dice.pmf d)) by lia. reflexivity.
  - rewrite decide_False by lia. reflexivity.
Qed.

Lemma combine_loop_spec (dices : list Dice.t) (acc : list Q) :
  Forall (fits L U) dices → length acc = Z.to_nat (U + 1 - L) →
  ∃ acc', for_in dices (combine_body L U) acc = Returns acc' ∧
    length acc' = length acc ∧
    (Np.sum acc' == Np.sum acc + inject_Z (Z.of_nat (length dices)))%Q ∧
    ∀ i, (cell acc' i
          == cell acc i
             + Np.sum (map (λ d, pmf_at d (L + Z.of_nat i)) dices))%Q.
Proof.
  intros Hfit. revert acc. induction Hfit as [|d dices Hd _ IH]; intros acc Hacc.
  - exists acc. simpl. split; [done|]. split; [done|].
    split; [|intros i]; rewrite ?sum_nil; ring.
  - destruct (combine_body_spec acc d Hd Hacc) as (a1 & Hb & Hl1 & Hs1 & Hc1).
    destruct (IH a1) as (a2 & Hrun & Hl2 & Hs2 & Hc2); [lia|].
    exists a2. simpl for_in. rewrite Hb. simpl.
    split; [done|]. split; [lia|]. split.
    + rewrite Hs2, Hs1. simpl length. rewrite Nat2Z.inj_succ. unfold Z.succ.
      rewrite inject_Z_plus. ring.
    + intros i. rewrite Hc2, Hc1. simpl map. rewrite sum_cons. ring.
Qed.
End combine_loop.

Lemma cell_zeros (n : Z) (i : nat) : cell (Np.zeros n) i = 0%Q.
Proof.
  unfold cell, Np.zeros, Np.full. rewrite nth_lookup.
  destruct (replicate _ _ !! i) as [x|] eqn:E; [|done].
  by apply lookup_replicate in E as [-> _].
Qed.

Lemma length_zeros (n : Z) : length (Np.zeros n) = Z.to_nat n.
Proof. unfold Np.zeros, Np.full. by rewrite length_replicate. Qed.

Lemma length_arange (a b : Z) : length (Np.arange a b) = Z.to_nat (b - a).
Proof. unfold Np.arange. by rewrite length_seqZ. Qed.

(** C10. For [k >= 1] dice, each satisfying the [Dice] invariant,
    [Dice.combine] returns a [Dice] over a contiguous range [L..U] that
    contains 0 and the range of every operand, and whose pmf at every value
    [v] of that range is [1/k] times the sum of the operands' pmfs at [v]:
    an equal-weight mixture. *)
Theorem combine_equal_weight (dices : list Dice.t) :
  dices ≠ [] →
  Forall (λ d, ∃ lo hi, dice_ok d lo hi) dices →
  ∃ tot L U,
    Dice.combine dices = Returns tot ∧
    dice_ok tot L U ∧
    (L <= 0 <= U)%Z ∧
    Forall (λ d, ∀ lo hi, dice_ok d lo hi → (L <= lo)%Z ∧ (hi <= U)%Z) dices ∧
    ∀ v, (L <= v <= U)%Z →
      (pmf_at tot v
       == (1 / inject_Z (Z.of_nat (length dices)))
          * Np.sum (map (λ d, pmf_at d v) dices))%Q.
Proof.
  intros Hne Hok. unfold Dice.combine.
  set (glo := λ d : Dice.t,
    match Np.index (Dice.values d) 0 with Returns x => x | _ => 0%Z end).
  set (ghi := λ d : Dice.t,
    match Np.index (Dice.values d) (-1) with Returns x => x | _ => 0%Z end).
  assert (Hg : ∀ d, d ∈ dices → ∀ lo hi, dice_ok d lo hi →
            glo d = lo ∧ ghi d = hi ∧
            Np.index (Dice.values d) 0 = Returns (glo d) ∧
            Np.index (Dice.values d) (-1) = Returns (ghi d)).
  { intros d _ lo hi Hd. apply dice_ok_bounds in Hd as (H0 & H1 & _).
    unfold glo, ghi. rewrite H0, H1. done. }
  rewrite (mapM_map (λ d, Np.index (Dice.values d) 0) glo).
  2:{ intros d Hd. destruct (proj1 (Forall_forall _ _) Hok d Hd) as (lo & hi & Hdk).
      by destruct (Hg d Hd lo hi Hdk) as (_ & _ & E & _). }
  simpl.
  destruct (py_min_spec (map glo dices)) as (low & -> & Hlow);
    [by destruct dices|]. simpl.
  rewrite (mapM_map (λ d, Np.index (Dice.values d) (-1)) ghi).
  2:{ intros d Hd. destruct (proj1 (Forall_forall _ _) Hok d Hd) as (lo & hi & Hdk).
      by destruct (Hg d Hd lo hi Hdk) as (_ & _ & _ & E). }
  simpl.
  destruct (py_max_spec (map ghi dices)) as (upp & -> & Hupp);
    [by destruct dices|]. simpl.
  set (L := (low - (if (low <=? 0)%Z then 0 else low))%Z).
  set (U := (upp - (if (upp >=? 0)%Z then 0 else upp))%Z).
  assert (HL : (L <= 0)%Z ∧ (L <= low)%Z).
  { unfold L. destruct (Z.leb_spec low 0); lia. }
  assert (HU : (0 <= U)%Z ∧ (upp <= U)%Z).
  { unfold U. destruct (Z.geb_spec upp 0); lia. }
  assert (Hbnd : ∀ d, d ∈ dices → ∀ lo hi, dice_ok d lo hi → (L <= lo)%Z ∧ (hi <= U)%Z).
  { intros d Hd lo hi Hdk. destruct (Hg d Hd lo hi Hdk) as (Hl & Hh & _).
    pose proof (Hlow (glo d) (list_elem_of_fmap_2 glo _ _ Hd)).
    pose proof (Hupp (ghi d) (list_elem_of_fmap_2 ghi _ _ Hd)). lia. }
  assert (Hfits : Forall (fits L U) dices).
  { apply Forall_forall. intros d Hd.
    destruct (proj1 (Forall_forall _ _) Hok d Hd) as (lo & hi & Hdk).
    exists lo, hi. split; [done|]. exact (Hbnd d Hd lo hi Hdk). }
  change (for_in dices _ ?acc) with (for_in dices (combine_body L U) acc).
  destruct (combine_loop_spec L U dices (Np.zeros (Np.len (Np.arange L (U + 1)))) Hfits)
    as (probab & Hrun & Hlen & Hsum & Hcell).
  { rewrite length_zeros. unfold Np.len. by rewrite Nat2Z.id, length_arange. }
  rewrite Hrun, bind_Returns_l.
  set (k := length dices) in *.
  assert (Hk : (0 < inject_Z (Z.of_nat k))%Q).
  { change 0%Q with (inject_Z 0). rewrite <- Zlt_Qlt.
    unfold k. destruct dices; [done | simpl; lia]. }
  assert (Htot : (Np.sum probab == inject_Z (Z.of_nat k))%Q).
  { rewrite Hsum, sum_zeros. ring. }
  assert (Hnz : ¬ (Np.sum probab == 0)%Q) by lra.
  destruct (normalize_spec probab Hnz) as [-> Hone]. simpl.
  set (pmf_ := map (λ x, (x / Np.sum probab)%Q) probab) in *.
  rewrite length_zeros in Hlen. unfold Np.len in Hlen. rewrite Nat2Z.id in Hlen.
  assert (Hpl : length pmf_ = length (Np.arange L (U + 1))).
  { unfold pmf_. by rewrite length_map. }
  destruct (expected_Returns _ _ Hpl) as [q ->]. simpl.
  assert (Hp0 : ∀ i, (cell probab i
                     == Np.sum (map (λ d, pmf_at d (L + Z.of_nat i)) dices))%Q).
  { intros i. rewrite Hcell, cell_zeros. ring. }
  assert (Hdnn : ∀ v, (0 <= Np.sum (map (λ d, pmf_at d v) dices))%Q).
  { intros v. apply sum_nonneg. unfold nonneg_mass. rewrite Forall_map.
    apply Forall_forall. intros d Hd.
    destruct (proj1 (Forall_forall _ _) Hok d Hd) as (lo & hi & Hdk).
    rewrite (pmf_at_ok d lo hi v Hdk). destruct (lo <=? v)%Z; [|lra].
    apply cell_nonneg. by destruct Hdk as (_ & _ & _ & _ & Hnn & _). }
  eexists _, L, U. split; [done|].
  assert (Hdk : dice_ok {| Dice.distribution := probab;
                           Dice.values := Np.arange L (U + 1);
                           Dice.pmf := pmf_;
                           Dice.cdf := Np.cumsum pmf_;
                           Dice.cardinality := Np.len (Np.arange L (U + 1));
                           Dice.avg := q;
                           Dice.string := Dice.join_plus (map Dice.string dices) |}
                  L U).
  { split; [lia|]. split; [done|]. split; [done|]. split; [done|].
    split; [|done]. simpl. apply nonneg_normalize; [|lra].
    apply nonneg_of_cells. intros i. rewrite Hp0. apply Hdnn. }
  split; [done|]. split; [lia|]. split; [by apply Forall_forall|].
  intros v Hv. rewrite (pmf_at_ok _ L U v Hdk). simpl.
  destruct (Z.leb_spec L v); [|lia].
  unfold pmf_. rewrite normalize_cell, Hp0, Htot.
  replace (L + Z.of_nat (Z.to_nat (v - L)))%Z with v by lia.
  field. lra.
Qed.

(** ** Multiplication *)

Section mul_total.
Variables (X Y : AleatoryVariable.t) (lox hix loy hiy : Z).
Hypothesis HX : aligned X.
Hypothesis HY : aligned Y.
Hypothesis HcX : contiguous X lox hix.
Hypothesis HcY : contiguous Y loy hiy.
Hypothesis HX0 : (0 <= lox)%Z.
Hypothesis HY0 : (0 <= loy)%Z.
Hypothesis HXnn : nonneg_mass (AleatoryVariable.distribution X).
Hypothesis HYnn : nonneg_mass (AleatoryVariable.distribution Y).
Hypothesis HXpos : (0 < Np.sum (AleatoryVariable.distribution X))%Q.

Let Xdist := AleatoryVariable.distribution X.
Let Ydist := AleatoryVariable.distribution Y.
Let dom := Np.arange (lox * loy) (hix * hiy + 1).

Lemma length_Xdist : length Xdist = Z.to_nat (hix + 1 - lox).
Proof using HX HcX.
  unfold Xdist. rewrite HX. destruct HcX as [_ ->]. apply length_arange.
Qed.

Lemma length_Ydist : length Ydist = Z.to_nat (hiy + 1 - loy).
Proof using HY HcY.
  unfold Ydist. rewrite HY. destruct HcY as [_ ->]. apply length_arange.
Qed.

(** [X ** v] for a repetition count [v >= 0]. *)
Lemma pow_nonneg_spec (v : Z) :
  (0 <= v)%Z →
  ∃ T, AleatoryVariable.pow X v = Returns T ∧
    AleatoryVariable.domain T = Np.arange (lox * v) (hix * v + 1) ∧
    aligned T ∧
    nonneg_mass (AleatoryVariable.distribution T) ∧
    (0 < Np.sum (AleatoryVariable.distribution T))%Q.
Proof using HX HcX HXnn HXpos.
  intros Hv. pose proof (contiguous_nonempty X lox hix HX HcX) as Hne.
  pose proof length_Xdist as HlX.
  destruct HcX as [Hle Hdom]. unfold AleatoryVariable.pow.
  destruct (Z.eqb_spec v 0) as [->|Hv0].
  - eexists. split; [done|]. simpl. rewrite !Z.mul_0_r.
    split; [done|]. split; [done|]. split; [repeat constructor; lra|].
    reflexivity.
  - rewrite Hdom, index_arange_first, index_arange_last by done.
    rewrite !bind_Returns_l.
    destruct (conv_loop_spec Xdist (Np.arange 0 (Z.abs v - 1)) Xdist Hne Hne)
      as (d & Hrun & _ & Hlen & Hnn & Hpos & _).
    fold Xdist. rewrite Hrun, bind_Returns_l.
    destruct (Z.gtb_spec v 0); [|lia].
    rewrite (Z.abs_eq v) in * by lia.
    eexists. split; [done|]. simpl. split; [done|].
    split; [|split; [by apply Hnn | by apply Hpos]].
    unfold aligned. simpl. rewrite Hlen, HlX, !length_arange.
    apply Nat2Z.inj. rewrite Nat2Z.inj_add, Nat2Z.inj_mul, Nat2Z.inj_sub by lia.
    rewrite !Z2Nat.id by nia. nia.
Qed.

(** One contribution of [__mul__]: the lookup succeeds, the slice fits,
    and the total grows by a non-negative amount that is positive when
    the weight is. *)
Lemma mul_body_spec (acc : list Q) (o : nat) :
  o < length Ydist → length acc = length dom →
  ∃ acc' (w : Q), mul_body X Y dom acc o = Returns acc' ∧
    length acc' = length dom ∧ (0 < w)%Q ∧
    (Np.sum acc' == Np.sum acc + w * cell Ydist o)%Q.
Proof using HX HY HcX HcY HX0 HY0 HXnn HXpos.
  intros Ho Hacc. pose proof length_Ydist as HlY.
  pose proof HcX as [HleX _]. pose proof HcY as [HleY HdomY].
  set (v := (loy + Z.of_nat o)%Z).
  assert (Hv : AleatoryVariable.domain Y !! o = Some v).
  { rewrite HdomY. unfold Np.arange, v.
    rewrite lookup_seqZ_lt by lia. f_equal; lia. }
  assert (Hvr : (loy <= v <= hiy)%Z) by (unfold v; lia).
  clearbody v.
  assert (Hm1 : (lox * loy <= lox * v)%Z) by nia.
  assert (Hm2 : (lox * v <= hix * v)%Z) by nia.
  assert (Hm3 : (hix * v <= hix * hiy)%Z) by nia.
  destruct (pow_nonneg_spec v ltac:(lia)) as (T & HT & HTdom & HTal & HTnn & HTpos).
  unfold mul_body. fold Ydist. rewrite (item_Returns _ _ _ Hv), bind_Returns_l.
  rewrite HT, bind_Returns_l.
  rewrite (item_Returns _ _ _ (lookup_cell Ydist o Ho)), bind_Returns_l.
  rewrite HTdom, index_arange_first by lia. rewrite bind_Returns_l.
  unfold dom. rewrite where_first_arange by lia. rewrite bind_Returns_l.
  set (tmpd := map _ (AleatoryVariable.distribution T)).
  assert (Hl : AleatoryVariable.len T = length tmpd).
  { unfold tmpd, AleatoryVariable.len. rewrite length_map, <- HTal. done. }
  rewrite Hl.
  destruct (slice_iadd_spec acc (Z.to_nat (lox * v - lox * loy)) tmpd)
    as (acc' & Hrun & Hlen & Hsum & _).
  { rewrite Hacc, <- Hl. unfold AleatoryVariable.len, dom.
    rewrite HTdom, !length_arange. clear -Hm1 Hm2 Hm3. lia. }
  exists acc', (Np.sum (AleatoryVariable.distribution T)).
  split; [done|]. split; [by rewrite Hlen, Hacc|]. split; [done|].
  rewrite Hsum. unfold tmpd. rewrite sum_map_scale. reflexivity.
Qed.

Lemma mul_prefix_spec (k : nat) :
  k ≤ length Ydist →
  ∃ acc, for_in (seq 0 k) (mul_body X Y dom) (Np.zeros (Np.len dom)) = Returns acc ∧
    length acc = length dom ∧ (0 <= Np.sum acc)%Q ∧
    ((0 < Np.sum (take k Ydist))%Q → (0 < Np.sum acc)%Q).
Proof using HX HY HcX HcY HX0 HY0 HXnn HYnn HXpos.
  induction k as [|k IH]; intros Hk.
  - eexists. split; [done|].
    split; [rewrite length_zeros; unfold Np.len; lia|].
    rewrite sum_zeros, take_0, sum_nil. split; [lra | done].
  - destruct IH as (a1 & Hrun & Hlen & Hnn & Hpos); [lia|].
    destruct (mul_body_spec a1 k ltac:(lia) Hlen) as (a2 & w & Hb & Hl2 & HS & Hs2).
    exists a2. rewrite seq_S. simpl "+".
    rewrite (for_in_snoc _ _ _ _ _ Hrun). split; [done|]. split; [done|].
    pose proof (cell_nonneg Ydist k HYnn) as Hck.
    assert (HSc : (0 <= w * cell Ydist k)%Q) by (apply Qmult_le_0_compat; lra).
    split; [rewrite Hs2; lra|].
    rewrite (sum_take_S Ydist k _ (lookup_cell Ydist k ltac:(lia))).
    intros Htk. rewrite Hs2.
    assert (Ht0 : (0 <= Np.sum (take k Ydist))%Q)
      by (apply sum_nonneg, Forall_take, HYnn).
    destruct (Qlt_le_dec 0 (Np.sum (take k Ydist))) as [Hp|Hz].
    + specialize (Hpos Hp). lra.
    + assert (0 < cell Ydist k)%Q by lra.
      assert (0 < w * cell Ydist k)%Q by (by apply Qmult_lt_0_compat).
      lra.
Qed.
End mul_total.

(** [X * Y] returns under the conditions of the data model: aligned
    operands over contiguous domains of non-negative integers, no negative
    mass, positive totals. *)
Lemma mul_returns (X Y : AleatoryVariable.t) (lox hix loy hiy : Z) :
  aligned X → aligned Y →
  contiguous X lox hix → contiguous Y loy hiy →
  (0 <= lox)%Z → (0 <= loy)%Z →
  nonneg_mass (AleatoryVariable.distribution X) →
  nonneg_mass (AleatoryVariable.distribution Y) →
  (0 < Np.sum (AleatoryVariable.distribution X))%Q →
  (0 < Np.sum (AleatoryVariable.distribution Y))%Q →
  ∃ acc R,
    AleatoryVariable.mul_acc X Y (Np.arange (lox * loy) (hix * hiy + 1))
    = Returns acc ∧
    (0 < Np.sum acc)%Q ∧
    AleatoryVariable.mul X Y = Returns R ∧
    AleatoryVariable.domain R = Np.arange (lox * loy) (hix * hiy + 1) ∧
    aligned R ∧
    (Np.sum (AleatoryVariable.distribution R) == 1)%Q.
Proof.
  intros HX HY HcX HcY HX0 HY0 HXnn HYnn HXpos HYpos.
  pose proof HcX as [HleX HdX]. pose proof HcY as [HleY HdY].
  destruct (mul_prefix_spec X Y lox hix loy hiy HX HY HcX HcY HX0 HY0 HXnn HYnn
              HXpos (length (AleatoryVariable.distribution Y)) (Nat.le_refl _))
    as (acc & Hrun & Hlen & _ & Hpos).
  rewrite take_ge in Hpos by done. specialize (Hpos HYpos).
  assert (Hacc : AleatoryVariable.mul_acc X Y (Np.arange (lox * loy) (hix * hiy + 1))
                 = Returns acc).
  { unfold AleatoryVariable.mul_acc, Np.range, AleatoryVariable.len.
    rewrite <- HY. exact Hrun. }
  assert (Hnz : ¬ (Np.sum acc == 0)%Q) by lra.
  destruct (normalize_spec acc Hnz) as [Hnorm Hone].
  exists acc, (AleatoryVariable.mk (Np.arange (lox * loy) (hix * hiy + 1))
                 (map (λ x, (x / Np.sum acc)%Q) acc)).
  split; [done|]. split; [done|]. split.
  + unfold AleatoryVariable.mul, AleatoryVariable.mul_domain.
    rewrite HdX, HdY, !index_arange_first, !index_arange_last by done.
    rewrite !bind_Returns_l, Hacc, bind_Returns_l, Hnorm. done.
  + split; [done|]. split; [|done].
    unfold aligned. simpl. by rewrite length_map.
Qed.


(** ** Normalising a zero total *)

Lemma vdiv_zero_nonfinite (v : list Q) (s : Q) :
  (s == 0)%Q → Forall (λ c, c = NaN ∨ c = PInf ∨ c = NInf) (Np.vdiv v s).
Proof.
  intros Hs. unfold Np.vdiv. rewrite Forall_map. apply Forall_forall.
  intros x _. simpl. unfold Np.fdiv.
  rewrite (proj2 (Qeq_bool_iff s 0) Hs).
  destruct (x ?= 0)%Q; auto.
Qed.

(** C6, as the code has it.  The renormalisation at the end of [X * Y]
    raises nothing on a zero total: when the accumulated vector [acc] sums to
    zero, [X * Y] returns normally and every cell of the result is NaN or
    infinite (an empty [acc] stays empty).  At [Dice] construction the
    divisor of the pmf is the int64 total of the frequency vector: the
    assertion [times > 0 and die > 0] makes it strictly positive as long as
    [die ** times < 2 ** 63], and beyond that it wraps around, again without
    a guard: [Dice(64, 2)] passes the assertion, its total [2 ** 64] wraps
    to 0, and the pmf is returned with every one of its 65 cells
    infinite. *)
Theorem zero_total_not_guarded (X Y : AleatoryVariable.t) (dom : list Z)
    (acc : list Q) :
  AleatoryVariable.mul_domain X Y = Returns dom →
  AleatoryVariable.mul_acc X Y dom = Returns acc →
  (Np.sum acc == 0)%Q →
  (∀ e, AleatoryVariable.mul X Y ≠ Raises e) ∧
  (acc ≠ [] →
   AleatoryVariable.mul X Y = NonFinite (Np.vdiv acc (Np.sum acc)) ∧
   Forall (λ c, c = NaN ∨ c = PInf ∨ c = NInf) (Np.vdiv acc (Np.sum acc))) ∧
  (acc = [] → AleatoryVariable.mul X Y = Returns (AleatoryVariable.mk dom [])) ∧
  (∀ times die mod_ boons,
     (0 < times)%Z → (0 < die)%Z → (die ^ times < 2 ^ 63)%Z →
     ∃ arr vals d,
       Dice._distribution_values times die mod_ boons = Returns (arr, vals) ∧
       (0 < Np.total arr)%Q ∧
       Dice.init times die mod_ boons = Returns d) ∧
  (λ r, Np.total r.1) <$> Dice._distribution_values 64 2 0 0 = Returns 0%Q ∧
  Dice.init 64 2 0 0 = NonFinite (replicate 65 PInf).
Proof.
  intros Hdom Hacc Hsum.
  assert (Hm : AleatoryVariable.mul X Y
               = (distribution_ ← Np.normalize acc;
                  Returns (AleatoryVariable.mk dom distribution_))).
  { unfold AleatoryVariable.mul. by rewrite Hdom, bind_Returns_l, Hacc. }
  rewrite Hm. unfold Np.normalize.
  rewrite (proj2 (Qeq_bool_iff _ 0) Hsum).
  split; [|split; [|split; [|split; [|split]]]].
  - intros e. by destruct acc.
  - intros Hne. split; [by destruct acc|]. by apply vdiv_zero_nonfinite.
  - by intros ->.
  - intros times die mod_ boons Ht Hd Hb.
    destruct (dice_init_ok times die mod_ boons Ht Hd Hb)
      as (d & lo & hi & arr & Hdv & Hp & Hi & _).
    by exists arr, (Np.arange lo (hi + 1)), d.
  - vm_compute. reflexivity.
  - vm_compute. reflexivity.
Qed.

(** C6, as stated, fails: a variable without mass multiplied by a point mass
    accumulates the total 0, and [X * Y] raises nothing; it returns the
    vector [[NaN]]. *)
Lemma zero_total_mul_returns_nan :
  let X := AleatoryVariable.mk [1%Z] [0%Q] in
  let Y := AleatoryVariable.mk [1%Z] [1%Q] in
  AleatoryVariable.mul_acc X Y [1%Z] = Returns [0%Q] ∧
  AleatoryVariable.mul X Y = NonFinite [NaN] ∧
  ¬ ∃ e, AleatoryVariable.mul X Y = Raises e.
Proof.
  split; [by vm_compute|]. split; [by vm_compute|].
  intros [e He]. vm_compute in He. discriminate.
Qed.

(** ** The combat model *)

Lemma advance_round_inv (m m' : CombatModel.t) (ev : option RoundModel.t) :
  CombatModel.advance_round m ev = Returns m' →
  ∃ prev r,
    Np.index (CombatModel.rounds m) (CombatModel.round_number m) = Returns prev ∧
    next_round m (default RoundModel.empty ev) prev r ∧
    CombatModel.rounds m' = CombatModel.rounds m ++ [r] ∧
    CombatModel.round_number m' = (CombatModel.round_number m + 1)%Z ∧
    consts m' = consts m.
Proof.
  unfold CombatModel.advance_round. intros H.
  apply bind_Returns in H as (prev & Hprev & H).
  apply bind_Returns in H as (da & Hda & H).
  apply bind_Returns in H as (db & Hdb & H).
  apply bind_Returns in H as (ha & Hha & H).
  apply bind_Returns in H as (hb & Hhb & H).
  injection H as <-. exists prev. eexists.
  split; [done|]. split; [|done].
  exists da, db, ha, hb. done.
Qed.

Lemma index_last_cursor (m : CombatModel.t) (prev : RoundModel.t) :
  cursor_ok m →
  Np.index (CombatModel.rounds m) (CombatModel.round_number m) = Returns prev →
  CombatModel.rounds m !! (length (CombatModel.rounds m) - 1) = Some prev.
Proof.
  intros [Hc Hne]. unfold Np.index. rewrite Hc. unfold Np.len.
  destruct (CombatModel.rounds m) as [|x l] eqn:E; [done|].
  cbv zeta. simpl length.
  destruct (Z.ltb_spec (Z.of_nat (S (length l)) - 1) 0); [lia|].
  destruct (Z.ltb_spec (Z.of_nat (S (length l)) - 1) 0); [lia|].
  replace (Z.to_nat (Z.of_nat (S (length l)) - 1)) with (S (length l) - 1) by lia.
  destruct ((x :: l) !! (S (length l) - 1)); [|done]. by intros [= ->].
Qed.

(** The loop of [simulate], started from a state whose cursor is on the
    last round: one round state is appended per iteration, in order, each
    derived by [advance_round] from the round before it and the evidence
    under its own index. *)
Lemma simulate_loop_spec (evidence : gmap Z RoundModel.t) (l : list Z)
    (m m' : CombatModel.t) :
  cursor_ok m →
  for_in l (simulate_body evidence) m = Returns m' →
  cursor_ok m' ∧
  consts m' = consts m ∧
  (∃ new, CombatModel.rounds m' = CombatModel.rounds m ++ new ∧
          length new = length l) ∧
  ∀ j, j < length l →
    ∃ prev r,
      CombatModel.rounds m' !! (length (CombatModel.rounds m) + j - 1) = Some prev ∧
      CombatModel.rounds m' !! (length (CombatModel.rounds m) + j) = Some r ∧
      next_round m
        (default RoundModel.empty
           (evidence !! Z.of_nat (length (CombatModel.rounds m) + j)))
        prev r.
Proof.
  revert m. induction l as [|x l IH]; intros m Hc H.
  - injection H as <-. split; [done|]. split; [done|].
    split; [exists []; by rewrite app_nil_r|]. simpl. lia.
  - simpl in H. apply bind_Returns in H as (m1 & Hstep & H).
    unfold simulate_body in Hstep.
    apply advance_round_inv in Hstep as (prev & r & Hprev & Hnext & Hr & Hrn & Hk).
    pose proof (index_last_cursor m prev Hc Hprev) as Hlast.
    assert (Hne : 0 < length (CombatModel.rounds m)).
    { destruct Hc as [_ Hne]. destruct (CombatModel.rounds m); [done | simpl; lia]. }
    assert (Hc1 : cursor_ok m1).
    { destruct Hc as [Hc _]. split.
      - rewrite Hrn, Hc, Hr. unfold Np.len. rewrite length_app. simpl. lia.
      - rewrite Hr. by destruct (CombatModel.rounds m). }
    destruct (IH m1 Hc1 H) as (Hc' & Hk' & (new & Hnew & Hlen) & Hsteps).
    split; [done|]. split; [congruence|]. split.
    + exists (r :: new). rewrite Hnew, Hr, <- app_assoc. simpl.
      split; [done | by rewrite Hlen].
    + intros j Hj. destruct j as [|j].
      * exists prev, r. rewrite Hnew, Hr, <- app_assoc.
        rewrite Nat.add_0_r.
        split; [by rewrite lookup_app_l by lia|].
        split; [rewrite lookup_app_r, Nat.sub_diag by lia; done|].
        destruct Hc as [Hc _]. rewrite Hc in Hnext.
        replace (Np.len (CombatModel.rounds m) - 1 + 1)%Z
          with (Z.of_nat (length (CombatModel.rounds m))) in Hnext
          by (unfold Np.len; lia).
        exact Hnext.
      * simpl in Hj. destruct (Hsteps j ltac:(lia)) as (p & q & Hp & Hq & Hn).
        rewrite Hr, length_app in Hp, Hq, Hn. simpl in Hp, Hq, Hn.
        exists p, q.
        replace (length (CombatModel.rounds m) + S j - 1)
          with (length (CombatModel.rounds m) + 1 + j - 1) by lia.
        replace (length (CombatModel.rounds m) + S j)
          with (length (CombatModel.rounds m) + 1 + j) by lia.
        split; [done|]. split; [done|].
        unfold next_round in *. unfold consts in Hk.
        injection Hk as _ Ha Hb Hda Hdb. rewrite <- Ha, <- Hb, <- Hda, <- Hdb.
        exact Hn.
Qed.

Lemma from_exact_bounds_point (v lb ub : Z) (A : AleatoryVariable.t) :
  AleatoryVariable.from_exact v (Some (lb, ub)) = Returns A →
  point_mass A lb ub v.
Proof.
  simpl. intros H. apply bind_Returns in H as ([] & Hin & H).
  injection H as <-. unfold py_assert in Hin.
  case_bool_decide as H0; [|discriminate].
  unfold Np.arange in H0. apply elem_of_seqZ in H0.
  assert (Hal : length (zip_with (λ (d : Z) (x : Q), if (d =? v)%Z then 1%Q else x)
                    (Np.arange lb (ub + 1)) (Np.zeros (ub - lb + 1)))
                = length (Np.arange lb (ub + 1))).
  { rewrite length_zip_with, length_zeros, length_arange. lia. }
  split; [lia|]. split; [done|]. split; [exact Hal|]. simpl.
  intros i Hi. apply cell_lookup. rewrite lookup_zip_with.
  rewrite length_arange in Hi.
  unfold Np.arange. rewrite lookup_seqZ_lt by lia. simpl.
  unfold Np.zeros, Np.full. rewrite lookup_replicate_2 by lia. simpl.
  replace (Z.of_nat i + lb)%Z with (lb + Z.of_nat i)%Z by lia.
  destruct (Z.eqb_spec (lb + Z.of_nat i) v); by destruct (decide _).
Qed.

Lemma init_inv (a b : Character.t) (mr : Z) (m0 : CombatModel.t) :
  CombatModel.init a b mr = Returns m0 →
  ∃ hpa hpb,
    CombatModel.rounds m0
    = [RoundModel.mk (Some hpa) None None (Some hpb) None None] ∧
    point_mass hpa 0 (Character.health a + 1) (Character.health a) ∧
    point_mass hpb 0 (Character.health b + 1) (Character.health b) ∧
    CombatModel.round_number m0 = 0%Z ∧
    CombatModel.max_rounds m0 = mr.
Proof.
  unfold CombatModel.init. intros H.
  apply bind_Returns in H as (hpa & Ha & H).
  apply bind_Returns in H as (hpb & Hb & H).
  apply bind_Returns in H as (ah & _ & H).
  apply bind_Returns in H as (bh & _ & H).
  apply bind_Returns in H as (ah' & _ & H).
  apply bind_Returns in H as (bh' & _ & H).
  injection H as <-. exists hpa, hpb. simpl.
  split; [done|].
  split; [by apply from_exact_bounds_point|].
  split; [by apply from_exact_bounds_point|]. done.
Qed.

(** ** A run without evidence returns *)

Lemma rint_nonneg (q : Q) : (0 <= q)%Q → (0 <= Np.rint q)%Z.
Proof.
  intros Hq. unfold Np.rint.
  pose proof (Qfloor_resp_le 0 q Hq) as Hf. change (Qfloor 0) with 0%Z in Hf.
  destruct (_ ?= _)%Q; [destruct (Z.even _)| |]; lia.
Qed.

Lemma rint_ge_floor (q : Q) : (Qfloor q <= Np.rint q)%Z.
Proof.
  unfold Np.rint. destruct (_ ?= _)%Q; [destruct (Z.even _)| |]; lia.
Qed.

Lemma round2_nonneg (q : Q) : (0 <= q)%Q → (0 <= Np.round2 q)%Q.
Proof.
  intros Hq. unfold Np.round2.
  assert (H : (0 <= Np.rint (q * 100))%Z)
    by (apply rint_nonneg, Qmult_le_0_compat; [done | discriminate]).
  rewrite Zle_Qle in H. apply Qle_shift_div_l; [reflexivity|].
  rewrite Qmult_0_l. exact H.
Qed.

Lemma round2_half (q : Q) : (1 # 2 <= q)%Q → (1 # 2 <= Np.round2 q)%Q.
Proof.
  intros Hq. unfold Np.round2.
  assert (H : (50 <= Np.rint (q * 100))%Z).
  { pose proof (rint_ge_floor (q * 100)).
    assert (H50 : (inject_Z 50 <= q * 100)%Q) by (change (inject_Z 50) with 50%Q; lra).
    apply Qfloor_resp_le in H50. rewrite Qfloor_Z in H50. lia. }
  rewrite Zle_Qle in H. change (inject_Z 50) with 50%Q in H.
  apply Qle_shift_div_l; [reflexivity|]. lra.
Qed.

Lemma sum_take_drop (l : list Q) (k : nat) :
  (Np.sum l == Np.sum (take k l) + Np.sum (drop k l))%Q.
Proof. by rewrite <- sum_app, take_drop. Qed.

(** A cdf cell of a [Dice] is a probability. *)
Lemma cdf_cell_bounds (d : Dice.t) (lo hi : Z) (k : nat) (c : Q) :
  dice_ok d lo hi → Dice.cdf d !! k = Some c → (0 <= c <= 1)%Q.
Proof.
  intros (_ & _ & _ & Hcdf & Hnn & Hone) Hc. rewrite Hcdf in Hc.
  rewrite (cumsum_lookup _ _ _ Hc).
  assert (H1 : (0 <= Np.sum (take (S k) (Dice.pmf d)))%Q)
    by (apply sum_nonneg, Forall_take, Hnn).
  assert (H2 : (0 <= Np.sum (drop (S k) (Dice.pmf d)))%Q)
    by (apply sum_nonneg, Forall_drop, Hnn).
  pose proof (sum_take_drop (Dice.pmf d) (S k)). lra.
Qed.

(** One six-sided die: values 1 to 6, each with probability 1/6. *)
Example dice_1d6 :
  (λ d, (Dice.values d, map Qred (Dice.pmf d))) <$> Dice.init 1 6 0 0
  = Returns ([1; 2; 3; 4; 5; 6]%Z,
             [1 # 6; 1 # 6; 1 # 6; 1 # 6; 1 # 6; 1 # 6]%Q).
Proof. vm_compute. reflexivity. Qed.

(** Two six-sided dice: values 2 to 12, the peak 6/36 at value 7. *)
Example dice_2d6 :
  (λ d, (Dice.values d, map Qred (Dice.pmf d))) <$> Dice.init 2 6 0 0
  = Returns ([2; 3; 4; 5; 6; 7; 8; 9; 10; 11; 12]%Z,
             [1 # 36; 1 # 18; 1 # 12; 1 # 9; 5 # 36; 1 # 6; 5 # 36; 1 # 9;
              1 # 12; 1 # 18; 1 # 36]%Q).
Proof. vm_compute. reflexivity. Qed.

(** A d20 against a target of 15: 14 of the 20 faces fail. *)
Example d20_against_15 :
  (d ← Dice.init 1 20 0 0; Dice.prob_against d 15)
  = Returns [0.70; 0.30]%Q.
Proof. vm_compute. reflexivity. Qed.

(** [prob_against] returns for every [Dice] and target, in one of its
    three forms. *)
Lemma prob_against_returns (d : Dice.t) (lo hi target : Z) :
  dice_ok d lo hi →
  Dice.prob_against d target = Returns [0%Q; 1%Q] ∨
  Dice.prob_against d target = Returns [1%Q; 0%Q] ∨
  ∃ p, (0 <= p <= 1)%Q ∧
    Dice.prob_against d target = Returns [Np.round2 p; Np.round2 (1 - p)].
Proof.
  intros Hd. pose proof Hd as (Hle & Hv & Hlen & Hcdf & _ & _).
  unfold Dice.prob_against.
  rewrite Hv, index_arange_first, index_arange_last by done.
  rewrite !bind_Returns_l.
  destruct (Z.geb_spec lo target); [by left|].
  destruct (Z.ltb_spec hi target); [by right; left|].
  right. right.
  assert (Hk : Z.to_nat (target - lo - 1) < length (Dice.cdf d)).
  { rewrite Hcdf, length_cumsum, Hlen, Hv, length_arange. lia. }
  destruct (lookup_lt_is_Some_2 _ _ Hk) as [p Hp].
  exists p. split; [by eapply cdf_cell_bounds|].
  rewrite (index_nonneg _ _ p) by (done || lia). done.
Qed.

Lemma countable_pair (x y : Q) :
  (0 <= x)%Q → (0 <= y)%Q → (0 < x + y)%Q →
  countable (AleatoryVariable.mk (Np.arange 0 2) [x; y]).
Proof.
  intros Hx Hy Hxy. split; [done|]. split.
  - exists 0%Z, 1%Z. split; [|lia]. split; [lia | done].
  - split; [by repeat constructor|]. simpl.
    unfold Np.sum. simpl. lra.
Qed.

Lemma from_hit_countable (d : Dice.t) (lo hi target : Z) :
  dice_ok d lo hi →
  ∃ H, AleatoryVariable.from_hit d target = Returns H ∧ countable H.
Proof.
  intros Hd. unfold AleatoryVariable.from_hit.
  destruct (prob_against_returns d lo hi target Hd) as [H|[H|(p & Hp & H)]];
    rewrite H, bind_Returns_l; eexists; (split; [done|]).
  - apply countable_pair; lra.
  - apply countable_pair; lra.
  - assert (Hr : (0 <= Np.round2 p)%Q) by (apply round2_nonneg; lra).
    assert (Hr' : (0 <= Np.round2 (1 - p))%Q) by (apply round2_nonneg; lra).
    apply countable_pair; [done | done|].
    destruct (Qlt_le_dec p (1 # 2)).
    + pose proof (round2_half (1 - p)). lra.
    + pose proof (round2_half p). lra.
Qed.

Lemma pow_countable (H : AleatoryVariable.t) (n : Z) :
  countable H → (0 <= n)%Z →
  ∃ T, AleatoryVariable.pow H n = Returns T ∧ countable T.
Proof.
  intros (Hal & (lo & hi & Hc & Hlo) & Hnn & Hpos) Hn.
  destruct (pow_nonneg_spec H lo hi Hal Hc Hnn Hpos n Hn)
    as (T & HT & Hdom & HTal & HTnn & HTpos).
  exists T. split; [done|]. split; [done|]. split; [|done].
  exists (lo * n)%Z, (hi * n)%Z. destruct Hc as [Hle _].
  split; [|nia]. split; [nia | done].
Qed.

Lemma from_dice_countable (d : Dice.t) (lo hi : Z) :
  dice_ok d lo hi → (0 <= lo)%Z → countable (AleatoryVariable.from_dice d).
Proof.
  intros (Hle & Hv & Hlen & _ & Hnn & Hone) Hlo.
  split; [exact Hlen|]. split; [by exists lo, hi|].
  split; [done|]. simpl. rewrite Hone. reflexivity.
Qed.

Lemma mul_countable (X Y : AleatoryVariable.t) :
  countable X → countable Y →
  ∃ R, AleatoryVariable.mul X Y = Returns R ∧ aligned R.
Proof.
  intros (HX & (lox & hix & HcX & HX0) & HXnn & HXpos)
         (HY & (loy & hiy & HcY & HY0) & HYnn & HYpos).
  destruct (mul_returns X Y lox hix loy hiy) as (_ & R & _ & _ & HR & _ & Hal & _);
    try done.
  by exists R.
Qed.

Lemma init_returns (a b : Character.t) (mr : Z) :
  sane_character a → sane_character b →
  (0 <= Character.health a)%Z → (0 <= Character.health b)%Z →
  ∃ m0, CombatModel.init a b mr = Returns m0.
Proof.
  intros ((la & ha & Haa) & _ & Hna) ((lb & hb & Hba) & _ & Hnb) Hha Hhb.
  unfold CombatModel.init.
  assert (Hfe : ∀ h, (0 <= h)%Z →
            ∃ A, AleatoryVariable.from_exact h (Some (0, h + 1)%Z) = Returns A).
  { intros h Hh. simpl. unfold py_assert.
    rewrite bool_decide_eq_true_2; [by eexists|].
    unfold Np.arange. apply elem_of_seqZ. lia. }
  destruct (Hfe _ Hha) as [A EA]. destruct (Hfe _ Hhb) as [B EB].
  rewrite EA, EB, !bind_Returns_l.
  destruct (from_hit_countable _ la ha (Character.defense b) Haa) as (Ha & E1 & Hca).
  destruct (from_hit_countable _ lb hb (Character.defense a) Hba) as (Hb & E2 & Hcb).
  rewrite E1, E2, !bind_Returns_l.
  destruct (pow_countable Ha _ Hca Hna) as (Ta & E3 & _).
  destruct (pow_countable Hb _ Hcb Hnb) as (Tb & E4 & _).
  rewrite E3, E4, !bind_Returns_l. by eexists.
Qed.

Lemma init_runnable (a b : Character.t) (mr : Z) (m0 : CombatModel.t) :
  sane_character a → sane_character b →
  CombatModel.init a b mr = Returns m0 → runnable m0.
Proof.
  intros ((la & ha & Haa) & (lda & hda & Hda & Hda0) & Hna)
         ((lb & hb & Hba) & (ldb & hdb & Hdb & Hdb0) & Hnb) Hinit.
  destruct (init_inv a b mr m0 Hinit) as (hpa & hpb & Hr0 & Hpa & Hpb & Hrn & _).
  unfold CombatModel.init in Hinit.
  apply bind_Returns in Hinit as (A & _ & Hinit).
  apply bind_Returns in Hinit as (B & _ & Hinit).
  apply bind_Returns in Hinit as (Ha & HHa & Hinit).
  apply bind_Returns in Hinit as (Hb & HHb & Hinit).
  apply bind_Returns in Hinit as (Ta & HTa & Hinit).
  apply bind_Returns in Hinit as (Tb & HTb & Hinit).
  injection Hinit as <-. simpl in *.
  destruct (from_hit_countable _ la ha (Character.defense b) Haa) as (Ha' & E & Hca).
  rewrite E in HHa. injection HHa as ->.
  destruct (from_hit_countable _ lb hb (Character.defense a) Hba) as (Hb' & E' & Hcb).
  rewrite E' in HHb. injection HHb as ->.
  destruct (pow_countable Ha _ Hca Hna) as (Ta' & E2 & HcTa).
  rewrite E2 in HTa. injection HTa as ->.
  destruct (pow_countable Hb _ Hcb Hnb) as (Tb' & E3 & HcTb).
  rewrite E3 in HTb. injection HTb as ->.
  split; [split; done|]. split.
  - injection Hr0 as -> ->. eexists _, hpa, hpb. split; [done|].
    split; [done|]. split; [done|].
    destruct Hpa as (_ & _ & Hala & _). destruct Hpb as (_ & _ & Halb & _). done.
  - split; [done|]. split; [done|].
    split; by eapply from_dice_countable.
Qed.

Lemma hp_minus_aligned (hp d : AleatoryVariable.t) :
  aligned hp → aligned d →
  ∃ R, CombatModel.hp_minus (Some hp) d = Returns R ∧ aligned R.
Proof.
  intros Hhp Hd. destruct (sub_spec hp d Hhp Hd) as (R & HR & Hdom & Hlen & _).
  exists R. split; [done|]. unfold aligned. by rewrite Hlen, Hdom.
Qed.

Lemma advance_round_runnable (m : CombatModel.t) :
  runnable m →
  ∃ m', CombatModel.advance_round m None = Returns m' ∧ runnable m'.
Proof.
  intros (Hc & (r & hpa & hpb & Hlast & Hra & Hrb & Hala & Halb)
          & Hah & Hbh & Hda & Hdb).
  unfold CombatModel.advance_round.
  assert (Hprev : Np.index (CombatModel.rounds m) (CombatModel.round_number m)
                  = Returns r).
  { destruct Hc as [Hc Hne]. rewrite Hc. unfold Np.len.
    rewrite last_lookup in Hlast.
    assert (0 < length (CombatModel.rounds m))
      by (destruct (CombatModel.rounds m); [done | simpl; lia]).
    apply index_nonneg; [lia|].
    replace (Z.to_nat (Z.of_nat (length (CombatModel.rounds m)) - 1))
      with (pred (length (CombatModel.rounds m))) by lia.
    done. }
  rewrite Hprev, bind_Returns_l. simpl default.
  change (RoundModel.get RoundModel.empty _ ?x) with x.
  destruct (mul_countable _ _ Hda Hah) as (da & E1 & Hala').
  destruct (mul_countable _ _ Hdb Hbh) as (db & E2 & Halb').
  rewrite E1, E2, !bind_Returns_l, Hra, Hrb.
  destruct (hp_minus_aligned hpa db Hala Halb') as (ha & E3 & Hha).
  destruct (hp_minus_aligned hpb da Halb Hala') as (hb & E4 & Hhb).
  rewrite E3, E4, !bind_Returns_l. eexists. split; [done|].
  split; [|split; [|done]].
  - destruct Hc as [Hc Hne]. split; simpl.
    + rewrite Hc. unfold Np.len. rewrite length_app. simpl. lia.
    + by destruct (CombatModel.rounds m).
  - simpl. eexists _, ha, hb. rewrite last_snoc. done.
Qed.

(** Without evidence, [simulate] returns from every runnable state. *)
Lemma simulate_returns (m : CombatModel.t) :
  runnable m → ∃ m', CombatModel.simulate m None = Returns m'.
Proof.
  intros Hm. unfold CombatModel.simulate. simpl default.
  destruct (for_in_invariant runnable (Np.arange 1 (CombatModel.max_rounds m))
              (λ self _, CombatModel.advance_round self
                           ((∅ : gmap Z RoundModel.t) !! (CombatModel.round_number self + 1)%Z))
              m Hm) as (m' & Hrun & _).
  - intros s x _ Hs. rewrite lookup_empty. by apply advance_round_runnable.
  - by exists m'.
Qed.

(** C8. After [CombatModel(a, b, max_rounds)] with [max_rounds >= 1]:
    round 0 holds the two health variables, point masses of probability 1 at
    the starting health over the domain [0..health + 1].  Whenever
    [simulate(evidence)] returns, the history is the history of the
    construction followed by [max_rounds - 1] appended round states, so it
    holds exactly [max_rounds] states; the round [t], for [t] from 1 to
    [max_rounds - 1], is the state that [advance_round] derives from round
    [t - 1] and the evidence record under the key [t]; the cursor ends on the
    last round and no other field of the model changes.  Without evidence,
    [simulate] does return for characters whose dice satisfy the [Dice]
    invariant, whose damage is not negative and whose number of attacks is
    not negative. *)
Theorem simulate_history (a b : Character.t) (mr : Z)
    (ev : option (gmap Z RoundModel.t)) (m0 : CombatModel.t) :
  (1 <= mr)%Z →
  CombatModel.init a b mr = Returns m0 →
  (∃ hpa hpb,
     CombatModel.rounds m0
     = [RoundModel.mk (Some hpa) None None (Some hpb) None None] ∧
     point_mass hpa 0 (Character.health a + 1) (Character.health a) ∧
     point_mass hpb 0 (Character.health b + 1) (Character.health b)) ∧
  (∀ m', CombatModel.simulate m0 ev = Returns m' →
     Np.len (CombatModel.rounds m') = mr ∧
     (∃ new, CombatModel.rounds m' = CombatModel.rounds m0 ++ new ∧
             Np.len new = (mr - 1)%Z) ∧
     consts m' = consts m0 ∧
     CombatModel.round_number m' = (mr - 1)%Z ∧
     ∀ t, (1 <= t < mr)%Z →
       ∃ prev r,
         CombatModel.rounds m' !! Z.to_nat (t - 1) = Some prev ∧
         CombatModel.rounds m' !! Z.to_nat t = Some r ∧
         next_round m0 (default RoundModel.empty (default ∅ ev !! t)) prev r) ∧
  (sane_character a → sane_character b →
   ∃ m', CombatModel.simulate m0 None = Returns m').
Proof.
  intros Hmr Hinit.
  destruct (init_inv a b mr m0 Hinit) as (hpa & hpb & Hr0 & Hpa & Hpb & Hrn & Hm).
  assert (Hc : cursor_ok m0).
  { split; [by rewrite Hrn, Hr0 | by rewrite Hr0]. }
  split; [by exists hpa, hpb|]. split.
  - intros m' Hsim.
    unfold CombatModel.simulate in Hsim. rewrite Hm in Hsim.
    change (for_in (Np.arange 1 mr) (simulate_body (default ∅ ev)) m0 = Returns m')
      in Hsim.
    destruct (simulate_loop_spec _ _ _ _ Hc Hsim)
      as (Hc' & Hk & (new & Hnew & Hlen) & Hsteps).
    rewrite length_arange in Hlen, Hsteps. rewrite Hr0 in Hsteps. simpl in Hsteps.
    split; [rewrite Hnew, Hr0; unfold Np.len; rewrite length_app; simpl; lia|].
    split; [exists new; split; [done | unfold Np.len; lia]|].
    split; [done|]. split.
    + destruct Hc' as [-> _]. rewrite Hnew, Hr0. unfold Np.len.
      rewrite length_app. simpl. lia.
    + intros t Ht.
      destruct (Hsteps (Z.to_nat (t - 1)) ltac:(lia)) as (p & r & Hp & Hq & Hn).
      exists p, r.
      replace (Z.to_nat (t - 1) - 0) with (Z.to_nat (t - 1)) in Hp by lia.
      replace (S (Z.to_nat (t - 1))) with (Z.to_nat t) in Hq, Hn by lia.
      rewrite Z2Nat.id in Hn by lia. done.
  - intros Ha Hb. apply simulate_returns.
    exact (init_runnable a b mr m0 Ha Hb Hinit).
Qed.

(** ** Subtracting an exact damage *)

Lemma bigsum_upto (f : nat → Q) (n c : nat) :
  (bigsum (λ s, if decide (s ≤ c) then f s else 0%Q) n
   == bigsum f (n `min` S c))%Q.
Proof.
  induction n as [|n IH]; [reflexivity|]. simpl bigsum at 1. rewrite IH.
  destruct (decide (n ≤ c)) as [Hn|Hn].
  - replace (S n `min` S c) with (S (n `min` S c)) by lia.
    replace (n `min` S c) with n by lia. reflexivity.
  - replace (S n `min` S c) with (n `min` S c) by lia. ring.
Qed.

Lemma clampi_shift (n s c : nat) :
  s < n → clampi n (Z.of_nat s - Z.of_nat c) = s - c.
Proof.
  intros Hs. unfold clampi.
  destruct (Z.ltb_spec (Z.of_nat s - Z.of_nat c) 0); [lia|].
  destruct (Z.geb_spec (Z.of_nat s - Z.of_nat c) (Z.of_nat n)); lia.
Qed.

(** [X - c] for an exact value [c >= 0]: every cell moves down by [c]
    positions, the lowest bin gathers the cells [0..c], and nothing reaches
    the bins whose source would lie above the domain. *)
Lemma sub_exact_shift (X : AleatoryVariable.t) (c : nat) :
  aligned X →
  ∃ R, AleatoryVariable.sub X (AleatoryVariable.mk [Z.of_nat c] [1%Q]) = Returns R ∧
    AleatoryVariable.domain R = AleatoryVariable.domain X ∧
    aligned R ∧
    (0 < AleatoryVariable.len X →
     (cell (AleatoryVariable.distribution R) 0
      == Np.sum (take (S c) (AleatoryVariable.distribution X)))%Q) ∧
    (∀ i, 0 < i → i + c < AleatoryVariable.len X →
       (cell (AleatoryVariable.distribution R) i
        == cell (AleatoryVariable.distribution X) (i + c))%Q) ∧
    (∀ i, 0 < i → AleatoryVariable.len X ≤ i + c →
       (cell (AleatoryVariable.distribution R) i == 0)%Q).
Proof.
  intros HX. set (Y := AleatoryVariable.mk [Z.of_nat c] [1%Q]).
  assert (HY : aligned Y) by done.
  destruct (sub_spec X Y HX HY) as (R & HR & Hdom & Hlen & _ & Hcell).
  set (n := AleatoryVariable.len X) in *.
  set (Xd := AleatoryVariable.distribution X) in *.
  assert (Hrow : ∀ i s, s < n →
    (bigsum (joint X Y i s) 1 == if decide ((s - c)%nat = i) then cell Xd s else 0)%Q).
  { intros i s Hs. simpl. unfold joint. simpl.
    change (zcell [Z.of_nat c] 0) with (Z.of_nat c).
    change (cell [1%Q] 0) with 1%Q. fold n Xd.
    rewrite (clampi_shift n s c Hs). destruct (decide _); ring. }
  assert (Hcells : ∀ i,
    (cell (AleatoryVariable.distribution R) i
     == bigsum (λ s, if decide ((s - c)%nat = i) then cell Xd s else 0%Q) n)%Q).
  { intros i. rewrite Hcell. simpl length. apply bigsum_ext.
    intros s Hs. by apply Hrow. }
  exists R. split; [done|]. split; [done|].
  split; [unfold aligned; rewrite Hlen, Hdom; done|].
  split; [|split].
  - intros Hn. rewrite Hcells.
    rewrite (bigsum_ext _ (λ s, if decide (s ≤ c) then cell Xd s else 0%Q)).
    + rewrite (bigsum_upto (cell Xd)).
      assert (HlX : length Xd = n) by (unfold Xd; rewrite HX; done).
      destruct (decide (S c ≤ n)).
      * replace (n `min` S c) with (S c) by lia. apply bigsum_take. lia.
      * replace (n `min` S c) with n by lia.
        rewrite (take_ge Xd (S c)) by lia. rewrite <- HlX. apply bigsum_cells.
    + intros s _. destruct (decide (s - c = 0)), (decide (s ≤ c)); (reflexivity || lia).
  - intros i Hi Hic. rewrite Hcells, (bigsum_single _ n (i + c) Hic).
    + rewrite decide_True by lia. reflexivity.
    + intros s _ Hs. rewrite decide_False by lia. reflexivity.
  - intros i Hi Hic. rewrite Hcells. apply bigsum_zero.
    intros s Hs. rewrite decide_False by lia. reflexivity.
Qed.

(** C7, as the code has it.  When the evidence of round 2 fixes [a_damage]
    to the point mass at 6 and leaves [b_hp] open, and the [b_hp] of round 1
    is aligned, the [b_hp] of round 2 has the domain of the [b_hp] of
    round 1; the lowest bin holds the mass that round 1 had in the bins
    0 to 6; every bin [i >= 1] with [i + 6] inside the domain holds the mass
    of the bin [i + 6] of round 1; every bin [i >= 1] with [i + 6] beyond the
    domain, that is each of the top six bins other than the lowest one,
    is zero. *)
Theorem exact_damage_shifts_health (a b : Character.t) (mr : Z)
    (ev : gmap Z RoundModel.t) (e2 : RoundModel.t)
    (m0 m' : CombatModel.t) (r1 : RoundModel.t) (hp1 : AleatoryVariable.t) :
  (3 <= mr)%Z →
  CombatModel.init a b mr = Returns m0 →
  CombatModel.simulate m0 (Some ev) = Returns m' →
  ev !! 2%Z = Some e2 →
  RoundModel.a_damage e2 = Some (AleatoryVariable.mk [6%Z] [1%Q]) →
  RoundModel.b_hp e2 = None →
  CombatModel.rounds m' !! 1 = Some r1 →
  RoundModel.b_hp r1 = Some hp1 →
  aligned hp1 →
  ∃ r2 hp2,
    CombatModel.rounds m' !! 2 = Some r2 ∧
    RoundModel.b_hp r2 = Some hp2 ∧
    AleatoryVariable.domain hp2 = AleatoryVariable.domain hp1 ∧
    aligned hp2 ∧
    (0 < AleatoryVariable.len hp1 →
     (cell (AleatoryVariable.distribution hp2) 0
      == Np.sum (take 7 (AleatoryVariable.distribution hp1)))%Q) ∧
    (∀ i, 0 < i → i + 6 < AleatoryVariable.len hp1 →
       (cell (AleatoryVariable.distribution hp2) i
        == cell (AleatoryVariable.distribution hp1) (i + 6))%Q) ∧
    (∀ i, 0 < i → AleatoryVariable.len hp1 ≤ i + 6 →
       (cell (AleatoryVariable.distribution hp2) i == 0)%Q).
Proof.
  intros Hmr Hinit Hsim He2 Hdmg Hnohp Hr1 Hhp1 Hal.
  destruct (init_inv a b mr m0 Hinit) as (hpa & hpb & Hr0 & _ & _ & Hrn & Hm).
  assert (Hc : cursor_ok m0).
  { split; [by rewrite Hrn, Hr0 | by rewrite Hr0]. }
  unfold CombatModel.simulate in Hsim. rewrite Hm in Hsim.
  change (for_in (Np.arange 1 mr) (simulate_body ev) m0 = Returns m') in Hsim.
  destruct (simulate_loop_spec _ _ _ _ Hc Hsim) as (_ & _ & _ & Hsteps).
  rewrite length_arange, Hr0 in Hsteps. simpl in Hsteps.
  destruct (Hsteps 1 ltac:(lia)) as (p & r2 & Hp & Hq & Hn).
  simpl in Hp, Hq, Hn. rewrite Hr1 in Hp. injection Hp as <-.
  change (Z.of_nat 2) with 2%Z in Hn. rewrite He2 in Hn. simpl in Hn.
  destruct Hn as (da & db & ha & hb & _ & _ & _ & Hhb & ->).
  unfold RoundModel.get in Hhb at 1. rewrite Hdmg, Hhp1 in Hhb. simpl in Hhb.
  destruct (sub_exact_shift hp1 6 Hal) as (R & HR & Hdom & HalR & H0 & Hin & Hout).
  change (Z.of_nat 6) with 6%Z in HR. rewrite HR in Hhb. injection Hhb as <-.
  exists (RoundModel.mk (Some (RoundModel.get e2 RoundModel.a_hp ha))
            (Some (RoundModel.get e2 RoundModel.a_hits (CombatModel.a_hits m0)))
            (Some (RoundModel.get e2 RoundModel.a_damage da))
            (Some (RoundModel.get e2 RoundModel.b_hp R))
            (Some (RoundModel.get e2 RoundModel.b_hits (CombatModel.b_hits m0)))
            (Some (RoundModel.get e2 RoundModel.b_damage db))), R.
  split; [done|]. split; [simpl; unfold RoundModel.get; by rewrite Hnohp|].
  done.
Qed.

(** C7, as stated, fails on a short domain.  With a starting health of 4
    the health domain [0..5] has six bins; after the exact damage of 6 the
    whole mass of round 1 sits in the lowest bin, which is one of the top
    six bins: they are not all zero. *)
Lemma exact_damage_top_six_not_zero :
  ∃ m' r2 hp2,
    duel_run 4 = Returns m' ∧
    CombatModel.rounds m' !! 2 = Some r2 ∧
    RoundModel.a_damage r2 = Some six ∧
    RoundModel.b_hp r2 = Some hp2 ∧
    AleatoryVariable.domain hp2 = [0; 1; 2; 3; 4; 5]%Z ∧
    (cell (AleatoryVariable.distribution hp2) 0 == 1)%Q ∧
    ¬ top_six_zero (AleatoryVariable.distribution hp2).
Proof.
  exists duel_4_final. eexists _, _.
  split; [vm_compute; reflexivity|].
  split; [vm_compute; reflexivity|].
  split; [vm_compute; reflexivity|].
  split; [vm_compute; reflexivity|].
  split; [vm_compute; reflexivity|].
  split; [vm_compute; reflexivity|].
  intros Htop. specialize (Htop 0).
  assert (H : (Z.of_nat 6 - 6 <= Z.of_nat 0 < Z.of_nat 6)%Z) by (simpl; lia).
  specialize (Htop H). vm_compute in Htop. discriminate Htop.
Qed.

(** ** The statements at concrete operands *)

Lemma sub_add_preserve_mass_witness :
  aligned ex_X ∧ aligned ex_Y ∧
  ∃ R S, AleatoryVariable.sub ex_X ex_Y = Returns R ∧
    AleatoryVariable.add ex_X ex_Y = Returns S ∧
    (Np.sum (AleatoryVariable.distribution R) == 1)%Q ∧
    (Np.sum (AleatoryVariable.distribution S) == 1)%Q.
Proof.
  split; [reflexivity|]. split; [reflexivity|].
  destruct (sub_add_preserve_mass ex_X ex_Y eq_refl eq_refl)
    as (R & S & HR & HS & _ & _ & _ & _ & H1).
  exists R, S. split; [exact HR|]. split; [exact HS|].
  apply H1; reflexivity.
Defined.

Lemma sub_keeps_domain_witness :
  aligned ex_X ∧ aligned ex_Y ∧
  ∃ R, AleatoryVariable.sub ex_X ex_Y = Returns R ∧
    AleatoryVariable.domain R = AleatoryVariable.domain ex_X ∧
    AleatoryVariable.len R = AleatoryVariable.len ex_X ∧
    length (AleatoryVariable.distribution R) = AleatoryVariable.len ex_X.
Proof.
  split; [reflexivity|]. split; [reflexivity|].
  apply (sub_keeps_domain ex_X ex_Y); reflexivity.
Defined.

Lemma pow_one_zero_mirror_witness :
  aligned ex_X ∧ contiguous ex_X 0 2 ∧ (0 < 3)%Z ∧
  AleatoryVariable.pow ex_X 1 = Returns ex_X ∧
  AleatoryVariable.pow ex_X 0 = Returns (AleatoryVariable.mk [0%Z] [1%Q]) ∧
  ∃ R, AleatoryVariable.pow ex_X 3 = Returns R ∧
    AleatoryVariable.domain R = Np.arange (0 * 3) (2 * 3 + 1) ∧
    AleatoryVariable.pow ex_X (- 3)
    = Returns (AleatoryVariable.mk
                 (reverse (map Z.opp (AleatoryVariable.domain R)))
                 (reverse (AleatoryVariable.distribution R))).
Proof.
  assert (Hc : contiguous ex_X 0 2) by (split; [lia | reflexivity]).
  split; [reflexivity|]. split; [exact Hc|]. split; [lia|].
  apply (pow_one_zero_mirror ex_X 0 2 3); [reflexivity | exact Hc | lia].
Defined.

Lemma add_point_mass_zero_witness :
  aligned ex_X ∧
  AleatoryVariable.from_exact 0 (Some (-2, 2)%Z) = Returns ex_P ∧
  ∃ R, AleatoryVariable.add ex_X ex_P = Returns R ∧
    AleatoryVariable.domain R = AleatoryVariable.domain ex_X ∧
    Forall2 Qeq (AleatoryVariable.distribution R)
      (AleatoryVariable.distribution ex_X).
Proof.
  split; [reflexivity|]. split; [reflexivity|].
  apply (add_point_mass_zero ex_X ex_P (Some (-2, 2)%Z)); reflexivity.
Defined.

Lemma ex_d4_ok : dice_ok ex_d4 1 4.
Proof.
  split; [lia|]. split; [reflexivity|]. split; [reflexivity|].
  split; [reflexivity|]. split; [|reflexivity].
  repeat constructor; discriminate.
Defined.

Lemma ex_d2_ok : dice_ok ex_d2 1 2.
Proof.
  split; [lia|]. split; [reflexivity|]. split; [reflexivity|].
  split; [reflexivity|]. split; [|reflexivity].
  repeat constructor; discriminate.
Defined.

Lemma prob_against_cases_witness :
  dice_ok ex_d4 1 4 ∧
  Dice.prob_against ex_d4 1 = Returns [0%Q; 1%Q] ∧
  Dice.prob_against ex_d4 5 = Returns [1%Q; 0%Q] ∧
  ∃ pFail, Dice.cdf ex_d4 !! Z.to_nat (3 - 1 - 1) = Some pFail ∧
    (pFail == Np.sum (take (Z.to_nat (3 - 1)) (Dice.pmf ex_d4)))%Q ∧
    Dice.prob_against ex_d4 3
    = Returns [Np.round2 pFail; Np.round2 (1 - pFail)].
Proof.
  split; [exact ex_d4_ok|].
  split; [apply (prob_against_cases ex_d4 1 4 1 ex_d4_ok); lia|].
  split; [apply (prob_against_cases ex_d4 1 4 5 ex_d4_ok); lia|].
  apply (prob_against_cases ex_d4 1 4 3 ex_d4_ok); lia.
Defined.

Lemma zero_total_not_guarded_witness :
  AleatoryVariable.mul_domain ex_empty_mass ex_one = Returns [1%Z] ∧
  AleatoryVariable.mul_acc ex_empty_mass ex_one [1%Z] = Returns [0%Q] ∧
  (Np.sum [0%Q] == 0)%Q ∧
  AleatoryVariable.mul ex_empty_mass ex_one
  = NonFinite (Np.vdiv [0%Q] (Np.sum [0%Q])).
Proof.
  split; [reflexivity|]. split; [reflexivity|]. split; [reflexivity|].
  apply (zero_total_not_guarded ex_empty_mass ex_one [1%Z] [0%Q]);
    (reflexivity || discriminate).
Defined.


Lemma combine_equal_weight_witness :
  [ex_d4; ex_d2] ≠ [] ∧
  Forall (λ d, ∃ lo hi, dice_ok d lo hi) [ex_d4; ex_d2] ∧
  ∃ tot L U, Dice.combine [ex_d4; ex_d2] = Returns tot ∧ dice_ok tot L U ∧
    ∀ v, (L <= v <= U)%Z →
      (pmf_at tot v
       == (1 / inject_Z (Z.of_nat 2)) * (pmf_at ex_d4 v + pmf_at ex_d2 v))%Q.
Proof.
  assert (Hok : Forall (λ d, ∃ lo hi, dice_ok d lo hi) [ex_d4; ex_d2]).
  { repeat constructor; [exists 1%Z, 4%Z; exact ex_d4_ok
                        | exists 1%Z, 2%Z; exact ex_d2_ok]. }
  split; [discriminate|]. split; [exact Hok|].
  destruct (combine_equal_weight [ex_d4; ex_d2] ltac:(discriminate) Hok)
    as (tot & L & U & Hc & Hd & _ & _ & Hp).
  exists tot, L, U. split; [exact Hc|]. split; [exact Hd|].
  intros v Hv. rewrite (Hp v Hv). simpl map.
  rewrite !sum_cons, sum_nil. simpl length. ring.
Defined.

Lemma duel_8_sane :
  sane_character duel_8_characters.1 ∧ sane_character duel_8_characters.2.
Proof.
  assert (H4 : dice_ok (Character.attack_dice duel_8_characters.1) 1 4).
  { split; [lia|]. split; [reflexivity|]. split; [reflexivity|].
    split; [reflexivity|]. split; [|reflexivity].
    repeat constructor; discriminate. }
  assert (H2 : dice_ok (Character.damage_dice duel_8_characters.1) 1 2).
  { split; [lia|]. split; [reflexivity|]. split; [reflexivity|].
    split; [reflexivity|]. split; [|reflexivity].
    repeat constructor; discriminate. }
  split; (split; [by exists 1%Z, 4%Z|]);
    (split; [exists 1%Z, 2%Z; split; [exact H2 | lia] | simpl; lia]).
Defined.

Lemma simulate_history_witness :
  (1 <= 3)%Z ∧
  CombatModel.init duel_8_characters.1 duel_8_characters.2 3
  = Returns duel_8_start ∧
  Np.len (CombatModel.rounds duel_8_final) = 3%Z ∧
  CombatModel.round_number duel_8_final = 2%Z ∧
  ∃ m', CombatModel.simulate duel_8_start None = Returns m'.
Proof.
  assert (Hi : CombatModel.init duel_8_characters.1 duel_8_characters.2 3
               = Returns duel_8_start) by (vm_compute; reflexivity).
  assert (Hs : CombatModel.simulate duel_8_start (Some evidence_six)
               = Returns duel_8_final) by (vm_compute; reflexivity).
  split; [lia|]. split; [exact Hi|].
  destruct (simulate_history _ _ 3 (Some evidence_six) _ ltac:(lia) Hi)
    as (_ & Hrun & Htot).
  destruct (Hrun _ Hs) as (Hlen & _ & _ & Hrn & _).
  split; [exact Hlen|]. split; [exact Hrn|].
  exact (Htot (proj1 duel_8_sane) (proj2 duel_8_sane)).
Defined.

Lemma exact_damage_shifts_health_witness :
  (3 <= 3)%Z ∧
  CombatModel.init duel_8_characters.1 duel_8_characters.2 3
  = Returns duel_8_start ∧
  CombatModel.simulate duel_8_start (Some evidence_six) = Returns duel_8_final ∧
  evidence_six !! 2%Z
  = Some (RoundModel.mk None None (Some six) None None None) ∧
  CombatModel.rounds duel_8_final !! 1 = Some duel_8_round1 ∧
  RoundModel.b_hp duel_8_round1 = Some duel_8_b_hp1 ∧
  aligned duel_8_b_hp1 ∧
  ∃ r2 hp2,
    CombatModel.rounds duel_8_final !! 2 = Some r2 ∧
    RoundModel.b_hp r2 = Some hp2 ∧
    AleatoryVariable.domain hp2 = AleatoryVariable.domain duel_8_b_hp1 ∧
    (cell (AleatoryVariable.distribution hp2) 2
     == cell (AleatoryVariable.distribution duel_8_b_hp1) 8)%Q ∧
    (cell (AleatoryVariable.distribution hp2) 4 == 0)%Q.
Proof.
  assert (Hi : CombatModel.init duel_8_characters.1 duel_8_characters.2 3
               = Returns duel_8_start) by (vm_compute; reflexivity).
  assert (Hs : CombatModel.simulate duel_8_start (Some evidence_six)
               = Returns duel_8_final) by (vm_compute; reflexivity).
  assert (He : evidence_six !! 2%Z
               = Some (RoundModel.mk None None (Some six) None None None))
    by (vm_compute; reflexivity).
  assert (H1 : CombatModel.rounds duel_8_final !! 1 = Some duel_8_round1)
    by (vm_compute; reflexivity).
  assert (H2 : RoundModel.b_hp duel_8_round1 = Some duel_8_b_hp1)
    by (vm_compute; reflexivity).
  assert (Ha : aligned duel_8_b_hp1) by (vm_compute; reflexivity).
  split; [lia|]. split; [exact Hi|]. split; [exact Hs|]. split; [exact He|].
  split; [exact H1|]. split; [exact H2|]. split; [exact Ha|].
  destruct (exact_damage_shifts_health _ _ 3 _ _ _ _ _ _ ltac:(lia) Hi Hs He
              eq_refl eq_refl H1 H2 Ha)
    as (r2 & hp2 & Hr2 & Hhp2 & Hdom & _ & _ & Hin & Hout).
  exists r2, hp2. split; [exact Hr2|]. split; [exact Hhp2|].
  split; [exact Hdom|].
  split; [apply (Hin 2); vm_compute; lia | apply (Hout 4); vm_compute; lia].
Defined.

(** * Further properties of the code *)

(** ** Rounding to the nearest integer *)

Lemma Qfloor_unique (x : Q) (z : Z) :
  (inject_Z z <= x)%Q → (x < inject_Z (z + 1))%Q → Qfloor x = z.
Proof.
  intros H1 H2.
  pose proof (Qfloor_le x) as H3. pose proof (Qlt_floor x) as H4.
  assert (Ha : (inject_Z z < inject_Z (Qfloor x + 1))%Q) by lra.
  assert (Hb : (inject_Z (Qfloor x) < inject_Z (z + 1))%Q) by lra.
  rewrite <- Zlt_Qlt in Ha, Hb. lia.
Qed.

Lemma rint_comp (q q' : Q) : (q == q')%Q → Np.rint q = Np.rint q'.
Proof.
  intros H. unfold Np.rint. rewrite (Qfloor_comp _ _ H).
  assert (Hc : (q - inject_Z (Qfloor q') ?= 1 # 2)%Q
               = (q' - inject_Z (Qfloor q') ?= 1 # 2)%Q)
    by (by rewrite H).
  by rewrite Hc.
Qed.

(** Pushes [inject_Z] through sums and differences of the goal. *)
Ltac push_inject :=
  unfold Z.sub; rewrite ?inject_Z_plus, ?inject_Z_opp;
  change (inject_Z 1) with 1%Q; change (inject_Z (-1)) with (-1)%Q.

(** Rounding half to even commutes with the reflection in an even
    integer. *)
Lemma rint_reflect (c : Z) (q : Q) :
  Z.even c = true → Np.rint (inject_Z c - q) = (c - Np.rint q)%Z.
Proof.
  intros Hc. set (f := Qfloor q).
  pose proof (Qfloor_le q) as H1. pose proof (Qlt_floor q) as H2. fold f in H1, H2.
  rewrite inject_Z_plus in H2. change (inject_Z 1) with 1%Q in H2.
  destruct (Qeq_dec q (inject_Z f)) as [Hint|Hfrac].
  - assert (Hf' : Qfloor (inject_Z c - q) = (c - f)%Z).
    { apply Qfloor_unique; push_inject; lra. }
    unfold Np.rint. fold f. rewrite Hf'.
    assert (E1 : (q - inject_Z f ?= 1 # 2)%Q = Lt) by (apply (proj1 (Qlt_alt _ _)); lra).
    assert (E2 : (inject_Z c - q - inject_Z (c - f) ?= 1 # 2)%Q = Lt).
    { apply (proj1 (Qlt_alt _ _)). push_inject. lra. }
    by rewrite E1, E2.
  - assert (Hlt : (inject_Z f < q)%Q).
    { destruct (Qlt_le_dec (inject_Z f) q); [done|]. exfalso. apply Hfrac. lra. }
    assert (Hf' : Qfloor (inject_Z c - q) = (c - f - 1)%Z).
    { apply Qfloor_unique; push_inject; lra. }
    assert (Hi : (inject_Z (c - f - 1) == inject_Z c - inject_Z f - 1)%Q).
    { push_inject. ring. }
    assert (Hev : Z.even (c - f - 1) = negb (Z.even f)).
    { rewrite !Z.even_sub, Hc. simpl. by destruct (Z.even f). }
    unfold Np.rint. fold f. rewrite Hf', Hev.
    destruct (Qcompare_spec (q - inject_Z f) (1 # 2)) as [He|Hl|Hg].
    + assert (E : (inject_Z c - q - inject_Z (c - f - 1) ?= 1 # 2)%Q = Eq)
        by (apply (proj1 (Qeq_alt _ _)); rewrite Hi; lra).
      rewrite E. destruct (Z.even f); simpl; lia.
    + assert (E : (inject_Z c - q - inject_Z (c - f - 1) ?= 1 # 2)%Q = Gt)
        by (apply (proj1 (Qgt_alt _ _)); rewrite Hi; lra).
      rewrite E. lia.
    + assert (E : (inject_Z c - q - inject_Z (c - f - 1) ?= 1 # 2)%Q = Lt)
        by (apply (proj1 (Qlt_alt _ _)); rewrite Hi; lra).
      rewrite E. lia.
Qed.

(** [np.rint] moves a number by at most one half. *)
Lemma rint_near (x : Q) :
  (x - (1 # 2) <= inject_Z (Np.rint x) <= x + (1 # 2))%Q.
Proof.
  pose proof (Qfloor_le x) as H1. pose proof (Qlt_floor x) as H2.
  rewrite inject_Z_plus in H2. change (inject_Z 1) with 1%Q in H2.
  unfold Np.rint. cbv zeta. set (f := Qfloor x) in *.
  destruct (Qcompare_spec (x - inject_Z f) (1 # 2)) as [He|Hl|Hg];
    [destruct (Z.even f)|..];
    rewrite ?inject_Z_plus; change (inject_Z 1) with 1%Q; lra.
Qed.

(** The hundredths of a probability and of its complement, as
    [prob_against] rounds them. *)
Lemma rint_pair (p : Q) :
  (0 <= p <= 1)%Q →
  (0 <= Np.rint (p * 100) <= 100)%Z ∧
  (0 <= Np.rint ((1 - p) * 100) <= 100)%Z ∧
  (99 <= Np.rint (p * 100) + Np.rint ((1 - p) * 100) <= 101)%Z.
Proof.
  intros Hp.
  pose proof (rint_near (p * 100)) as HF.
  pose proof (rint_near ((1 - p) * 100)) as HS.
  set (kF := Np.rint (p * 100)) in *. set (kS := Np.rint ((1 - p) * 100)) in *.
  assert (H1 : (inject_Z (-1) < inject_Z kF)%Q)
    by (change (inject_Z (-1)) with (-1)%Q; lra).
  assert (H2 : (inject_Z kF < inject_Z 101)%Q)
    by (change (inject_Z 101) with 101%Q; lra).
  assert (H3 : (inject_Z (-1) < inject_Z kS)%Q)
    by (change (inject_Z (-1)) with (-1)%Q; lra).
  assert (H4 : (inject_Z kS < inject_Z 101)%Q)
    by (change (inject_Z 101) with 101%Q; lra).
  assert (H5 : (inject_Z 99 <= inject_Z (kF + kS))%Q)
    by (rewrite inject_Z_plus; change (inject_Z 99) with 99%Q; lra).
  assert (H6 : (inject_Z (kF + kS) <= inject_Z 101)%Q)
    by (rewrite inject_Z_plus; change (inject_Z 101) with 101%Q; lra).
  rewrite <- Zlt_Qlt in H1, H2, H3, H4. rewrite <- Zle_Qle in H5, H6. lia.
Qed.

(** X3. For every [Dice] and every target, [prob_against] returns a pair of
    probabilities on the grid of hundredths: each of the two is a whole
    number of hundredths between 0 and 1, and the two numbers of hundredths
    add up to 100 give or take one, the two roundings being independent of
    each other. *)
Theorem prob_against_hundredths (d : Dice.t) (lo hi target : Z) :
  dice_ok d lo hi →
  ∃ (pF pS : Q) (kF kS : Z),
    Dice.prob_against d target = Returns [pF; pS] ∧
    (pF == inject_Z kF / 100)%Q ∧ (pS == inject_Z kS / 100)%Q ∧
    (0 <= kF <= 100)%Z ∧ (0 <= kS <= 100)%Z ∧
    (99 <= kF + kS <= 101)%Z.
Proof.
  intros Hd.
  destruct (prob_against_returns d lo hi target Hd) as [H|[H|(p & Hp & H)]];
    rewrite H.
  - exists 0%Q, 1%Q, 0%Z, 100%Z. repeat split; (done || lia).
  - exists 1%Q, 0%Q, 100%Z, 0%Z. repeat split; (done || lia).
  - destruct (rint_pair p Hp) as (HF & HS & HFS).
    exists (Np.round2 p), (Np.round2 (1 - p)),
      (Np.rint (p * 100)), (Np.rint ((1 - p) * 100)).
    split; [done|]. split; [reflexivity|]. split; [reflexivity|]. done.
Qed.

Lemma prob_against_hundredths_witness :
  dice_ok ex_d4 1 4 ∧
  ∃ (pF pS : Q) (kF kS : Z),
    Dice.prob_against ex_d4 3 = Returns [pF; pS] ∧
    (pF == inject_Z kF / 100)%Q ∧ (pS == inject_Z kS / 100)%Q ∧
    (0 <= kF <= 100)%Z ∧ (0 <= kS <= 100)%Z ∧
    (99 <= kF + kS <= 101)%Z.
Proof.
  split; [exact ex_d4_ok|].
  exact (prob_against_hundredths ex_d4 1 4 3 ex_d4_ok).
Defined.

(** ** The cumulative distribution *)

Lemma sum_take_mono (l : list Q) (k k' : nat) :
  nonneg_mass l → k ≤ k' → (Np.sum (take k l) <= Np.sum (take k' l))%Q.
Proof.
  intros Hl. revert k k'. induction Hl as [|x l Hx Hl IH]; intros k k' Hk.
  - rewrite !take_nil. lra.
  - destruct k as [|k].
    + rewrite take_0, sum_nil. apply sum_nonneg, Forall_take. by constructor.
    + destruct k' as [|k']; [lia|]. simpl. rewrite !sum_cons.
      pose proof (IH k k' ltac:(lia)). lra.
Qed.

(** X2. The cdf of a [Dice] has one cell per value, every cell is a
    probability, the cells never decrease, and the last cell is 1. *)
Theorem cdf_monotone_to_one (d : Dice.t) (lo hi : Z) :
  dice_ok d lo hi →
  length (Dice.cdf d) = length (Dice.values d) ∧
  (∀ i c, Dice.cdf d !! i = Some c → (0 <= c <= 1)%Q) ∧
  (∀ i j ci cj, i ≤ j → Dice.cdf d !! i = Some ci → Dice.cdf d !! j = Some cj →
     (ci <= cj)%Q) ∧
  ∃ c, last (Dice.cdf d) = Some c ∧ (c == 1)%Q.
Proof.
  intros Hd. pose proof Hd as (Hle & Hv & Hlen & Hcdf & Hnn & Hone).
  split; [by rewrite Hcdf, length_cumsum|].
  split; [intros i c Hc; by eapply cdf_cell_bounds|].
  split.
  - intros i j ci cj Hij Hi Hj. rewrite Hcdf in Hi, Hj.
    rewrite (cumsum_lookup _ _ _ Hi), (cumsum_lookup _ _ _ Hj).
    apply sum_take_mono; [done | lia].
  - assert (Hn : 0 < length (Dice.cdf d)).
    { rewrite Hcdf, length_cumsum, Hlen, Hv, length_arange. lia. }
    destruct (lookup_lt_is_Some_2 (Dice.cdf d) (pred (length (Dice.cdf d))))
      as [c Hc]; [lia|].
    exists c. split; [by rewrite last_lookup|].
    rewrite Hcdf in Hc. rewrite (cumsum_lookup _ _ _ Hc), length_cumsum.
    rewrite take_ge; [done|]. rewrite Hcdf, length_cumsum in Hn. lia.
Qed.

Lemma cdf_monotone_to_one_witness :
  dice_ok ex_d4 1 4 ∧ ∃ c, last (Dice.cdf ex_d4) = Some c ∧ (c == 1)%Q.
Proof.
  split; [exact ex_d4_ok|].
  exact (proj2 (proj2 (proj2 (cdf_monotone_to_one ex_d4 1 4 ex_d4_ok)))).
Defined.

(** ** Construction of a die *)

Lemma distribution_values_bounds (times die mod_ boons : Z) dist vals :
  Dice._distribution_values times die mod_ boons = Returns (dist, vals) →
  vals = Np.arange (dice_low times mod_ boons)
           (dice_upp times die mod_ boons + 1).
Proof.
  unfold Dice._distribution_values, dice_low, dice_upp. intros H.
  apply bind_Returns in H as (d0 & _ & H).
  destruct (Z.eqb_spec boons 0) as [->|Hb].
  - injection H as _ <-. done.
  - destruct (Z.gtb_spec boons 0).
    + apply bind_Returns in H as (d1 & _ & H). injection H as _ <-. done.
    + apply bind_Returns in H as (d1 & _ & H). injection H as _ <-.
      destruct (Z.ltb_spec boons 0); [done | lia].
Qed.

(** X1. [Dice(times, die, mod, boons)] raises [AssertionError] unless
    [times > 0] and [die > 0].  Otherwise, as long as the total
    [die ** times] of the int64 frequency vector is below [2 ** 63], it
    returns a die whose values are the contiguous range from [mod + times]
    to [mod + times * die], moved by [+1..+6] for a positive boon and by
    [-6..-1] for a negative one, with one probability per value, no negative
    probability and total 1.  The bound is needed: the total of
    [Dice(25, 6)] wraps to a negative int64 and every probability of the
    die that is returned is negative, and the total of [Dice(64, 2)] wraps
    to 0 and every one of the 65 probabilities is infinite. *)
Theorem dice_init_spec (times die mod_ boons : Z) :
  ((times <= 0)%Z ∨ (die <= 0)%Z →
   Dice.init times die mod_ boons = Raises AssertionError) ∧
  ((0 < times)%Z → (0 < die)%Z → (die ^ times < 2 ^ 63)%Z →
   ∃ d, Dice.init times die mod_ boons = Returns d ∧
     dice_ok d (dice_low times mod_ boons) (dice_upp times die mod_ boons) ∧
     Dice.cardinality d
     = (dice_upp times die mod_ boons - dice_low times mod_ boons + 1)%Z) ∧
  (∃ d, Dice.init 25 6 0 0 = Returns d ∧
     Forall (λ p, (p < 0)%Q) (Dice.pmf d)) ∧
  Dice.init 64 2 0 0 = NonFinite (replicate 65 PInf).
Proof.
  split; [|split; [|split]].
  - intros H. unfold Dice.init.
    assert (E : ((times >? 0)%Z && (die >? 0)%Z) = false).
    { destruct (Z.gtb_spec times 0), (Z.gtb_spec die 0); simpl; (done || lia). }
    by rewrite E.
  - intros Ht Hd Hb.
    destruct (dice_init_ok times die mod_ boons Ht Hd Hb)
      as (d & lo & hi & arr & _ & _ & Hinit & Hok & _).
    exists d. split; [done|].
    assert (Hv : Dice.values d
                 = Np.arange (dice_low times mod_ boons)
                     (dice_upp times die mod_ boons + 1)).
    { unfold Dice.init in Hinit.
      apply bind_Returns in Hinit as (? & _ & Hinit).
      apply bind_Returns in Hinit as ([dist vals] & Hdv & Hinit).
      apply bind_Returns in Hinit as (pmf & _ & Hinit).
      apply bind_Returns in Hinit as (avg & _ & Hinit).
      injection Hinit as <-. simpl.
      by eapply distribution_values_bounds. }
    assert (Hle : (dice_low times mod_ boons <= dice_upp times die mod_ boons)%Z).
    { unfold dice_low, dice_upp.
      destruct (boons >? 0)%Z; [nia|]. destruct (boons <? 0)%Z; nia. }
    pose proof (dice_ok_bounds d lo hi Hok) as (H0 & H1 & _).
    rewrite Hv, index_arange_first in H0 by done.
    rewrite Hv, index_arange_last in H1 by done.
    injection H0 as <-. injection H1 as <-. split; [done|].
    unfold Dice.init in Hinit.
    apply bind_Returns in Hinit as (? & _ & Hinit).
    apply bind_Returns in Hinit as ([dist vals] & Hdv & Hinit).
    apply bind_Returns in Hinit as (pmf & _ & Hinit).
    apply bind_Returns in Hinit as (avg & _ & Hinit).
    injection Hinit as <-. simpl in *. rewrite Hv. unfold Np.len.
    rewrite length_arange. lia.
  - assert (E : (λ d, forallb (λ p, negb (Qle_bool 0 p)) (Dice.pmf d))
                <$> Dice.init 25 6 0 0 = Returns true)
      by (vm_compute; reflexivity).
    destruct (Dice.init 25 6 0 0) as [d| |]; [|discriminate..].
    exists d. split; [done|]. simpl in E. injection E as E.
    apply Forall_forall. intros p Hp. apply list_elem_of_In in Hp.
    apply (proj1 (forallb_forall _ _) E) in Hp.
    apply Qnot_le_lt. intros Hle. apply Qle_bool_iff in Hle.
    by rewrite Hle in Hp.
  - vm_compute. reflexivity.
Qed.

Lemma dice_init_spec_witness :
  (0 < 2)%Z ∧ (0 < 6)%Z ∧ (6 ^ 2 < 2 ^ 63)%Z ∧
  ∃ d, Dice.init 2 6 1 (-1) = Returns d ∧ dice_ok d (-3) 12 ∧
    Dice.init 0 6 1 (-1) = Raises AssertionError.
Proof.
  split; [lia|]. split; [lia|]. split; [reflexivity|].
  destruct (dice_init_spec 2 6 1 (-1)) as (_ & H & _).
  destruct (H ltac:(lia) ltac:(lia) ltac:(reflexivity)) as (d & Hd & Hok & _).
  exists d. split; [exact Hd|]. split; [exact Hok|].
  apply (proj1 (dice_init_spec 0 6 1 (-1))). left. lia.
Defined.

(** ** Exact values *)

Lemma arange_cons (lo hi : Z) :
  (lo <= hi)%Z → ∃ rest, Np.arange lo (hi + 1) = lo :: rest.
Proof.
  intros H. unfold Np.arange. rewrite (seqZ_cons lo) by lia. by eexists.
Qed.

Lemma mass_at_contiguous (X : AleatoryVariable.t) (lo hi v : Z) :
  contiguous X lo hi →
  mass_at X v
  = if (lo <=? v)%Z
    then cell (AleatoryVariable.distribution X) (Z.to_nat (v - lo)) else 0%Q.
Proof.
  intros [Hle Hdom]. unfold mass_at. rewrite Hdom.
  destruct (arange_cons lo hi Hle) as [rest ->]. done.
Qed.

Lemma point_mass_mass_at (A : AleatoryVariable.t) (lo hi v w : Z) :
  point_mass A lo hi v →
  mass_at A w = if decide (w = v) then 1%Q else 0%Q.
Proof.
  intros (Hv & Hdom & Hal & Hcell).
  rewrite (mass_at_contiguous A lo hi) by (split; [lia | done]).
  destruct (Z.leb_spec lo w) as [Hw|Hw]; [|by rewrite decide_False by lia].
  destruct (decide (Z.to_nat (w - lo) < length (AleatoryVariable.domain A)))
    as [Hi|Hi].
  - rewrite (Hcell _ Hi). rewrite Z2Nat.id by lia.
    replace (lo + (w - lo))%Z with w by lia. done.
  - rewrite cell_ge by (rewrite Hal; lia).
    rewrite Hdom, length_arange in Hi. by rewrite decide_False by lia.
Qed.

Lemma point_mass_sum (A : AleatoryVariable.t) (lo hi v : Z) :
  point_mass A lo hi v →
  (Np.sum (AleatoryVariable.distribution A) == 1)%Q ∧
  nonneg_mass (AleatoryVariable.distribution A).
Proof.
  intros (Hv & Hdom & Hal & Hcell).
  assert (Hn : length (AleatoryVariable.distribution A) = Z.to_nat (hi + 1 - lo)).
  { rewrite Hal, Hdom. apply length_arange. }
  split.
  - rewrite <- bigsum_cells.
    rewrite (bigsum_single _ _ (Z.to_nat (v - lo))) by
      (try lia; intros k Hk Hne; rewrite Hcell by (rewrite <- Hal; lia);
       by rewrite decide_False by lia).
    rewrite Hcell by (rewrite <- Hal; lia). by rewrite decide_True by lia.
  - apply nonneg_of_cells. intros i.
    destruct (decide (i < length (AleatoryVariable.distribution A))) as [Hi|Hi].
    + rewrite Hcell by (rewrite <- Hal; lia). destruct (decide _); lra.
    + rewrite cell_ge by lia. lra.
Qed.

(** X4. [from_exact(value)] is the one-cell variable [([value], [1])];
    [from_exact(value, (lb, ub))] raises [AssertionError] unless
    [lb <= value <= ub], and otherwise returns the aligned variable over
    [lb..ub] that gives mass 1 to [value] and 0 to every other value, so
    its total is 1. *)
Theorem from_exact_spec (value lb ub : Z) :
  AleatoryVariable.from_exact value None
  = Returns (AleatoryVariable.mk [value] [1%Q]) ∧
  (¬ (lb <= value <= ub)%Z →
   AleatoryVariable.from_exact value (Some (lb, ub)) = Raises AssertionError) ∧
  ((lb <= value <= ub)%Z →
   ∃ A, AleatoryVariable.from_exact value (Some (lb, ub)) = Returns A ∧
     AleatoryVariable.domain A = Np.arange lb (ub + 1) ∧
     aligned A ∧
     (∀ w, mass_at A w = if decide (w = value) then 1%Q else 0%Q) ∧
     (Np.sum (AleatoryVariable.distribution A) == 1)%Q).
Proof.
  split; [done|]. split.
  - intros Hout. simpl. unfold py_assert.
    rewrite bool_decide_eq_false_2; [done|].
    unfold Np.arange. rewrite elem_of_seqZ. lia.
  - intros Hin.
    assert (HA : ∃ A, AleatoryVariable.from_exact value (Some (lb, ub)) = Returns A).
    { simpl. unfold py_assert. rewrite bool_decide_eq_true_2; [by eexists|].
      unfold Np.arange. rewrite elem_of_seqZ. lia. }
    destruct HA as [A HA]. exists A. split; [done|].
    pose proof (from_exact_bounds_point _ _ _ _ HA) as Hp.
    pose proof Hp as (_ & Hdom & Hal & _).
    split; [done|]. split; [done|].
    split; [intros w; by eapply point_mass_mass_at|].
    by destruct (point_mass_sum A lb ub value Hp).
Qed.

Lemma from_exact_spec_witness :
  (0 <= 4 <= 5)%Z ∧ ¬ (0 <= 7 <= 5)%Z ∧
  (∃ A, AleatoryVariable.from_exact 4 (Some (0, 5)%Z) = Returns A ∧
     mass_at A 4 = 1%Q ∧ mass_at A 3 = 0%Q) ∧
  AleatoryVariable.from_exact 7 (Some (0, 5)%Z) = Raises AssertionError.
Proof.
  split; [lia|]. split; [lia|]. split.
  - destruct (from_exact_spec 4 0 5) as (_ & _ & H).
    destruct (H ltac:(lia)) as (A & HA & _ & _ & Hm & _).
    exists A. split; [exact HA|]. split; [exact (Hm 4%Z) | exact (Hm 3%Z)].
  - apply (from_exact_spec 7 0 5). lia.
Defined.

(** ** Widening a domain *)

Lemma cell_replicate_zero (n i : nat) : cell (replicate n 0%Q) i = 0%Q.
Proof.
  unfold cell. rewrite nth_lookup.
  destruct (replicate _ _ !! i) as [x|] eqn:E; [|done].
  by apply lookup_replicate in E as [-> _].
Qed.

Lemma cell_app (l1 l2 : list Q) (i : nat) :
  cell (l1 ++ l2) i
  = if decide (i < length l1) then cell l1 i else cell l2 (i - length l1).
Proof.
  unfold cell. rewrite !nth_lookup. destruct (decide _).
  - by rewrite lookup_app_l.
  - by rewrite lookup_app_r by lia.
Qed.

(** X5. For an aligned variable over the contiguous domain [lo..hi],
    [set_domain_bounds(low, upp)] raises [AssertionError] when the requested
    bounds are narrower on either side; otherwise the variable it leaves is
    aligned over [low..upp], gives every value the mass it had before (0 to
    the new values) and keeps the total; with the bounds it already has, the
    variable is unchanged. *)
Theorem set_domain_bounds_spec (X : AleatoryVariable.t) (lo hi low upp : Z) :
  aligned X → contiguous X lo hi →
  (¬ ((low <= lo)%Z ∧ (hi <= upp)%Z) →
   AleatoryVariable.set_domain_bounds X low upp = Raises AssertionError) ∧
  ((low <= lo)%Z → (hi <= upp)%Z →
   ∃ X', AleatoryVariable.set_domain_bounds X low upp = Returns X' ∧
     AleatoryVariable.domain X' = Np.arange low (upp + 1) ∧
     aligned X' ∧
     (∀ v, mass_at X' v = mass_at X v) ∧
     (Np.sum (AleatoryVariable.distribution X')
      == Np.sum (AleatoryVariable.distribution X))%Q ∧
     (low = lo → upp = hi → X' = X)).
Proof.
  intros HX Hc. pose proof Hc as [Hle Hdom].
  assert (HnX : length (AleatoryVariable.distribution X) = Z.to_nat (hi + 1 - lo)).
  { rewrite HX, Hdom. apply length_arange. }
  unfold AleatoryVariable.set_domain_bounds.
  rewrite Hdom, index_arange_first, index_arange_last by done.
  rewrite !bind_Returns_l. split.
  - intros Hn. unfold py_assert.
    destruct (Z.leb_spec low lo), (Z.geb_spec upp hi); simpl; (done || lia).
  - intros Hlow Hupp. unfold py_assert.
    destruct (Z.leb_spec low lo); [|lia]. destruct (Z.geb_spec upp hi); [|lia].
    simpl. destruct (decide (low = lo ∧ upp = hi)) as [[E1 E2]|Hne].
    { rewrite E1, E2, !Z.eqb_refl. simpl. exists X. rewrite <- Hdom.
      split; [done|]. split; [done|]. split; [done|].
      split; [done|]. split; [reflexivity | done]. }
    assert (Hb : ((low =? lo)%Z && (upp =? hi)%Z) = false).
    { destruct (Z.eqb_spec low lo), (Z.eqb_spec upp hi); simpl; try done.
      exfalso. by apply Hne. }
    rewrite Hb. rewrite where_first_arange by lia. rewrite bind_Returns_l.
    rewrite length_zeros. unfold Np.len. rewrite Nat2Z.id, !length_arange.
    set (start := Z.to_nat (lo - low)).
    set (n := Z.to_nat (upp + 1 - low)).
    set (k := ((start + Z.to_nat (hi + 1 - lo)) `min` n) - start).
    assert (Hk : k = Z.to_nat (hi + 1 - lo)) by (unfold k, start, n; lia).
    rewrite decide_True by lia.
    eexists. split; [done|]. simpl.
    unfold Np.zeros, Np.full. rewrite take_replicate, drop_replicate.
    replace (start `min` Z.to_nat (Z.of_nat n)) with start
      by (unfold start, n; lia).
    split; [done|].
    split.
    { unfold aligned. simpl.
      rewrite !length_app, !length_replicate, length_arange.
      unfold start, n in *. lia. }
    split; [|split; [|intros; exfalso; apply Hne; done]].
    + intros v. rewrite (mass_at_contiguous X lo hi v Hc).
      unfold mass_at. simpl.
      destruct (arange_cons low upp ltac:(lia)) as [rest ->].
      rewrite !cell_app, !length_replicate.
      destruct (Z.leb_spec low v), (Z.leb_spec lo v); try lia; try done.
      * rewrite decide_False by (unfold start; lia).
        replace (Z.to_nat (v - low) - start) with (Z.to_nat (v - lo))
          by (unfold start; lia).
        destruct (decide _); [done|].
        by rewrite cell_replicate_zero, cell_ge by lia.
      * rewrite decide_True by (unfold start; lia).
        apply cell_replicate_zero.
    + rewrite !sum_app, !sum_replicate. ring.
Qed.

Lemma set_domain_bounds_spec_witness :
  AleatoryVariable.set_domain_bounds ex_X 1 2 = Raises AssertionError ∧
  ∃ X', AleatoryVariable.set_domain_bounds ex_X (-1) 3 = Returns X' ∧
    AleatoryVariable.domain X' = Np.arange (-1) (3 + 1) ∧
    mass_at X' 1 = mass_at ex_X 1.
Proof.
  assert (Ha : aligned ex_X) by reflexivity.
  assert (Hc : contiguous ex_X 0 2) by (split; [lia | reflexivity]).
  destruct (set_domain_bounds_spec ex_X 0 2 1 2 Ha Hc) as [Hr _].
  destruct (set_domain_bounds_spec ex_X 0 2 (-1) 3 Ha Hc) as [_ Hw].
  split; [apply Hr; lia|].
  destruct (Hw ltac:(lia) ltac:(lia)) as (X' & HX' & Hd & _ & Hm & _).
  exists X'. split; [done|]. split; [done|]. apply Hm.
Defined.

(** ** Powers: support and total *)

Lemma conv_loop_sum (v : list Q) (l : list Z) (d : list Q) :
  v ≠ [] → d ≠ [] →
  ∃ d', for_in l (λ dist _, Np.convolve dist v) d = Returns d' ∧
    length d' = length d + length l * (length v - 1) ∧
    (nonneg_mass v → nonneg_mass d → nonneg_mass d') ∧
    (Np.sum d' == Np.sum d * Np.sum v ^ Z.of_nat (length l))%Q.
Proof.
  intros Hv. revert d. induction l as [|x l IH]; intros d Hd.
  - exists d. split; [done|]. split; [simpl; lia|]. split; [done|].
    simpl. ring.
  - cbn [for_in]. rewrite convolve_Returns by done. rewrite bind_Returns_l.
    destruct (IH (Np.conv d v) (conv_nonempty d v Hd))
      as (d' & Hrun & Hlen & Hnn & Hsum).
    exists d'. split; [done|]. split; [|split].
    + rewrite Hlen, length_conv by done.
      destruct d; [done|]. destruct v; [done|]. simpl. lia.
    + intros Hv0 Hd0. apply Hnn; [done|]. by apply nonneg_conv.
    + rewrite Hsum, sum_conv. cbn [length]. rewrite Nat2Z.inj_succ.
      unfold Z.succ. rewrite Qpower_plus' by lia.
      change (Np.sum v ^ 1)%Q with (Np.sum v). ring.
Qed.

Lemma flip_opp_arange (a b : Z) :
  Np.flip (map Z.opp (Np.arange a (b + 1))) = Np.arange (- b) (- a + 1).
Proof.
  unfold Np.flip, Np.arange.
  replace (b + 1 - a)%Z with (- a + 1 - - b)%Z by lia.
  set (n := (- a + 1 - - b)%Z).
  apply list_eq. intros i.
  destruct (decide (Z.of_nat i < n)%Z) as [Hi|Hi].
  - rewrite reverse_lookup
      by (rewrite length_map, length_seqZ; lia).
    rewrite length_map, length_seqZ, list_lookup_fmap.
    rewrite !lookup_seqZ_lt by lia. simpl. f_equal. lia.
  - rewrite (lookup_seqZ_ge (- b)) by lia.
    apply lookup_ge_None_2.
    rewrite length_reverse, length_map, length_seqZ. lia.
Qed.

(** X6. For an aligned variable over the contiguous domain [lo..hi] and any
    [n] other than 0, [X ** n] returns an aligned variable over the
    contiguous range between [lo * n] and [hi * n]; its total is the total
    of [X] raised to [|n|] (so a total of 1 is kept), and it has no negative
    entry when [X] has none. *)
Theorem pow_support_total (X : AleatoryVariable.t) (lo hi n : Z) :
  aligned X → contiguous X lo hi → n ≠ 0%Z →
  ∃ T, AleatoryVariable.pow X n = Returns T ∧
    aligned T ∧
    contiguous T (Z.min (lo * n) (hi * n)) (Z.max (lo * n) (hi * n)) ∧
    (nonneg_mass (AleatoryVariable.distribution X) →
     nonneg_mass (AleatoryVariable.distribution T)) ∧
    (Np.sum (AleatoryVariable.distribution T)
     == Np.sum (AleatoryVariable.distribution X) ^ Z.abs n)%Q.
Proof.
  intros HX Hc Hn. pose proof (contiguous_nonempty X lo hi HX Hc) as Hne.
  pose proof Hc as [Hle Hdom].
  assert (HlX : length (AleatoryVariable.distribution X) = Z.to_nat (hi + 1 - lo)).
  { rewrite HX, Hdom. apply length_arange. }
  unfold AleatoryVariable.pow.
  destruct (Z.eqb_spec n 0) as [|_]; [done|].
  rewrite Hdom, index_arange_first, index_arange_last by done.
  rewrite !bind_Returns_l.
  destruct (conv_loop_sum (AleatoryVariable.distribution X)
              (Np.arange 0 (Z.abs n - 1)) (AleatoryVariable.distribution X)
              Hne Hne) as (d & Hrun & Hlen & Hnn & Hsum).
  rewrite Hrun, bind_Returns_l. rewrite length_arange in Hlen, Hsum.
  assert (Hd : length d = Z.to_nat (hi * Z.abs n + 1 - lo * Z.abs n)).
  { rewrite Hlen, HlX. apply Nat2Z.inj.
    rewrite Nat2Z.inj_add, Nat2Z.inj_mul, Nat2Z.inj_sub by lia.
    rewrite !Z2Nat.id by nia. nia. }
  assert (Hs : (Np.sum d == Np.sum (AleatoryVariable.distribution X) ^ Z.abs n)%Q).
  { rewrite Hsum. replace (Z.abs n) with (1 + Z.of_nat (Z.to_nat (Z.abs n - 1 - 0)))%Z at 2
      by lia.
    rewrite Qpower_plus' by lia.
    change (Np.sum (AleatoryVariable.distribution X) ^ 1)%Q
      with (Np.sum (AleatoryVariable.distribution X)). reflexivity. }
  destruct (Z.gtb_spec n 0) as [Hpos|Hneg].
  - rewrite (Z.abs_eq n) in * by lia.
    eexists. split; [done|]. simpl.
    split; [unfold aligned; simpl; by rewrite Hd, length_arange|].
    split; [|split; [by auto | done]].
    rewrite Z.min_l, Z.max_r by nia. split; [nia | done].
  - rewrite (Z.abs_neq n) in * by lia.
    eexists. split; [done|]. simpl. rewrite flip_opp_arange.
    split.
    { unfold aligned, Np.flip. simpl.
      rewrite length_reverse, Hd, length_arange. lia. }
    split; [|split].
    + rewrite Z.min_r, Z.max_l by nia. split; [nia|]. simpl.
      f_equal; lia.
    + intros H. unfold Np.flip. apply nonneg_reverse. auto.
    + unfold Np.flip. by rewrite sum_reverse.
Qed.

Lemma pow_support_total_witness :
  ∃ T, AleatoryVariable.pow ex_X (-2) = Returns T ∧
    contiguous T (-4) 0 ∧
    (Np.sum (AleatoryVariable.distribution T) == 1)%Q.
Proof.
  assert (Ha : aligned ex_X) by reflexivity.
  assert (Hc : contiguous ex_X 0 2) by (split; [lia | reflexivity]).
  destruct (pow_support_total ex_X 0 2 (-2) Ha Hc ltac:(lia))
    as (T & HT & _ & HcT & _ & Hs).
  exists T. split; [done|]. split; [exact HcT|].
  rewrite Hs. reflexivity.
Defined.

(** X7. [X ** n] on a variable that is not well formed: with an empty domain
    and [n] other than 0 the first domain lookup raises [IndexError]; with a
    domain but an empty distribution, the first convolution raises
    [ValueError] as soon as [|n| >= 2], while [|n| = 1] returns an empty
    distribution without complaint. *)
Theorem pow_malformed (X : AleatoryVariable.t) (n : Z) :
  n ≠ 0%Z →
  (AleatoryVariable.domain X = [] →
   AleatoryVariable.pow X n = Raises IndexError) ∧
  (AleatoryVariable.domain X ≠ [] → AleatoryVariable.distribution X = [] →
   ((2 <= Z.abs n)%Z → AleatoryVariable.pow X n = Raises ValueError) ∧
   (Z.abs n = 1%Z →
    ∃ T, AleatoryVariable.pow X n = Returns T ∧
      AleatoryVariable.distribution T = [])).
Proof.
  intros Hn. unfold AleatoryVariable.pow.
  destruct (Z.eqb_spec n 0) as [|_]; [done|]. split.
  - intros ->. done.
  - intros Hdom Hdist.
    destruct (AleatoryVariable.domain X) as [|x dom] eqn:E; [done|].
    assert (H0 : Np.index (x :: dom) 0 = Returns x) by done.
    assert (H1 : ∃ y, Np.index (x :: dom) (-1) = Returns y).
    { unfold Np.index, Np.len. change (-1 <? 0)%Z with true. cbv iota.
      destruct (Z.ltb_spec (-1 + Z.of_nat (length (x :: dom))) 0) as [Hl|_];
        [simpl in Hl; lia|].
      destruct ((x :: dom) !! _) as [y|] eqn:Ey; [by exists y|].
      apply lookup_ge_None in Ey. simpl in Ey. lia. }
    destruct H1 as [y H1]. rewrite H0, H1, !bind_Returns_l, Hdist. split.
    + intros H2. unfold Np.arange.
      rewrite (seqZ_cons 0) by lia. done.
    + intros H2. rewrite H2. simpl for_in. rewrite bind_Returns_l.
      destruct (n >? 0)%Z; eexists; (split; [done|]); done.
Qed.

Lemma pow_malformed_witness :
  AleatoryVariable.pow (AleatoryVariable.mk [] [1%Q]) 3 = Raises IndexError ∧
  AleatoryVariable.pow (AleatoryVariable.mk [0%Z; 1%Z] []) (-2)
  = Raises ValueError.
Proof.
  split.
  - apply (pow_malformed (AleatoryVariable.mk [] [1%Q]) 3); [lia | done].
  - destruct (pow_malformed (AleatoryVariable.mk [0%Z; 1%Z] []) (-2))
      as [_ H]; [lia|].
    destruct H as [H _]; [done | done |]. apply H. simpl. lia.
Defined.

(** ** Differences and sums of distributions *)

Lemma bigsum_nonneg (f : nat → Q) (n : nat) :
  (∀ k, k < n → (0 <= f k)%Q) → (0 <= bigsum f n)%Q.
Proof.
  induction n as [|n IH]; intros H; simpl; [lra|].
  pose proof (H n ltac:(lia)). pose proof (IH ltac:(intros; apply H; lia)). lra.
Qed.

Lemma joint_nonneg (X Y : AleatoryVariable.t) (i s o : nat) :
  nonneg_mass (AleatoryVariable.distribution X) →
  nonneg_mass (AleatoryVariable.distribution Y) →
  (0 <= joint X Y i s o)%Q.
Proof.
  intros HX HY. unfold joint. destruct (decide _); [|lra].
  apply Qmult_le_0_compat; by apply cell_nonneg.
Qed.

Lemma sub_distribution (X Y : AleatoryVariable.t) :
  aligned X → aligned Y →
  nonneg_mass (AleatoryVariable.distribution X) →
  nonneg_mass (AleatoryVariable.distribution Y) →
  ∃ R, AleatoryVariable.sub X Y = Returns R ∧
    AleatoryVariable.domain R = AleatoryVariable.domain X ∧
    aligned R ∧
    nonneg_mass (AleatoryVariable.distribution R) ∧
    (Np.sum (AleatoryVariable.distribution R)
     == Np.sum (AleatoryVariable.distribution X)
        * Np.sum (AleatoryVariable.distribution Y))%Q.
Proof.
  intros HX HY HXnn HYnn.
  destruct (sub_spec X Y HX HY) as (R & HR & Hdom & Hlen & Hsum & Hcell).
  exists R. split; [done|]. split; [done|].
  split; [unfold aligned; by rewrite Hlen, Hdom|]. split; [|done].
  apply nonneg_of_cells. intros i. rewrite Hcell.
  apply bigsum_nonneg. intros s _. apply bigsum_nonneg. intros o _.
  by apply joint_nonneg.
Qed.

(** X8. The difference and the sum of two probability distributions are
    probability distributions over the domain of the left operand: for
    aligned operands without negative mass, [X - Y] and [X + Y] return
    aligned variables over the domain of [X] without negative mass, and when
    both operands have total 1 so have the results. *)
Theorem sub_add_distribution (X Y : AleatoryVariable.t) :
  aligned X → aligned Y →
  nonneg_mass (AleatoryVariable.distribution X) →
  nonneg_mass (AleatoryVariable.distribution Y) →
  ∃ D S, AleatoryVariable.sub X Y = Returns D ∧
    AleatoryVariable.add X Y = Returns S ∧
    AleatoryVariable.domain D = AleatoryVariable.domain X ∧
    AleatoryVariable.domain S = AleatoryVariable.domain X ∧
    aligned D ∧ aligned S ∧
    nonneg_mass (AleatoryVariable.distribution D) ∧
    nonneg_mass (AleatoryVariable.distribution S) ∧
    ((Np.sum (AleatoryVariable.distribution X) == 1)%Q →
     (Np.sum (AleatoryVariable.distribution Y) == 1)%Q →
     (Np.sum (AleatoryVariable.distribution D) == 1)%Q ∧
     (Np.sum (AleatoryVariable.distribution S) == 1)%Q).
Proof.
  intros HX HY HXnn HYnn.
  destruct (sub_distribution X Y HX HY HXnn HYnn)
    as (D & HD & HdD & HaD & HnD & HsD).
  destruct (sub_distribution X _ HX (aligned_negated Y HY) HXnn HYnn)
    as (S & HS & HdS & HaS & HnS & HsS).
  exists D, S. rewrite add_as_sub.
  repeat (split; [done|]).
  intros H1 H2. simpl in HsS. rewrite HsD, HsS, H1, H2. split; reflexivity.
Qed.

Lemma sub_add_distribution_witness :
  ∃ D S, AleatoryVariable.sub ex_X ex_Y = Returns D ∧
    AleatoryVariable.add ex_X ex_Y = Returns S ∧
    nonneg_mass (AleatoryVariable.distribution D) ∧
    nonneg_mass (AleatoryVariable.distribution S) ∧
    (Np.sum (AleatoryVariable.distribution D) == 1)%Q ∧
    (Np.sum (AleatoryVariable.distribution S) == 1)%Q.
Proof.
  assert (HXnn : nonneg_mass (AleatoryVariable.distribution ex_X))
    by (repeat constructor; unfold Qle; simpl; lia).
  assert (HYnn : nonneg_mass (AleatoryVariable.distribution ex_Y))
    by (repeat constructor; unfold Qle; simpl; lia).
  destruct (sub_add_distribution ex_X ex_Y eq_refl eq_refl HXnn HYnn)
    as (D & S & HD & HS & _ & _ & _ & _ & HnD & HnS & Hsum).
  exists D, S. repeat (split; [done|]).
  apply Hsum; reflexivity.
Defined.

Lemma bigsum_from (f : nat → Q) (n a : nat) :
  (bigsum (λ s, if decide (a ≤ s) then f s else 0%Q) n
   == bigsum f n - bigsum f (n `min` a))%Q.
Proof.
  induction n as [|n IH]; [simpl; ring|]. simpl bigsum at 1 2. rewrite IH.
  destruct (decide (a ≤ n)) as [Hn|Hn].
  - replace (S n `min` a) with (n `min` a) by lia. ring.
  - replace (S n `min` a) with (S n) by lia.
    replace (n `min` a) with n by lia. simpl. ring.
Qed.

Lemma clampi_shift_up (n s c : nat) :
  s < n → clampi n (Z.of_nat s - - Z.of_nat c) = (s + c) `min` (n - 1).
Proof.
  intros Hs. unfold clampi.
  destruct (Z.ltb_spec (Z.of_nat s - - Z.of_nat c) 0); [lia|].
  destruct (Z.geb_spec (Z.of_nat s - - Z.of_nat c) (Z.of_nat n)); lia.
Qed.

(** X9. Adding an exact value [c >= 0] to an aligned, non-empty variable
    moves every cell up by [c] positions and saturates at the top: the
    result keeps the domain, a bin [i] below the top one holds the mass of
    the bin [i - c] (nothing when [i < c]), and the top bin gathers the mass
    of every bin from [n - 1 - c] on. *)
Theorem add_exact_shift (X : AleatoryVariable.t) (c : nat) :
  aligned X → 0 < AleatoryVariable.len X →
  ∃ R, AleatoryVariable.add X (AleatoryVariable.mk [Z.of_nat c] [1%Q])
       = Returns R ∧
    AleatoryVariable.domain R = AleatoryVariable.domain X ∧
    aligned R ∧
    (cell (AleatoryVariable.distribution R) (AleatoryVariable.len X - 1)
     == Np.sum (drop (AleatoryVariable.len X - 1 - c)
                  (AleatoryVariable.distribution X)))%Q ∧
    (∀ i, i < AleatoryVariable.len X - 1 →
       (cell (AleatoryVariable.distribution R) i
        == if decide (c ≤ i)
           then cell (AleatoryVariable.distribution X) (i - c) else 0)%Q).
Proof.
  intros HX Hn. rewrite add_as_sub. simpl map.
  set (Y := AleatoryVariable.mk [(- Z.of_nat c)%Z] [1%Q]).
  assert (HY : aligned Y) by done.
  destruct (sub_spec X Y HX HY) as (R & HR & Hdom & Hlen & _ & Hcell).
  set (n := AleatoryVariable.len X) in *.
  set (Xd := AleatoryVariable.distribution X) in *.
  assert (HlX : length Xd = n) by (unfold Xd; rewrite HX; done).
  assert (Hcells : ∀ i,
    (cell (AleatoryVariable.distribution R) i
     == bigsum (λ s, if decide ((s + c) `min` (n - 1) = i)
                     then cell Xd s else 0%Q) n)%Q).
  { intros i. rewrite Hcell. simpl length. apply bigsum_ext.
    intros s Hs. simpl. unfold joint. simpl.
    change (zcell [(- Z.of_nat c)%Z] 0) with (- Z.of_nat c)%Z.
    change (cell [1%Q] 0) with 1%Q. fold n Xd.
    rewrite (clampi_shift_up n s c Hs). destruct (decide _); ring. }
  exists R. split; [done|]. split; [done|].
  split; [unfold aligned; rewrite Hlen, Hdom; done|].
  split.
  - rewrite Hcells.
    rewrite (bigsum_ext _ (λ s, if decide (n - 1 - c ≤ s) then cell Xd s else 0%Q)).
    + assert (Hall : (bigsum (cell Xd) n == Np.sum Xd)%Q)
        by (rewrite <- HlX; apply bigsum_cells).
      rewrite (bigsum_from (cell Xd)).
      replace (n `min` (n - 1 - c)) with (n - 1 - c) by lia.
      rewrite Hall, bigsum_take by lia.
      rewrite (sum_take_drop Xd (n - 1 - c)). ring.
    + intros s Hs.
      destruct (decide ((s + c) `min` (n - 1) = n - 1)),
        (decide (n - 1 - c ≤ s)); (reflexivity || lia).
  - intros i Hi. rewrite Hcells. destruct (decide (c ≤ i)) as [Hc|Hc].
    + rewrite (bigsum_single _ n (i - c)) by
        (try lia; intros s Hs Hne; rewrite decide_False by lia; reflexivity).
      rewrite decide_True by lia. reflexivity.
    + apply bigsum_zero. intros s Hs. rewrite decide_False by lia. reflexivity.
Qed.

Lemma add_exact_shift_witness :
  ∃ R, AleatoryVariable.add ex_X (AleatoryVariable.mk [1%Z] [1%Q]) = Returns R ∧
    (cell (AleatoryVariable.distribution R) 2 == 1 # 2)%Q ∧
    (cell (AleatoryVariable.distribution R) 1 == 1 # 2)%Q ∧
    (cell (AleatoryVariable.distribution R) 0 == 0)%Q.
Proof.
  destruct (add_exact_shift ex_X 1 eq_refl ltac:(vm_compute; lia))
    as (R & HR & _ & _ & Htop & Hlow).
  exists R. split; [exact HR|]. split; [|split].
  - rewrite Htop. reflexivity.
  - rewrite (Hlow 1) by (vm_compute; lia). reflexivity.
  - rewrite (Hlow 0) by (vm_compute; lia). reflexivity.
Defined.

(** ** Products as mixtures of powers *)

Lemma cell_map_scale (l : list Q) (p : Q) (i : nat) :
  (cell (map (λ x, x * p) l) i == cell l i * p)%Q.
Proof.
  unfold cell. rewrite !nth_lookup, list_lookup_fmap.
  destruct (l !! i); simpl; [reflexivity | ring].
Qed.

Section mul_law.
Variables (X Y : AleatoryVariable.t) (lox hix loy hiy : Z).
Hypothesis HX : aligned X.
Hypothesis HY : aligned Y.
Hypothesis HcX : contiguous X lox hix.
Hypothesis HcY : contiguous Y loy hiy.
Hypothesis HX0 : (0 <= lox)%Z.
Hypothesis HY0 : (0 <= loy)%Z.
Hypothesis HXnn : nonneg_mass (AleatoryVariable.distribution X).
Hypothesis HXpos : (0 < Np.sum (AleatoryVariable.distribution X))%Q.

Let Xdist := AleatoryVariable.distribution X.
Let Ydist := AleatoryVariable.distribution Y.
Let dom := Np.arange (lox * loy) (hix * hiy + 1).

(** [X ** v] for a repetition count [v >= 0], with its total and the mass
    it gives to each value. *)
Lemma pow_count_spec (v : Z) :
  (0 <= v)%Z →
  ∃ T, AleatoryVariable.pow X v = Returns T ∧
    AleatoryVariable.domain T = Np.arange (lox * v) (hix * v + 1) ∧
    aligned T ∧
    nonneg_mass (AleatoryVariable.distribution T) ∧
    (Np.sum (AleatoryVariable.distribution T) == Np.sum Xdist ^ v)%Q ∧
    ∀ w, pow_mass_at X v w
         = if (lox * v <=? w)%Z
           then cell (AleatoryVariable.distribution T) (Z.to_nat (w - lox * v))
           else 0%Q.
Proof using HX HcX HXnn HXpos.
  intros Hv.
  destruct (pow_nonneg_spec X lox hix HX HcX HXnn HXpos v Hv)
    as (T & HT & HTdom & HTal & HTnn & _).
  exists T. split; [done|]. split; [done|]. split; [done|]. split; [done|].
  split.
  - pose proof (contiguous_nonempty X lox hix HX HcX) as Hne.
    revert HT. unfold AleatoryVariable.pow.
    destruct (Z.eqb_spec v 0) as [->|Hv0].
    + intros [= <-]. reflexivity.
    + destruct HcX as [Hle Hdom].
      rewrite Hdom, index_arange_first, index_arange_last by done.
      rewrite !bind_Returns_l.
      destruct (conv_loop_sum Xdist (Np.arange 0 (Z.abs v - 1)) Xdist Hne Hne)
        as (d & Hrun & _ & _ & Hsum).
      fold Xdist. rewrite Hrun, bind_Returns_l.
      destruct (Z.gtb_spec v 0); [|lia]. intros [= <-]. simpl.
      rewrite Hsum, length_arange. rewrite (Z.abs_eq v) by lia.
      replace v with (1 + Z.of_nat (Z.to_nat (v - 1 - 0)))%Z at 2 by lia.
      rewrite Qpower_plus' by lia.
      change (Np.sum Xdist ^ 1)%Q with (Np.sum Xdist). reflexivity.
  - intros w. unfold pow_mass_at. rewrite HT.
    apply (mass_at_contiguous T (lox * v) (hix * v)).
    destruct HcX as [Hle _]. split; [nia | done].
Qed.

(** One contribution of [__mul__], cell by cell. *)
Lemma mul_body_cells (acc : list Q) (o : nat) :
  o < length Ydist → length acc = length dom →
  ∃ acc', mul_body X Y dom acc o = Returns acc' ∧
    length acc' = length dom ∧
    (Np.sum acc'
     == Np.sum acc
        + cell Ydist o * Np.sum Xdist ^ zcell (AleatoryVariable.domain Y) o)%Q ∧
    ∀ i, (cell acc' i
          == cell acc i
             + cell Ydist o
               * pow_mass_at X (zcell (AleatoryVariable.domain Y) o)
                   (lox * loy + Z.of_nat i))%Q.
Proof using HX HY HcX HcY HX0 HY0 HXnn HXpos.
  intros Ho Hacc.
  assert (HlY : length Ydist = Z.to_nat (hiy + 1 - loy)).
  { unfold Ydist. rewrite HY. destruct HcY as [_ ->]. apply length_arange. }
  pose proof HcX as [HleX _]. pose proof HcY as [HleY HdomY].
  set (v := (loy + Z.of_nat o)%Z).
  assert (Hv : AleatoryVariable.domain Y !! o = Some v).
  { rewrite HdomY. unfold Np.arange, v.
    rewrite lookup_seqZ_lt by lia. f_equal; lia. }
  rewrite (zcell_lookup _ _ _ Hv).
  assert (Hvr : (loy <= v <= hiy)%Z) by (unfold v; lia).
  clearbody v.
  assert (Hm1 : (lox * loy <= lox * v)%Z) by nia.
  assert (Hm2 : (lox * v <= hix * v)%Z) by nia.
  assert (Hm3 : (hix * v <= hix * hiy)%Z) by nia.
  destruct (pow_count_spec v ltac:(lia))
    as (T & HT & HTdom & HTal & HTnn & HTsum & HTmass).
  unfold mul_body. fold Ydist. rewrite (item_Returns _ _ _ Hv), bind_Returns_l.
  rewrite HT, bind_Returns_l.
  rewrite (item_Returns _ _ _ (lookup_cell Ydist o Ho)), bind_Returns_l.
  rewrite HTdom, index_arange_first by lia. rewrite bind_Returns_l.
  unfold dom. rewrite where_first_arange by lia. rewrite bind_Returns_l.
  set (tmpd := map _ (AleatoryVariable.distribution T)).
  assert (Hl : AleatoryVariable.len T = length tmpd).
  { unfold tmpd, AleatoryVariable.len. rewrite length_map, <- HTal. done. }
  assert (HlT : length tmpd = Z.to_nat (hix * v + 1 - lox * v)).
  { rewrite <- Hl. unfold AleatoryVariable.len. rewrite HTdom.
    apply length_arange. }
  rewrite Hl.
  destruct (slice_iadd_spec acc (Z.to_nat (lox * v - lox * loy)) tmpd)
    as (acc' & Hrun & Hlen & Hsum & Hcell).
  { rewrite Hacc, HlT. unfold dom. rewrite length_arange.
    clear -Hm1 Hm2 Hm3. lia. }
  exists acc'. split; [done|]. split; [by rewrite Hlen, Hacc|]. split.
  - rewrite Hsum. unfold tmpd. rewrite sum_map_scale, HTsum. ring.
  - intros i. rewrite Hcell, HTmass.
    destruct (decide _) as [Hin|Hout].
    + destruct (Z.leb_spec (lox * v) (lox * loy + Z.of_nat i)) as [_|Hlt];
        [|exfalso; clear -Hin Hlt Hm1; lia].
      unfold tmpd. rewrite cell_map_scale.
      replace (Z.to_nat (lox * loy + Z.of_nat i - lox * v))
        with (i - Z.to_nat (lox * v - lox * loy))
        by (clear -Hin Hm1; lia).
      ring.
    + destruct (Z.leb_spec (lox * v) (lox * loy + Z.of_nat i)) as [Hge|_];
        [|ring].
      rewrite (cell_ge (AleatoryVariable.distribution T)); [ring|].
      assert (length (AleatoryVariable.distribution T) = length tmpd)
        as -> by (unfold tmpd; by rewrite length_map).
      clear -Hout Hge Hm1 HlT. lia.
Qed.

Lemma mul_prefix_cells (k : nat) :
  k ≤ length Ydist →
  ∃ acc, for_in (seq 0 k) (mul_body X Y dom) (Np.zeros (Np.len dom)) = Returns acc ∧
    length acc = length dom ∧
    (Np.sum acc
     == bigsum (λ o, cell Ydist o
                     * Np.sum Xdist ^ zcell (AleatoryVariable.domain Y) o) k)%Q ∧
    ∀ i, (cell acc i
          == bigsum (λ o, cell Ydist o
                          * pow_mass_at X (zcell (AleatoryVariable.domain Y) o)
                              (lox * loy + Z.of_nat i)) k)%Q.
Proof using HX HY HcX HcY HX0 HY0 HXnn HXpos.
  induction k as [|k IH]; intros Hk.
  - eexists. split; [done|].
    split; [rewrite length_zeros; unfold Np.len; lia|].
    split; [by rewrite sum_zeros|].
    intros i. rewrite cell_zeros. reflexivity.
  - destruct IH as (a1 & Hrun & Hlen & Hsum & Hcell); [lia|].
    destruct (mul_body_cells a1 k ltac:(lia) Hlen) as (a2 & Hb & Hl2 & Hs2 & Hc2).
    exists a2. rewrite seq_S. simpl "+".
    rewrite (for_in_snoc _ _ _ _ _ Hrun). split; [done|]. split; [done|].
    split.
    + rewrite Hs2, Hsum. reflexivity.
    + intros i. rewrite Hc2, Hcell. reflexivity.
Qed.
End mul_law.

(** What [X * Y] returns, cell by cell: the mixture of the powers of [X]
    weighted by [Y], divided by its total. *)
Lemma mul_cells (X Y : AleatoryVariable.t) (lox hix loy hiy : Z) :
  aligned X → aligned Y →
  contiguous X lox hix → contiguous Y loy hiy →
  (0 <= lox)%Z → (0 <= loy)%Z →
  nonneg_mass (AleatoryVariable.distribution X) →
  nonneg_mass (AleatoryVariable.distribution Y) →
  (0 < Np.sum (AleatoryVariable.distribution X))%Q →
  (0 < Np.sum (AleatoryVariable.distribution Y))%Q →
  ∃ R, AleatoryVariable.mul X Y = Returns R ∧
    AleatoryVariable.domain R = Np.arange (lox * loy) (hix * hiy + 1) ∧
    aligned R ∧
    (0 < mixture_total X Y)%Q ∧
    ∀ i, (cell (AleatoryVariable.distribution R) i
          == mixture X Y (lox * loy + Z.of_nat i) / mixture_total X Y)%Q.
Proof.
  intros HX HY HcX HcY HX0 HY0 HXnn HYnn HXpos HYpos.
  pose proof HcX as [HleX HdX]. pose proof HcY as [HleY HdY].
  destruct (mul_returns X Y lox hix loy hiy HX HY HcX HcY HX0 HY0 HXnn HYnn
              HXpos HYpos) as (acc & _ & Hacc & Hpos & _).
  destruct (mul_prefix_cells X Y lox hix loy hiy HX HY HcX HcY HX0 HY0 HXnn
              HXpos (length (AleatoryVariable.distribution Y)) (Nat.le_refl _))
    as (acc' & Hrun & Hlen & Hsum & Hcell).
  assert (Hacc' : AleatoryVariable.mul_acc X Y (Np.arange (lox * loy) (hix * hiy + 1))
                  = Returns acc').
  { unfold AleatoryVariable.mul_acc, Np.range, AleatoryVariable.len.
    rewrite <- HY. exact Hrun. }
  rewrite Hacc' in Hacc. injection Hacc as <-.
  assert (Hnz : ¬ (Np.sum acc' == 0)%Q) by lra.
  destruct (normalize_spec acc' Hnz) as [Hnorm _].
  exists (AleatoryVariable.mk (Np.arange (lox * loy) (hix * hiy + 1))
            (map (λ x, (x / Np.sum acc')%Q) acc')).
  split.
  { unfold AleatoryVariable.mul, AleatoryVariable.mul_domain.
    rewrite HdX, HdY, !index_arange_first, !index_arange_last by done.
    rewrite !bind_Returns_l, Hacc', bind_Returns_l, Hnorm. done. }
  split; [done|].
  split; [unfold aligned; simpl; by rewrite length_map|].
  fold (mixture_total X Y) in Hsum.
  split; [by rewrite <- Hsum|].
  intros i. simpl. rewrite normalize_cell, Hcell, Hsum. reflexivity.
Qed.

Lemma pow_mass_at_nonneg (X : AleatoryVariable.t) (lox hix v w : Z) :
  aligned X → contiguous X lox hix →
  nonneg_mass (AleatoryVariable.distribution X) →
  (0 < Np.sum (AleatoryVariable.distribution X))%Q →
  (0 <= v)%Z →
  (0 <= pow_mass_at X v w)%Q ∧ ((w < lox * v)%Z → pow_mass_at X v w = 0%Q).
Proof.
  intros HX HcX HXnn HXpos Hv.
  destruct (pow_count_spec X lox hix HX HcX HXnn HXpos v Hv)
    as (T & _ & _ & _ & HTnn & _ & ->).
  destruct (Z.leb_spec (lox * v) w); split; try (done || lia).
  by apply cell_nonneg.
Qed.

Lemma zcell_arange (lo hi : Z) (o : nat) :
  (Z.of_nat o <= hi - lo)%Z →
  zcell (Np.arange lo (hi + 1)) o = (lo + Z.of_nat o)%Z.
Proof.
  intros H. apply zcell_lookup. unfold Np.arange.
  by rewrite lookup_seqZ_lt by lia.
Qed.





(** ** Products over negative values *)

Lemma where_first_absent (l : list Z) (x : Z) :
  x ∉ l → Np.where_first l x = Raises IndexError.
Proof.
  induction l as [|y l IH]; intros H; [done|]. simpl.
  destruct (Z.eqb_spec y x) as [->|_]; [exfalso; apply H; left|].
  rewrite IH; [done|]. intros Hx. apply H. by right.
Qed.

Lemma pow_one (X : AleatoryVariable.t) (lo hi : Z) :
  contiguous X lo hi → AleatoryVariable.pow X 1 = Returns X.
Proof.
  intros [Hle Hdom]. unfold AleatoryVariable.pow. simpl "=?". cbv iota.
  rewrite Hdom, index_arange_first, index_arange_last by done. simpl.
  rewrite !Z.mul_1_r, <- Hdom. by destruct X.
Qed.

(** A product whose left operand has a negative value and whose right
    operand is a count of at least one raises [IndexError]. *)
Lemma mul_negative_minimum (X Y : AleatoryVariable.t)
    (lox hix hiy : Z) :
  aligned X → contiguous X lox hix → (lox < 0)%Z →
  aligned Y → contiguous Y 0 hiy → (1 <= hiy)%Z →
  AleatoryVariable.mul X Y = Raises IndexError.
Proof.
  intros HX HcX Hneg HY HcY Hh.
  pose proof HcX as [HleX HdX]. pose proof HcY as [HleY HdY].
  assert (HlY : length (AleatoryVariable.distribution Y) = Z.to_nat (hiy + 1 - 0)).
  { rewrite HY, HdY. apply length_arange. }
  unfold AleatoryVariable.mul, AleatoryVariable.mul_domain.
  rewrite HdX, HdY, !index_arange_first, !index_arange_last by done.
  rewrite !bind_Returns_l, Z.mul_0_r.
  set (dom := Np.arange 0 (hix * hiy + 1)).
  assert (Hacc : AleatoryVariable.mul_acc X Y dom = Raises IndexError);
    [|by rewrite Hacc].
  unfold AleatoryVariable.mul_acc, Np.range, AleatoryVariable.len.
  rewrite <- HY, HlY.
  destruct (Z.to_nat (hiy + 1 - 0)) as [|[|k]] eqn:Ek; [lia | lia |].
  assert (H0 : AleatoryVariable.domain Y !! 0 = Some 0%Z).
  { rewrite HdY. unfold Np.arange. by rewrite lookup_seqZ_lt by lia. }
  assert (H1 : AleatoryVariable.domain Y !! 1 = Some 1%Z).
  { rewrite HdY. unfold Np.arange. by rewrite lookup_seqZ_lt by lia. }
  assert (Hp0 := lookup_cell (AleatoryVariable.distribution Y) 0 ltac:(lia)).
  assert (Hp1 := lookup_cell (AleatoryVariable.distribution Y) 1 ltac:(lia)).
  cbn [seq for_in].
  rewrite (item_Returns _ _ _ H0), bind_Returns_l.
  change (AleatoryVariable.pow X 0)
    with (Returns (AleatoryVariable.mk [0%Z] [1%Q])).
  rewrite bind_Returns_l, (item_Returns _ _ _ Hp0), bind_Returns_l.
  cbn [AleatoryVariable.domain AleatoryVariable.distribution map].
  change (Np.index [0%Z] 0) with (Returns 0%Z). rewrite bind_Returns_l.
  destruct (decide (0 <= hix * hiy)%Z) as [Hd|Hd].
  - assert (Hw : Np.where_first dom 0 = Returns 0)
      by (unfold dom; by rewrite where_first_arange by lia).
    rewrite Hw, bind_Returns_l.
    change (length [0%Z]) with 1.
    set (v := [(1 * cell (AleatoryVariable.distribution Y) 0)%Q]).
    destruct (slice_iadd_spec (Np.zeros (Np.len dom)) 0 v)
      as (acc1 & Hrun & _).
    { rewrite length_zeros. unfold Np.len, dom.
      rewrite Nat2Z.id, length_arange. simpl. lia. }
    change (length v) with 1 in Hrun.
    rewrite Hrun, bind_Returns_l.
    rewrite (item_Returns _ _ _ H1), bind_Returns_l.
    rewrite (pow_one X lox hix HcX), bind_Returns_l.
    rewrite (item_Returns _ _ _ Hp1), bind_Returns_l.
    rewrite HdX, index_arange_first by done. rewrite bind_Returns_l.
    rewrite where_first_absent; [done|].
    unfold dom, Np.arange. rewrite elem_of_seqZ. lia.
  - rewrite where_first_absent; [done|].
    unfold dom, Np.arange. rewrite elem_of_seqZ. lia.
Qed.




(** ** Health along a run *)

(** The product of two countable variables is a probability distribution. *)
Lemma mul_distribution (X Y : AleatoryVariable.t) :
  countable X → countable Y →
  ∃ R, AleatoryVariable.mul X Y = Returns R ∧
    aligned R ∧
    nonneg_mass (AleatoryVariable.distribution R) ∧
    (Np.sum (AleatoryVariable.distribution R) == 1)%Q.
Proof.
  intros (HX & (lox & hix & HcX & HX0) & HXnn & HXpos)
         (HY & (loy & hiy & HcY & HY0) & HYnn & HYpos).
  destruct (mul_returns X Y lox hix loy hiy HX HY HcX HcY HX0 HY0 HXnn HYnn
              HXpos HYpos) as (_ & R & _ & _ & HR & _ & Hal & Hsum).
  destruct (mul_cells X Y lox hix loy hiy HX HY HcX HcY HX0 HY0 HXnn HYnn
              HXpos HYpos) as (R' & HR' & _ & _ & Htot & Hcell).
  rewrite HR in HR'. injection HR' as <-.
  exists R. split; [done|]. split; [done|]. split; [|done].
  pose proof HcY as [HleY HdY].
  assert (HlY : length (AleatoryVariable.distribution Y) = Z.to_nat (hiy + 1 - loy)).
  { rewrite HY, HdY. apply length_arange. }
  apply nonneg_of_cells. intros i. rewrite Hcell.
  apply Qle_shift_div_l; [done|]. rewrite Qmult_0_l.
  apply bigsum_nonneg. intros o Ho.
  apply Qmult_le_0_compat; [by apply cell_nonneg|].
  rewrite HdY, zcell_arange by lia.
  apply (pow_mass_at_nonneg X lox hix _ _ HX HcX HXnn HXpos). lia.
Qed.

Lemma advance_round_healthy (m : CombatModel.t) (ha hb : Z) :
  runnable m → Forall (healthy_round ha hb) (CombatModel.rounds m) →
  ∃ m', CombatModel.advance_round m None = Returns m' ∧
    runnable m' ∧ Forall (healthy_round ha hb) (CombatModel.rounds m').
Proof.
  intros (Hc & (r & hpa0 & hpb0 & Hlast & Hra0 & Hrb0 & _) & Hah & Hbh & Hda & Hdb)
         Hall.
  assert (Hr : healthy_round ha hb r).
  { rewrite last_lookup in Hlast. by apply (Forall_lookup_1 _ _ _ _ Hall Hlast). }
  destruct Hr as (hpa & hpb & Hra & Hrb & (Hda1 & Hala & Hnna & Hsa)
                                         & (Hdb1 & Halb & Hnnb & Hsb)).
  unfold CombatModel.advance_round.
  assert (Hprev : Np.index (CombatModel.rounds m) (CombatModel.round_number m)
                  = Returns r).
  { destruct Hc as [Hc Hne]. rewrite Hc. unfold Np.len.
    rewrite last_lookup in Hlast.
    assert (0 < length (CombatModel.rounds m))
      by (destruct (CombatModel.rounds m); [done | simpl; lia]).
    apply index_nonneg; [lia|].
    replace (Z.to_nat (Z.of_nat (length (CombatModel.rounds m)) - 1))
      with (pred (length (CombatModel.rounds m))) by lia.
    done. }
  rewrite Hprev, bind_Returns_l. simpl default.
  change (RoundModel.get RoundModel.empty _ ?x) with x.
  destruct (mul_distribution _ _ Hda Hah) as (da & E1 & Hala' & Hnna' & Hsa').
  destruct (mul_distribution _ _ Hdb Hbh) as (db & E2 & Halb' & Hnnb' & Hsb').
  rewrite E1, E2, !bind_Returns_l, Hra, Hrb. simpl CombatModel.hp_minus.
  destruct (sub_distribution hpa db Hala Halb' Hnna Hnnb')
    as (ha' & E3 & Hd3 & Hal3 & Hnn3 & Hs3).
  destruct (sub_distribution hpb da Halb Hala' Hnnb Hnna')
    as (hb' & E4 & Hd4 & Hal4 & Hnn4 & Hs4).
  rewrite E3, E4, !bind_Returns_l. eexists. split; [done|].
  split; [split; [|split; [|done]]|].
  - destruct Hc as [Hc Hne]. split; simpl.
    + rewrite Hc. unfold Np.len. rewrite length_app. simpl. lia.
    + by destruct (CombatModel.rounds m).
  - simpl. eexists _, ha', hb'. rewrite last_snoc. done.
  - simpl. apply Forall_app. split; [done|]. constructor; [|done].
    exists ha', hb'. split; [done|]. split; [done|].
    split; (split; [congruence|]; split; [done|]; split; [done|]).
    + rewrite Hs3, Hsa, Hsb'. reflexivity.
    + rewrite Hs4, Hsb, Hsa'. reflexivity.
Qed.

(** X13. Health stays a probability distribution.  For two characters the
    engine can run, with starting healths that are not negative, the
    construction and an evidence-free [simulate] both return, and in every
    round of the history the two health variables are aligned over
    [0..health + 1], have no negative mass and have total 1. *)
Theorem health_stays_distribution (a b : Character.t) (mr : Z) :
  sane_character a → sane_character b →
  (0 <= Character.health a)%Z → (0 <= Character.health b)%Z →
  ∃ m0 m', CombatModel.init a b mr = Returns m0 ∧
    CombatModel.simulate m0 None = Returns m' ∧
    Forall (healthy_round (Character.health a) (Character.health b))
      (CombatModel.rounds m').
Proof.
  intros Ha Hb Hha Hhb.
  destruct (init_returns a b mr Ha Hb Hha Hhb) as [m0 Hm0].
  pose proof (init_runnable a b mr m0 Ha Hb Hm0) as Hrun0.
  destruct (init_inv a b mr m0 Hm0) as (hpa & hpb & Hr0 & Hpa & Hpb & _).
  assert (H0 : Forall (healthy_round (Character.health a) (Character.health b))
                 (CombatModel.rounds m0)).
  { rewrite Hr0. constructor; [|done]. exists hpa, hpb.
    split; [done|]. split; [done|].
    destruct (point_mass_sum _ _ _ _ Hpa) as [Hsa Hnna].
    destruct (point_mass_sum _ _ _ _ Hpb) as [Hsb Hnnb].
    destruct Hpa as (_ & Hda & Hala & _). destruct Hpb as (_ & Hdb & Halb & _).
    split; (split; [done|]; split; [done|]; split; done). }
  exists m0. unfold CombatModel.simulate. simpl default.
  destruct (for_in_invariant
              (λ m, runnable m ∧
                 Forall (healthy_round (Character.health a) (Character.health b))
                   (CombatModel.rounds m))
              (Np.arange 1 (CombatModel.max_rounds m0))
              (λ self _, CombatModel.advance_round self
                 ((∅ : gmap Z RoundModel.t) !! (CombatModel.round_number self + 1)%Z))
              m0 (conj Hrun0 H0)) as (m' & Hrun & _ & Hall).
  - intros s x _ [Hs1 Hs2]. rewrite lookup_empty.
    destruct (advance_round_healthy s _ _ Hs1 Hs2) as (s' & E & H1 & H2).
    by exists s'.
  - by exists m'.
Qed.

Lemma health_stays_distribution_witness :
  ∃ m0 m', CombatModel.init duel_8_characters.1 duel_8_characters.2 3
           = Returns m0 ∧
    CombatModel.simulate m0 None = Returns m' ∧
    Forall (healthy_round 8 8) (CombatModel.rounds m').
Proof.
  apply (health_stays_distribution duel_8_characters.1 duel_8_characters.2 3
           (proj1 duel_8_sane) (proj2 duel_8_sane)); simpl; lia.
Defined.

(** ** Resuming a simulation *)

(** X14. [simulate] counts rounds from where the model stands, not from
    round 0.  From any state whose cursor is on its last round, a
    [simulate] that returns has appended [max_rounds - 1] round states to
    the history that was there (none when [max_rounds <= 1]), each derived
    from the state before it and from the evidence under its absolute round
    number; the cursor is again on the last round and the constants are
    unchanged.  So a second [simulate] does not stop at [max_rounds] states:
    it appends another [max_rounds - 1]. *)
Theorem simulate_resumes (m m' : CombatModel.t)
    (ev : option (gmap Z RoundModel.t)) :
  cursor_ok m →
  CombatModel.simulate m ev = Returns m' →
  cursor_ok m' ∧
  consts m' = consts m ∧
  (∃ new, CombatModel.rounds m' = CombatModel.rounds m ++ new ∧
     length new = Z.to_nat (CombatModel.max_rounds m - 1)) ∧
  (∀ j, j < Z.to_nat (CombatModel.max_rounds m - 1) →
     ∃ prev r,
       CombatModel.rounds m' !! (length (CombatModel.rounds m) + j - 1) = Some prev ∧
       CombatModel.rounds m' !! (length (CombatModel.rounds m) + j) = Some r ∧
       next_round m
         (default RoundModel.empty
            (default ∅ ev !! Z.of_nat (length (CombatModel.rounds m) + j)))
         prev r) ∧
  (∀ ev2 m'', CombatModel.simulate m' ev2 = Returns m'' →
     length (CombatModel.rounds m'')
     = length (CombatModel.rounds m)
       + 2 * Z.to_nat (CombatModel.max_rounds m - 1)).
Proof.
  intros Hc Hs.
  destruct (simulate_loop_spec (default ∅ ev)
              (Np.arange 1 (CombatModel.max_rounds m)) m m' Hc Hs)
    as (Hc' & Hk & (new & Hnew & Hlen) & Hstep).
  rewrite length_arange in Hlen, Hstep.
  split; [done|]. split; [done|]. split; [by exists new|]. split; [done|].
  intros ev2 m'' Hs2.
  destruct (simulate_loop_spec (default ∅ ev2)
              (Np.arange 1 (CombatModel.max_rounds m')) m' m'' Hc' Hs2)
    as (_ & _ & (new2 & Hnew2 & Hlen2) & _).
  assert (Hmr : CombatModel.max_rounds m' = CombatModel.max_rounds m).
  { unfold consts in Hk. by injection Hk. }
  rewrite length_arange, Hmr in Hlen2.
  rewrite Hnew2, Hnew, !length_app, Hlen, Hlen2. lia.
Qed.

Lemma simulate_resumes_witness :
  cursor_ok duel_8_start ∧
  CombatModel.simulate duel_8_start (Some evidence_six) = Returns duel_8_final ∧
  cursor_ok duel_8_final ∧
  ∀ ev2 m'', CombatModel.simulate duel_8_final ev2 = Returns m'' →
    length (CombatModel.rounds m'') = 5.
Proof.
  assert (Hc : cursor_ok duel_8_start) by (split; [reflexivity | done]).
  assert (Hs : CombatModel.simulate duel_8_start (Some evidence_six)
               = Returns duel_8_final) by (vm_compute; reflexivity).
  destruct (simulate_resumes duel_8_start duel_8_final (Some evidence_six) Hc Hs)
    as (Hc' & _ & _ & _ & Htwice).
  split; [exact Hc|]. split; [exact Hs|]. split; [exact Hc'|].
  exact Htwice.
Defined.

(** ** Combined dice: range, label and totals *)

Lemma foldl_min_in (x : Z) (l : list Z) : foldl Z.min x l ∈ x :: l.
Proof.
  revert x. induction l as [|z l IH]; intros x; simpl; [left|].
  specialize (IH (Z.min x z)). apply elem_of_cons in IH as [->|IH].
  - destruct (Z.min_spec x z) as [[_ ->]|[_ ->]]; [left | right; left].
  - right. by right.
Qed.

Lemma foldl_max_in (x : Z) (l : list Z) : foldl Z.max x l ∈ x :: l.
Proof.
  revert x. induction l as [|z l IH]; intros x; simpl; [left|].
  specialize (IH (Z.max x z)). apply elem_of_cons in IH as [->|IH].
  - destruct (Z.max_spec x z) as [[_ ->]|[_ ->]]; [right; left | left].
  - right. by right.
Qed.

Lemma py_min_attained (l : list Z) (m : Z) : Dice.py_min l = Returns m → m ∈ l.
Proof. destruct l as [|x l]; [done|]. intros [= <-]. apply foldl_min_in. Qed.

Lemma py_max_attained (l : list Z) (m : Z) : Dice.py_max l = Returns m → m ∈ l.
Proof. destruct l as [|x l]; [done|]. intros [= <-]. apply foldl_max_in. Qed.

(** What [Dice.combine] builds from a non-empty list of well-formed dice. *)
Lemma combine_spec (dices : list Dice.t) :
  dices ≠ [] →
  Forall (λ d, ∃ lo hi, dice_ok d lo hi) dices →
  ∃ tot L U,
    Dice.combine dices = Returns tot ∧
    dice_ok tot L U ∧
    (L <= 0 <= U)%Z ∧
    Forall (fits L U) dices ∧
    (L = 0%Z ∨ ∃ d hi, d ∈ dices ∧ dice_ok d L hi) ∧
    (U = 0%Z ∨ ∃ d lo, d ∈ dices ∧ dice_ok d lo U) ∧
    Dice.cardinality tot = (U - L + 1)%Z ∧
    Dice.string tot = Dice.join_plus (map Dice.string dices) ∧
    Dice.expected (Dice.values tot) (Dice.pmf tot) (Np.len (Dice.values tot))
    = Returns (Dice.avg tot) ∧
    (Np.sum (Dice.distribution tot) == inject_Z (Z.of_nat (length dices)))%Q ∧
    (∀ i, (cell (Dice.distribution tot) i
           == Np.sum (map (λ d, pmf_at d (L + Z.of_nat i)) dices))%Q) ∧
    (∀ i, (cell (Dice.pmf tot) i
           == cell (Dice.distribution tot) i
              / inject_Z (Z.of_nat (length dices)))%Q).
Proof.
  intros Hne Hok. unfold Dice.combine.
  set (glo := λ d : Dice.t,
    match Np.index (Dice.values d) 0 with Returns x => x | _ => 0%Z end).
  set (ghi := λ d : Dice.t,
    match Np.index (Dice.values d) (-1) with Returns x => x | _ => 0%Z end).
  assert (Hg : ∀ d, d ∈ dices → ∀ lo hi, dice_ok d lo hi →
            glo d = lo ∧ ghi d = hi ∧
            Np.index (Dice.values d) 0 = Returns (glo d) ∧
            Np.index (Dice.values d) (-1) = Returns (ghi d)).
  { intros d _ lo hi Hd. apply dice_ok_bounds in Hd as (H0 & H1 & _).
    unfold glo, ghi. rewrite H0, H1. done. }
  rewrite (mapM_map (λ d, Np.index (Dice.values d) 0) glo).
  2:{ intros d Hd. destruct (proj1 (Forall_forall _ _) Hok d Hd) as (lo & hi & Hdk).
      by destruct (Hg d Hd lo hi Hdk) as (_ & _ & E & _). }
  simpl.
  destruct (py_min_spec (map glo dices)) as (low & Elow & Hlow);
    [by destruct dices|].
  pose proof (py_min_attained _ _ Elow) as Hlin. rewrite Elow. simpl.
  rewrite (mapM_map (λ d, Np.index (Dice.values d) (-1)) ghi).
  2:{ intros d Hd. destruct (proj1 (Forall_forall _ _) Hok d Hd) as (lo & hi & Hdk).
      by destruct (Hg d Hd lo hi Hdk) as (_ & _ & _ & E). }
  simpl.
  destruct (py_max_spec (map ghi dices)) as (upp & Eupp & Hupp);
    [by destruct dices|].
  pose proof (py_max_attained _ _ Eupp) as Huin. rewrite Eupp. simpl.
  set (L := (low - (if (low <=? 0)%Z then 0 else low))%Z).
  set (U := (upp - (if (upp >=? 0)%Z then 0 else upp))%Z).
  assert (HL : (L <= 0)%Z ∧ (L <= low)%Z ∧ (L = 0 ∨ L = low)%Z).
  { unfold L. destruct (Z.leb_spec low 0); lia. }
  assert (HU : (0 <= U)%Z ∧ (upp <= U)%Z ∧ (U = 0 ∨ U = upp)%Z).
  { unfold U. destruct (Z.geb_spec upp 0); lia. }
  assert (Hbnd : ∀ d, d ∈ dices → ∀ lo hi, dice_ok d lo hi → (L <= lo)%Z ∧ (hi <= U)%Z).
  { intros d Hd lo hi Hdk. destruct (Hg d Hd lo hi Hdk) as (Hl & Hh & _).
    pose proof (Hlow (glo d) (list_elem_of_fmap_2 glo _ _ Hd)).
    pose proof (Hupp (ghi d) (list_elem_of_fmap_2 ghi _ _ Hd)). lia. }
  assert (Hfits : Forall (fits L U) dices).
  { apply Forall_forall. intros d Hd.
    destruct (proj1 (Forall_forall _ _) Hok d Hd) as (lo & hi & Hdk).
    exists lo, hi. split; [done|]. exact (Hbnd d Hd lo hi Hdk). }
  change (for_in dices _ ?acc) with (for_in dices (combine_body L U) acc).
  destruct (combine_loop_spec L U dices (Np.zeros (Np.len (Np.arange L (U + 1)))) Hfits)
    as (probab & Hrun & Hlen & Hsum & Hcell).
  { rewrite length_zeros. unfold Np.len. by rewrite Nat2Z.id, length_arange. }
  rewrite Hrun, bind_Returns_l.
  set (k := length dices) in *.
  assert (Hk : (0 < inject_Z (Z.of_nat k))%Q).
  { change 0%Q with (inject_Z 0). rewrite <- Zlt_Qlt.
    unfold k. destruct dices; [done | simpl; lia]. }
  assert (Htot : (Np.sum probab == inject_Z (Z.of_nat k))%Q).
  { rewrite Hsum, sum_zeros. ring. }
  assert (Hnz : ¬ (Np.sum probab == 0)%Q) by lra.
  destruct (normalize_spec probab Hnz) as [-> Hone]. simpl.
  set (pmf_ := map (λ x, (x / Np.sum probab)%Q) probab) in *.
  rewrite length_zeros in Hlen. unfold Np.len in Hlen. rewrite Nat2Z.id in Hlen.
  assert (Hpl : length pmf_ = length (Np.arange L (U + 1))).
  { unfold pmf_. by rewrite length_map. }
  destruct (expected_Returns _ _ Hpl) as [q Hq]. rewrite Hq. simpl.
  assert (Hp0 : ∀ i, (cell probab i
                     == Np.sum (map (λ d, pmf_at d (L + Z.of_nat i)) dices))%Q).
  { intros i. rewrite Hcell, cell_zeros. ring. }
  assert (Hdnn : ∀ v, (0 <= Np.sum (map (λ d, pmf_at d v) dices))%Q).
  { intros v. apply sum_nonneg. unfold nonneg_mass. rewrite Forall_map.
    apply Forall_forall. intros d Hd.
    destruct (proj1 (Forall_forall _ _) Hok d Hd) as (lo & hi & Hdk).
    rewrite (pmf_at_ok d lo hi v Hdk). destruct (lo <=? v)%Z; [|lra].
    apply cell_nonneg. by destruct Hdk as (_ & _ & _ & _ & Hnn & _). }
  eexists _, L, U. split; [done|].
  assert (Hdk : dice_ok {| Dice.distribution := probab;
                           Dice.values := Np.arange L (U + 1);
                           Dice.pmf := pmf_;
                           Dice.cdf := Np.cumsum pmf_;
                           Dice.cardinality := Np.len (Np.arange L (U + 1));
                           Dice.avg := q;
                           Dice.string := Dice.join_plus (map Dice.string dices) |}
                  L U).
  { split; [lia|]. split; [done|]. split; [done|]. split; [done|].
    split; [|done]. simpl. apply nonneg_normalize; [|lra].
    apply nonneg_of_cells. intros i. rewrite Hp0. apply Hdnn. }
  split; [done|]. split; [lia|]. split; [done|].
  split; [|split].
  - destruct HL as (_ & _ & [HL|HL]); [by left | right].
    rewrite HL. apply list_elem_of_fmap in Hlin as (d & Hd1 & Hd2).
    destruct (proj1 (Forall_forall _ _) Hok d Hd2) as (lo & hi & Hdk').
    destruct (Hg d Hd2 lo hi Hdk') as (Hl & _).
    exists d, hi. split; [done|]. by rewrite Hd1, Hl.
  - destruct HU as (_ & _ & [HU|HU]); [by left | right].
    rewrite HU. apply list_elem_of_fmap in Huin as (d & Hd1 & Hd2).
    destruct (proj1 (Forall_forall _ _) Hok d Hd2) as (lo & hi & Hdk').
    destruct (Hg d Hd2 lo hi Hdk') as (_ & Hh & _).
    exists d, lo. split; [done|]. by rewrite Hd1, Hh.
  - simpl. split; [unfold Np.len; rewrite length_arange; lia|].
    split; [done|]. split; [done|]. split; [done|]. split; [done|].
    intros i. unfold pmf_. by rewrite normalize_cell, Htot.
Qed.

Lemma sum_map_seq (g : nat → Q) (n : nat) :
  (Np.sum (map g (seq 0 n)) == bigsum g n)%Q.
Proof.
  induction n as [|n IH]; [reflexivity|].
  rewrite seq_S, map_app, sum_app, IH. simpl.
  rewrite sum_cons, sum_nil. ring.
Qed.

(** The value computed for [avg]: the sum of value times probability. *)
Lemma expected_spec (values : list Z) (pmf : list Q) (q : Q) :
  length pmf = length values →
  Dice.expected values pmf (Np.len values) = Returns q →
  (q == bigsum (λ i, inject_Z (zcell values i) * cell pmf i) (length values))%Q.
Proof.
  intros Hlen. unfold Dice.expected, Np.len, Np.range. rewrite Nat2Z.id.
  rewrite (mapM_map _ (λ i, inject_Z (zcell values i) * cell pmf i)%Q).
  - simpl. intros [= <-]. apply sum_map_seq.
  - intros i Hi. apply elem_of_seq in Hi.
    rewrite (item_Returns values i _ (lookup_zcell values i ltac:(lia))).
    rewrite (item_Returns pmf i _ (lookup_cell pmf i ltac:(lia))).
    done.
Qed.

Lemma bigsum_sum_swap {A : Type} (F : A → nat → Q) (l : list A) (n : nat) :
  (bigsum (λ i, Np.sum (map (λ d, F d i) l)) n
   == Np.sum (map (λ d, bigsum (F d) n) l))%Q.
Proof.
  induction l as [|d l IH]; simpl.
  - rewrite sum_nil. apply bigsum_zero. intros. reflexivity.
  - rewrite sum_cons, <- IH, <- bigsum_plus. apply bigsum_ext.
    intros i _. by rewrite sum_cons.
Qed.

Lemma bigsum_window (g : nat → Q) (s n : nat) :
  (bigsum (λ i, if decide (s ≤ i) then g (i - s)%nat else 0%Q) n
   == bigsum g (n - s)%nat)%Q.
Proof.
  induction n as [|n IH]; [reflexivity|]. simpl bigsum at 1. rewrite IH.
  destruct (decide (s ≤ n)) as [Hs|Hs].
  - replace (S n - s) with (S (n - s)) by lia. reflexivity.
  - replace (S n - s) with 0 by lia. replace (n - s) with 0 by lia.
    simpl. ring.
Qed.

Lemma bigsum_extend (g : nat → Q) (m n : nat) :
  m ≤ n → (∀ j, m ≤ j < n → (g j == 0)%Q) → (bigsum g n == bigsum g m)%Q.
Proof.
  induction n as [|n IH]; intros Hm Hz.
  - by replace m with 0 by lia.
  - destruct (decide (m = S n)) as [->|Hne]; [reflexivity|].
    simpl. rewrite IH, (Hz n) by (try lia; intros; apply Hz; lia). ring.
Qed.

(** The mean of an operand, summed over the range of the combination. *)
Lemma mean_over_range (L U : Z) (d : Dice.t) :
  fits L U d →
  (bigsum (λ i, inject_Z (L + Z.of_nat i) * pmf_at d (L + Z.of_nat i))
     (Z.to_nat (U + 1 - L))
   == mean d)%Q.
Proof.
  intros (lo & hi & Hdk & HL & HU).
  destruct (dice_ok_bounds d lo hi Hdk) as (_ & _ & Hlen & _).
  pose proof Hdk as (Hle & Hval & Hpl & _).
  set (s := Z.to_nat (lo - L)).
  set (g := λ j, (inject_Z (lo + Z.of_nat j) * cell (Dice.pmf d) j)%Q).
  rewrite (bigsum_ext _ (λ i, if decide (s ≤ i) then g (i - s) else 0%Q)).
  - rewrite bigsum_window.
    rewrite (bigsum_extend g (length (Dice.values d))).
    + unfold mean. apply bigsum_ext. intros j Hj. unfold g.
      rewrite Hval, zcell_arange by lia. reflexivity.
    + unfold s. lia.
    + intros j Hj. unfold g. rewrite cell_ge by lia. ring.
  - intros i _. rewrite (pmf_at_ok d lo hi _ Hdk).
    destruct (Z.leb_spec lo (L + Z.of_nat i)), (decide (s ≤ i));
      try (unfold s in *; lia); [|ring].
    unfold g. replace (lo + Z.of_nat (i - s))%Z with (L + Z.of_nat i)%Z
      by (unfold s; lia).
    replace (Z.to_nat (L + Z.of_nat i - lo)) with (i - s)
      by (unfold s; lia).
    reflexivity.
Qed.

(** X15. The range, the label and the average of combined dice.
    [Dice.combine()] without arguments raises [ValueError].  For a non-empty
    list of well-formed dice it returns a well-formed [Dice] over the
    tightest range [L..U] that contains 0 and every operand ([L] is 0 or the
    lowest value of an operand, [U] is 0 or the highest one); its
    cardinality is [U - L + 1], its label joins the labels of the operands
    with [" + "], its unnormalised [distribution] sums to the number of
    operands, and its [avg] is the mean of the operands' expected
    values. *)
Theorem combine_range_and_mean (dices : list Dice.t) :
  Dice.combine [] = Raises ValueError ∧
  (dices ≠ [] →
   Forall (λ d, ∃ lo hi, dice_ok d lo hi) dices →
   ∃ tot L U,
     Dice.combine dices = Returns tot ∧
     dice_ok tot L U ∧
     (L <= 0 <= U)%Z ∧
     Forall (fits L U) dices ∧
     (L = 0%Z ∨ ∃ d hi, d ∈ dices ∧ dice_ok d L hi) ∧
     (U = 0%Z ∨ ∃ d lo, d ∈ dices ∧ dice_ok d lo U) ∧
     Dice.cardinality tot = (U - L + 1)%Z ∧
     Dice.string tot = Dice.join_plus (map Dice.string dices) ∧
     (Np.sum (Dice.distribution tot) == inject_Z (Z.of_nat (length dices)))%Q ∧
     (Dice.avg tot
      == Np.sum (map mean dices) / inject_Z (Z.of_nat (length dices)))%Q).
Proof.
  split; [done|]. intros Hne Hok.
  destruct (combine_spec dices Hne Hok)
    as (tot & L & U & Hrun & Hdk & H0 & Hfits & HL & HU & Hcard & Hstr & Havg
        & Hsum & Hdist & Hpmf).
  exists tot, L, U. do 9 (split; [done|]).
  pose proof Hdk as (Hle & Hval & Hpl & _).
  assert (Hk : (0 < inject_Z (Z.of_nat (length dices)))%Q).
  { change 0%Q with (inject_Z 0). rewrite <- Zlt_Qlt.
    destruct dices; [done | simpl; lia]. }
  rewrite (expected_spec _ _ _ Hpl Havg), Hval, length_arange.
  rewrite (bigsum_ext _
    (λ i, Np.sum (map (λ d, inject_Z (L + Z.of_nat i)
                            * pmf_at d (L + Z.of_nat i))%Q dices)
          * / inject_Z (Z.of_nat (length dices)))%Q).
  - rewrite bigsum_scale, bigsum_sum_swap.
    assert (Hm : Forall2 Qeq
      (map (λ d, bigsum (λ i, inject_Z (L + Z.of_nat i)
                              * pmf_at d (L + Z.of_nat i))%Q
                   (Z.to_nat (U + 1 - L))) dices)
      (map mean dices)).
    { apply Forall2_fmap, Forall_Forall2_diag.
      eapply Forall_impl; [exact Hfits|]. intros d Hd. by apply mean_over_range. }
    assert (Hs : ∀ l1 l2, Forall2 Qeq l1 l2 → (Np.sum l1 == Np.sum l2)%Q).
    { induction 1 as [|x y l1 l2 Hxy _ IH]; [reflexivity|].
      by rewrite !sum_cons, Hxy, IH. }
    rewrite (Hs _ _ Hm). reflexivity.
  - intros i Hi. rewrite zcell_arange by lia. rewrite Hpmf, Hdist.
    rewrite <- (map_map (λ d, pmf_at d (L + Z.of_nat i))
                  (Qmult (inject_Z (L + Z.of_nat i)))).
    rewrite sum_map_mult. unfold Qdiv. ring.
Qed.

Lemma combine_range_and_mean_witness :
  ∃ tot L U, Dice.combine [ex_d4; ex_d2] = Returns tot ∧
    dice_ok tot L U ∧
    (L <= 0 <= U)%Z ∧
    Forall (fits L U) [ex_d4; ex_d2] ∧
    Dice.cardinality tot = (U - L + 1)%Z ∧
    (Dice.avg tot == Np.sum (map mean [ex_d4; ex_d2]) / 2)%Q.
Proof.
  destruct (combine_range_and_mean [ex_d4; ex_d2]) as [_ H].
  destruct H
    as (tot & L & U & Hrun & Hdk & H0 & Hfit & _ & _ & Hcard & _ & _ & Havg).
  - done.
  - repeat constructor;
      [exists 1%Z, 4%Z; apply ex_d4_ok | exists 1%Z, 2%Z; apply ex_d2_ok].
  - exists tot, L, U. split; [done|]. split; [done|]. split; [done|].
    split; [done|]. split; [done|]. exact Havg.
Defined.

(** ** Boons: the highest or the lowest of several rolls *)

Lemma cell_map_lt (f : Q → Q) (l : list Q) (k : nat) :
  k < length l → cell (map f l) k = f (cell l k).
Proof.
  intros Hk. unfold cell. rewrite !nth_lookup, list_lookup_fmap.
  destruct (lookup_lt_is_Some_2 l k Hk) as [x ->]. done.
Qed.

Lemma cumsum_replicate_cell (m k : nat) (c : Q) :
  k < m →
  (cell (Np.cumsum (replicate m c)) k == inject_Z (Z.of_nat (S k)) * c)%Q.
Proof.
  intros Hk.
  destruct (lookup_lt_is_Some_2 (Np.cumsum (replicate m c)) k) as [x Hx].
  { by rewrite length_cumsum, length_replicate. }
  rewrite (cell_lookup _ _ _ Hx), (cumsum_lookup _ _ _ Hx).
  rewrite take_replicate, sum_replicate.
  by replace (S k `min` m) with (S k) by lia.
Qed.

Lemma length_diff1 (c : list Q) : length (Np.diff1 c) = length c.
Proof.
  destruct c as [|x c]; [done|]. simpl. rewrite length_zip_with. simpl. lia.
Qed.

Lemma diff1_cell (c : list Q) (k : nat) :
  k < length c →
  cell (Np.diff1 c) k
  = match k with
    | 0 => cell c 0
    | S j => (cell c (S j) - cell c j)%Q
    end.
Proof.
  destruct c as [|x c]; [simpl; lia|]. intros Hk.
  destruct k as [|j]; [done|]. simpl in Hk.
  unfold cell. rewrite !nth_lookup. simpl. rewrite lookup_zip_with.
  destruct (lookup_lt_is_Some_2 c j ltac:(lia)) as [a ->].
  destruct (lookup_lt_is_Some_2 (x :: c) j ltac:(simpl; lia)) as [b ->].
  done.
Qed.

(** First differences telescope. *)
Lemma sum_diff1 (c : list Q) :
  c ≠ [] → (Np.sum (Np.diff1 c) == cell c (length c - 1))%Q.
Proof.
  intros Hne.
  assert (H : ∀ m, m < length c → (bigsum (cell (Np.diff1 c)) (S m) == cell c m)%Q).
  { induction m as [|m IH]; intros Hm.
    - simpl. rewrite diff1_cell by done. ring.
    - simpl bigsum. simpl bigsum in IH. rewrite IH by lia.
      rewrite (diff1_cell c (S m)) by done. ring. }
  rewrite <- bigsum_cells, length_diff1.
  destruct c as [|x c]; [done|]. simpl length.
  rewrite Nat.sub_succ, Nat.sub_0_r. apply H. simpl. lia.
Qed.

Lemma cell_reverse (l : list Q) (k : nat) :
  k < length l → cell (reverse l) k = cell l (length l - 1 - k).
Proof.
  intros Hk. unfold cell. rewrite !nth_lookup, reverse_lookup by done.
  by replace (length l - S k) with (length l - 1 - k) by lia.
Qed.

Section boons.
Variables (n die : Z).
Hypothesis Hdie : (0 < die)%Z.
Hypothesis Hn : n ≠ 0%Z.

(** The probability that a roll of the [die] is at most [j]. *)
Let at_most (j : Z) : Q := (inject_Z j / inject_Z die)%Q.

Let cdf := map (λ x, Qpower x (Z.abs n))
             (Np.cumsum (Np.full die (1 / inject_Z die))).

Lemma boon_cdf_length : length cdf = Z.to_nat die.
Proof using Type.
  unfold cdf, Np.full. by rewrite length_map, length_cumsum, length_replicate.
Qed.

Lemma boon_cdf_cell (k : nat) :
  k < Z.to_nat die →
  (cell cdf k == at_most (Z.of_nat k + 1) ^ Z.abs n)%Q.
Proof using Type.
  intros Hk. unfold cdf, Np.full.
  rewrite cell_map_lt by (by rewrite length_cumsum, length_replicate).
  rewrite (cumsum_replicate_cell _ _ _ Hk). unfold at_most.
  replace (Z.of_nat (S k)) with (Z.of_nat k + 1)%Z by lia.
  apply Qpower_comp; [|done]. unfold Qdiv. ring.
Qed.

Lemma at_most_mono (i j : Z) :
  (0 <= i <= j)%Z →
  (0 <= at_most i ^ Z.abs n <= at_most j ^ Z.abs n)%Q.
Proof using Hdie.
  intros Hij.
  assert (Hd : (0 < inject_Z die)%Q)
    by (change 0%Q with (inject_Z 0); by rewrite <- Zlt_Qlt).
  assert (H0 : (0 <= at_most i)%Q).
  { unfold at_most. apply Qle_shift_div_l; [done|]. rewrite Qmult_0_l.
    change 0%Q with (inject_Z 0). rewrite <- Zle_Qle. lia. }
  assert (H1 : (at_most i <= at_most j)%Q).
  { unfold at_most, Qdiv. apply Qmult_le_compat_r.
    - rewrite <- Zle_Qle. lia.
    - apply Qlt_le_weak, Qinv_lt_0_compat, Hd. }
  split; [by apply Qpower_0_le | by apply Qpower_abs_mono].
Qed.

(** The cells before the flip: the probability that the highest of [|n|]
    rolls is exactly [k + 1]. *)
Lemma boon_diff_cell (k : nat) :
  k < Z.to_nat die →
  (cell (Np.diff1 cdf) k
   == at_most (Z.of_nat k + 1) ^ Z.abs n - at_most (Z.of_nat k) ^ Z.abs n)%Q.
Proof using Hn.
  intros Hk. rewrite diff1_cell by (by rewrite boon_cdf_length).
  destruct k as [|j].
  - rewrite boon_cdf_cell by done.
    assert (Hz : (at_most (Z.of_nat 0) ^ Z.abs n == 0)%Q).
    { unfold at_most. simpl inject_Z. unfold Qdiv. rewrite Qmult_0_l.
      apply Qpower_0. lia. }
    rewrite Hz. ring.
  - rewrite !boon_cdf_cell by lia.
    replace (Z.of_nat j + 1)%Z with (Z.of_nat (S j)) by lia. reflexivity.
Qed.

Lemma boon_diff_spec :
  length (Np.diff1 cdf) = Z.to_nat die ∧
  nonneg_mass (Np.diff1 cdf) ∧
  (Np.sum (Np.diff1 cdf) == 1)%Q.
Proof using Hdie Hn.
  pose proof boon_cdf_length as Hlen.
  split; [by rewrite length_diff1|]. split.
  - apply nonneg_of_cells. intros k.
    destruct (decide (k < Z.to_nat die)) as [Hk|Hk].
    + rewrite boon_diff_cell by done.
      pose proof (at_most_mono (Z.of_nat k) (Z.of_nat k + 1) ltac:(lia)). lra.
    + rewrite cell_ge by (rewrite length_diff1; lia). lra.
  - rewrite sum_diff1 by (intros E; rewrite E in Hlen; simpl in Hlen; lia).
    rewrite boon_cdf_cell by lia. rewrite Hlen. unfold at_most.
    replace (Z.of_nat (Z.to_nat die - 1) + 1)%Z with die by lia.
    assert (H1 : (inject_Z die / inject_Z die == 1)%Q).
    { field. change 0%Q with (inject_Z 0). rewrite inject_Z_injective. lia. }
    rewrite H1. apply Qpower_1.
Qed.
End boons.

(** X17. The boon distribution is the law of the highest of [|n|] rolls,
    or of the lowest for a negative [n].  For a [die] with at least one
    face and [n] other than 0, [_boon_distribution(n, die)] has one cell per
    face, no negative cell and total 1; for [n > 0] the cell [k] is
    [((k + 1) / die) ** n - (k / die) ** n], the probability that the
    highest of [n] rolls is [k + 1], and for [n < 0] the cells are those of
    [-n] in reverse order. *)
Theorem boon_keep_highest (n die : Z) :
  (0 < die)%Z → n ≠ 0%Z →
  length (Dice._boon_distribution n die) = Z.to_nat die ∧
  nonneg_mass (Dice._boon_distribution n die) ∧
  (Np.sum (Dice._boon_distribution n die) == 1)%Q ∧
  ∀ k, k < Z.to_nat die →
    (cell (Dice._boon_distribution n die) k
     == let j := if (n <? 0)%Z then (die - 1 - Z.of_nat k)%Z else Z.of_nat k in
        (inject_Z (j + 1) / inject_Z die) ^ Z.abs n
        - (inject_Z j / inject_Z die) ^ Z.abs n)%Q.
Proof.
  intros Hdie Hn.
  destruct (boon_diff_spec n die Hdie Hn) as (Hlen & Hnn & Hsum).
  unfold Dice._boon_distribution.
  destruct (Z.ltb_spec n 0) as [Hneg|Hpos]; unfold Np.flip.
  - split; [by rewrite length_reverse|].
    split; [by apply nonneg_reverse|]. split; [by rewrite sum_reverse|].
    intros k Hk. rewrite cell_reverse by lia. rewrite Hlen.
    rewrite (boon_diff_cell n die Hn) by lia. simpl.
    replace (Z.of_nat (Z.to_nat die - 1 - k)) with (die - 1 - Z.of_nat k)%Z
      by lia.
    reflexivity.
  - split; [done|]. split; [done|]. split; [done|].
    intros k Hk. by rewrite (boon_diff_cell n die Hn).
Qed.

Lemma boon_keep_highest_witness :
  length (Dice._boon_distribution 2 6) = 6 ∧
  (Np.sum (Dice._boon_distribution 2 6) == 1)%Q ∧
  (cell (Dice._boon_distribution 2 6) 5 == 11 # 36)%Q ∧
  (cell (Dice._boon_distribution (-2) 6) 0 == 11 # 36)%Q.
Proof.
  destruct (boon_keep_highest 2 6 ltac:(lia) ltac:(lia))
    as (Hlen & _ & Hsum & Hcell).
  destruct (boon_keep_highest (-2) 6 ltac:(lia) ltac:(lia))
    as (_ & _ & _ & Hcell').
  split; [exact Hlen|]. split; [exact Hsum|]. split.
  - rewrite (Hcell 5) by (simpl; lia). reflexivity.
  - rewrite (Hcell' 0) by (simpl; lia). reflexivity.
Defined.

(** ** Hit variables *)

(** The hit variable of a die and the number of hits in [n] attacks. *)
Lemma hits_spec (d : Dice.t) (lo hi target n : Z) :
  dice_ok d lo hi → (0 <= n)%Z →
  ∃ H T, AleatoryVariable.from_hit d target = Returns H ∧
    AleatoryVariable.pow H n = Returns T ∧
    (AleatoryVariable.domain H = Np.arange 0 2 ∧
     aligned H ∧
     nonneg_mass (AleatoryVariable.distribution H) ∧
     (99 # 100 <= Np.sum (AleatoryVariable.distribution H) <= 101 # 100)%Q) ∧
    (AleatoryVariable.domain T = Np.arange 0 (n + 1) ∧
     aligned T ∧
     nonneg_mass (AleatoryVariable.distribution T) ∧
     (Np.sum (AleatoryVariable.distribution T)
      == Np.sum (AleatoryVariable.distribution H) ^ n)%Q).
Proof.
  intros Hd Hn.
  assert (HH : ∃ pF pS, Dice.prob_against d target = Returns [pF; pS] ∧
            (0 <= pF)%Q ∧ (0 <= pS)%Q ∧
            (99 # 100 <= pF + pS <= 101 # 100)%Q).
  { destruct (prob_against_returns d lo hi target Hd) as [H|[H|(p & Hp & H)]];
      rewrite H.
    - exists 0%Q, 1%Q. repeat split; (done || lra).
    - exists 1%Q, 0%Q. repeat split; (done || lra).
    - exists (Np.round2 p), (Np.round2 (1 - p)). split; [done|].
      split; [apply round2_nonneg; lra|]. split; [apply round2_nonneg; lra|].
      pose proof (rint_near (p * 100)) as HF.
      pose proof (rint_near ((1 - p) * 100)) as HS.
      unfold Np.round2, Qdiv. change (/ 100)%Q with (1 # 100)%Q. lra. }
  destruct HH as (pF & pS & Hp & HF & HS & Hone).
  set (H := AleatoryVariable.mk (Np.arange 0 2) [pF; pS]).
  assert (Hsum : (Np.sum (AleatoryVariable.distribution H) == pF + pS)%Q).
  { simpl. rewrite !sum_cons, sum_nil. ring. }
  assert (Hnn : nonneg_mass (AleatoryVariable.distribution H))
    by (repeat constructor; done).
  assert (Hc : contiguous H 0 1) by (split; [lia | done]).
  destruct (pow_count_spec H 0 1 eq_refl Hc Hnn ltac:(lra) n Hn)
    as (T & HT & HTd & HTa & HTnn & HTs & _).
  exists H, T. split.
  { unfold AleatoryVariable.from_hit. by rewrite Hp. }
  split; [done|]. split.
  { split; [done|]. split; [done|]. split; [done|]. rewrite Hsum. done. }
  split; [by rewrite HTd, Z.mul_0_l, Z.mul_1_l|]. split; [done|].
  split; [done|]. exact HTs.
Qed.

(** X18. The hit variables of the engine.  For a well-formed die, any
    target and a number of attacks [n >= 0], [from_hit(dice, target)]
    returns a variable over the two outcomes [0..1] whose masses are the
    pair that [prob_against] returns: they are not negative, and their
    total is 1 give or take one hundredth, each of the two being rounded on
    its own.  Its power [** n], the number of hits in [n] attacks, returns
    a variable over [0..n] with one mass per value, none negative, whose
    total is the [n]-th power of the total of the hit variable. *)
Theorem hits_distribution (d : Dice.t) (lo hi target n : Z) :
  dice_ok d lo hi → (0 <= n)%Z →
  ∃ H T, AleatoryVariable.from_hit d target = Returns H ∧
    AleatoryVariable.pow H n = Returns T ∧
    Dice.prob_against d target = Returns (AleatoryVariable.distribution H) ∧
    (AleatoryVariable.domain H = Np.arange 0 2 ∧
     aligned H ∧
     nonneg_mass (AleatoryVariable.distribution H) ∧
     (99 # 100 <= Np.sum (AleatoryVariable.distribution H) <= 101 # 100)%Q) ∧
    (AleatoryVariable.domain T = Np.arange 0 (n + 1) ∧
     aligned T ∧
     nonneg_mass (AleatoryVariable.distribution T) ∧
     (Np.sum (AleatoryVariable.distribution T)
      == Np.sum (AleatoryVariable.distribution H) ^ n)%Q).
Proof.
  intros Hd Hn.
  destruct (hits_spec d lo hi target n Hd Hn) as (H & T & HH & HT & HdH & HdT).
  exists H, T. split; [done|]. split; [done|]. split; [|done].
  unfold AleatoryVariable.from_hit in HH.
  destruct (Dice.prob_against d target) as [l| |]; [|done..].
  simpl in HH. injection HH as <-. done.
Qed.

Lemma hits_distribution_witness :
  ∃ H T, AleatoryVariable.from_hit ex_d4 3 = Returns H ∧
    AleatoryVariable.pow H 2 = Returns T ∧
    AleatoryVariable.domain T = Np.arange 0 (2 + 1) ∧
    (Np.sum (AleatoryVariable.distribution T)
     == Np.sum (AleatoryVariable.distribution H) ^ 2)%Q.
Proof.
  destruct (hits_distribution ex_d4 1 4 3 2 ex_d4_ok ltac:(lia))
    as (H & T & HH & HT & _ & _ & (HTd & _ & _ & HTs)).
  by exists H, T.
Defined.

(** ** Harder targets *)

Lemma rint_le_floor_succ (q : Q) : (Np.rint q <= Qfloor q + 1)%Z.
Proof.
  unfold Np.rint. cbv zeta.
  destruct (_ ?= _)%Q; [destruct (Z.even _)|..]; lia.
Qed.

Lemma rint_mono (x y : Q) : (x <= y)%Q → (Np.rint x <= Np.rint y)%Z.
Proof.
  intros Hxy. pose proof (Qfloor_resp_le x y Hxy) as Hf.
  destruct (Z.eq_dec (Qfloor x) (Qfloor y)) as [E|E].
  - unfold Np.rint. cbv zeta. rewrite <- E. set (f := Qfloor x).
    destruct (Qcompare_spec (x - inject_Z f) (1 # 2)),
      (Qcompare_spec (y - inject_Z f) (1 # 2));
      destruct (Z.even f); try lia; exfalso; lra.
  - pose proof (rint_ge_floor y). pose proof (rint_le_floor_succ x). lia.
Qed.

Lemma round2_mono (x y : Q) : (x <= y)%Q → (Np.round2 x <= Np.round2 y)%Q.
Proof.
  intros Hxy. unfold Np.round2, Qdiv. apply Qmult_le_compat_r; [|discriminate].
  rewrite <- Zle_Qle. apply rint_mono. apply Qmult_le_compat_r; [done|discriminate].
Qed.

Lemma round2_comp (q q' : Q) : (q == q')%Q → Np.round2 q = Np.round2 q'.
Proof.
  intros H. unfold Np.round2. f_equal. f_equal. apply rint_comp. by rewrite H.
Qed.

(** The two probabilities of [prob_against] are the roundings of the mass
    below the target and of its complement. *)
Lemma prob_against_below (d : Dice.t) (lo hi target : Z) :
  dice_ok d lo hi →
  ∃ pF pS, Dice.prob_against d target = Returns [pF; pS] ∧
    (pF == Np.round2 (Np.sum (take (Z.to_nat (target - lo)) (Dice.pmf d))))%Q ∧
    (pS == Np.round2 (1 - Np.sum (take (Z.to_nat (target - lo)) (Dice.pmf d))))%Q.
Proof.
  intros Hd. pose proof Hd as (Hle & Hv & Hlen & Hcdf & _ & Hone).
  unfold Dice.prob_against.
  rewrite Hv, index_arange_first, index_arange_last by done.
  rewrite !bind_Returns_l.
  destruct (Z.geb_spec lo target).
  { exists 0%Q, 1%Q. split; [done|].
    replace (Z.to_nat (target - lo)) with 0 by lia. rewrite take_0, sum_nil.
    split; reflexivity. }
  destruct (Z.ltb_spec hi target).
  { exists 1%Q, 0%Q. split; [done|].
    rewrite take_ge by (rewrite Hlen, Hv, length_arange; lia).
    rewrite (round2_comp _ 1 Hone).
    rewrite (round2_comp (1 - _) 0) by (rewrite Hone; ring).
    split; reflexivity. }
  assert (Hk : Z.to_nat (target - lo - 1) < length (Dice.cdf d)).
  { rewrite Hcdf, length_cumsum, Hlen, Hv, length_arange. lia. }
  destruct (lookup_lt_is_Some_2 _ _ Hk) as [p Hp].
  rewrite (index_nonneg _ _ p) by (done || lia). rewrite bind_Returns_l.
  exists (Np.round2 p), (Np.round2 (1 - p)). split; [done|].
  rewrite Hcdf in Hp. apply cumsum_lookup in Hp.
  replace (S (Z.to_nat (target - lo - 1))) with (Z.to_nat (target - lo)) in Hp
    by lia.
  rewrite (round2_comp _ _ Hp).
  rewrite (round2_comp (1 - p) (1 - Np.sum (take (Z.to_nat (target - lo)) (Dice.pmf d))))
    by (by rewrite Hp).
  split; reflexivity.
Qed.

(** X19. A harder target never helps.  For a well-formed die and two
    targets [t <= t'], [prob_against] returns for both, the probability of
    failure against [t'] is at least the one against [t], and the
    probability of success against [t'] is at most the one against [t];
    the rounding to two decimals keeps the order. *)
Theorem prob_against_monotone (d : Dice.t) (lo hi t t' : Z) :
  dice_ok d lo hi → (t <= t')%Z →
  ∃ pF pS pF' pS',
    Dice.prob_against d t = Returns [pF; pS] ∧
    Dice.prob_against d t' = Returns [pF'; pS'] ∧
    (pF <= pF')%Q ∧ (pS' <= pS)%Q.
Proof.
  intros Hd Ht.
  destruct (prob_against_below d lo hi t Hd) as (pF & pS & H1 & HF & HS).
  destruct (prob_against_below d lo hi t' Hd) as (pF' & pS' & H2 & HF' & HS').
  exists pF, pS, pF', pS'. split; [done|]. split; [done|].
  pose proof Hd as (_ & _ & _ & _ & Hnn & _).
  pose proof (sum_take_mono (Dice.pmf d) (Z.to_nat (t - lo)) (Z.to_nat (t' - lo))
                Hnn ltac:(lia)) as Hm.
  rewrite HF, HF', HS, HS'. split; apply round2_mono; lra.
Qed.

Lemma prob_against_monotone_witness :
  ∃ pF pS pF' pS',
    Dice.prob_against ex_d4 2 = Returns [pF; pS] ∧
    Dice.prob_against ex_d4 4 = Returns [pF'; pS'] ∧
    (pF <= pF')%Q ∧ (pS' <= pS)%Q.
Proof.
  exact (prob_against_monotone ex_d4 1 4 2 4 ex_d4_ok ltac:(lia)).
Defined.

(** ** Damage dice with negative values *)

(** X20. The engine cannot advance with a damage die that can roll a
    negative value.  When [a] attacks at least once and its damage die,
    well formed, has a negative lowest value (a [1d4-2], for one), the first
    [advance_round] after the construction raises [IndexError] in
    [a_dmg * a_hits]; the product is computed before the evidence is
    consulted, so evidence that fixes [a_damage] does not prevent the error
    as long as it leaves [a_hits] open. *)
Theorem negative_damage_stops_engine (a b : Character.t) (mr : Z)
    (m0 : CombatModel.t) (ev : option RoundModel.t) (la ha lo hi : Z) :
  CombatModel.init a b mr = Returns m0 →
  dice_ok (Character.attack_dice a) la ha →
  dice_ok (Character.damage_dice a) lo hi →
  (lo < 0)%Z → (1 <= Character.n_attacks a)%Z →
  (∀ e, ev = Some e → RoundModel.a_hits e = None) →
  CombatModel.advance_round m0 ev = Raises IndexError.
Proof.
  intros Hinit Hatk Hdmg Hlo Hn Hev.
  destruct (hits_spec (Character.attack_dice a) la ha (Character.defense b)
              (Character.n_attacks a) Hatk ltac:(lia))
    as (H & T & HH & HT & _ & (HTd & HTa & _)).
  unfold CombatModel.init in Hinit.
  apply bind_Returns in Hinit as (hpa & _ & Hinit).
  apply bind_Returns in Hinit as (hpb & _ & Hinit).
  apply bind_Returns in Hinit as (ah & Hah & Hinit).
  apply bind_Returns in Hinit as (bh & _ & Hinit).
  apply bind_Returns in Hinit as (ah' & Hah' & Hinit).
  apply bind_Returns in Hinit as (bh' & _ & Hinit).
  injection Hinit as <-.
  rewrite HH in Hah. injection Hah as <-.
  rewrite HT in Hah'. injection Hah' as <-.
  unfold CombatModel.advance_round. simpl CombatModel.rounds.
  simpl CombatModel.round_number.
  change (Np.index [?r] 0) with (Returns r). rewrite bind_Returns_l.
  simpl CombatModel.a_hits. simpl CombatModel.a_dmg.
  assert (Hget : RoundModel.get (default RoundModel.empty ev) RoundModel.a_hits T = T).
  { destruct ev as [e|]; [|done]. simpl. unfold RoundModel.get.
    by rewrite (Hev e eq_refl). }
  rewrite Hget.
  pose proof Hdmg as (Hle & Hv & Hlen & _).
  rewrite (mul_negative_minimum
             (AleatoryVariable.from_dice (Character.damage_dice a)) T lo hi
             (Character.n_attacks a)); [done | done | | done | done | | done].
  - split; [done|]. exact Hv.
  - split; [lia|]. exact HTd.
Qed.

Lemma negative_damage_stops_engine_witness :
  CombatModel.init weak_a weak_b 3 = Returns weak_start ∧
  CombatModel.advance_round weak_start None = Raises IndexError ∧
  CombatModel.advance_round weak_start
    (Some (RoundModel.mk None None (Some six) None None None))
  = Raises IndexError.
Proof.
  assert (Hm0 : CombatModel.init weak_a weak_b 3 = Returns weak_start)
    by (vm_compute; reflexivity).
  assert (Hdm : dice_ok ex_d2m2 (-1) 0).
  { split; [lia|]. split; [reflexivity|]. split; [reflexivity|].
    split; [reflexivity|]. split; [|reflexivity].
    repeat constructor; discriminate. }
  split; [exact Hm0|]. split.
  - apply (negative_damage_stops_engine weak_a weak_b 3 weak_start None
             1 4 (-1) 0 Hm0 ex_d4_ok Hdm); [lia | simpl; lia | done].
  - apply (negative_damage_stops_engine weak_a weak_b 3 weak_start _
             1 4 (-1) 0 Hm0 ex_d4_ok Hdm); [lia | simpl; lia |].
    by intros e [= <-].
Defined.

(** ** Differences of variables that are not aligned *)

Lemma for_in_ext {A S : Type} (l : list A) (f g : S → A → outcome S) (s : S) :
  (∀ s x, x ∈ l → f s x = g s x) → for_in l f s = for_in l g s.
Proof.
  revert s. induction l as [|x l IH]; intros s H; simpl; [done|].
  rewrite (H s x) by left. destruct (g s x) as [s'| |]; simpl; [|done..].
  apply IH. intros s2 y Hy. apply H. by right.
Qed.

(** A loop whose body can only raise [IndexError] can only raise
    [IndexError]. *)
Lemma for_in_index_only {A S : Type} (l : list A) (f : S → A → outcome S) (s : S) :
  (∀ s x, x ∈ l → (∃ s', f s x = Returns s') ∨ f s x = Raises IndexError) →
  (∃ s', for_in l f s = Returns s') ∨ for_in l f s = Raises IndexError.
Proof.
  revert s. induction l as [|x l IH]; intros s H; simpl; [left; by eexists|].
  destruct (H s x) as [[s' ->]| ->]; [left | | by right].
  simpl. apply IH. intros s2 y Hy. apply H. by right.
Qed.

(** A loop that returns has run its body to a return at every element. *)
Lemma for_in_Returns_elem {A S : Type} (l : list A) (f : S → A → outcome S)
    (s r : S) (x : A) :
  for_in l f s = Returns r → x ∈ l → ∃ s1 s2, f s1 x = Returns s2.
Proof.
  revert s. induction l as [|y l IH]; intros s H Hx; [by apply elem_of_nil in Hx|].
  simpl in H. apply bind_Returns in H as (s' & Hy & H).
  apply elem_of_cons in Hx as [->|Hx]; [by exists s, s' | by eapply IH].
Qed.

Lemma iadd_index_only (l : list Q) (i : Z) (w : Q) :
  (∃ l', Np.iadd l i w = Returns l') ∨ Np.iadd l i w = Raises IndexError.
Proof.
  unfold Np.iadd. destruct (_ <? 0)%Z; [by right|].
  destruct (l !! _); [left; by eexists | by right].
Qed.

Lemma item_index_only {A : Type} (l : list A) (i : nat) :
  (∃ x, Np.item l i = Returns x) ∨ Np.item l i = Raises IndexError.
Proof. unfold Np.item. destruct (l !! i); [left; by eexists | by right]. Qed.

Lemma sub_row_index_only (n : nat) (Y : AleatoryVariable.t) (s : nat) (ps : Q)
    (dist : list Q) :
  (∃ d, AleatoryVariable.sub_row n Y s ps dist = Returns d) ∨
  AleatoryVariable.sub_row n Y s ps dist = Raises IndexError.
Proof.
  unfold AleatoryVariable.sub_row. apply for_in_index_only.
  intros d o _.
  destruct (item_index_only (AleatoryVariable.domain Y) o) as [[od ->]| ->];
    [|by right]. rewrite bind_Returns_l.
  destruct (item_index_only
              (map (λ y, (y * ps)%Q) (AleatoryVariable.distribution Y)) o)
    as [[w ->]| ->]; [|by right]. rewrite bind_Returns_l.
  destruct (_ <? 0)%Z; [apply iadd_index_only|].
  destruct (_ >=? _)%Z; apply iadd_index_only.
Qed.

Section sub_unaligned.
Variables X Y : AleatoryVariable.t.

Let n := AleatoryVariable.len X.
Let body := λ (dist : list Q) (s : nat),
  ps ← Np.item (AleatoryVariable.distribution X) s;
  AleatoryVariable.sub_row n Y s ps dist.

Lemma sub_as_loop :
  AleatoryVariable.sub X Y
  = (d ← for_in (Np.range n) body (Np.zeros (Z.of_nat n));
     Returns (AleatoryVariable.mk (AleatoryVariable.domain X) d)).
Proof using Type. reflexivity. Qed.

Lemma sub_index_only :
  (∃ R, AleatoryVariable.sub X Y = Returns R) ∨
  AleatoryVariable.sub X Y = Raises IndexError.
Proof using Type.
  rewrite sub_as_loop.
  destruct (for_in_index_only (Np.range n) body (Np.zeros (Z.of_nat n)))
    as [[d ->]| ->]; [|left; by eexists | by right].
  intros d s _. unfold body.
  destruct (item_index_only (AleatoryVariable.distribution X) s) as [[ps ->]| ->];
    [|by right]. rewrite bind_Returns_l. apply sub_row_index_only.
Qed.

Lemma sub_short_left :
  length (AleatoryVariable.distribution X) < n →
  ¬ ∃ R, AleatoryVariable.sub X Y = Returns R.
Proof using Type.
  intros Hlt [R HR]. rewrite sub_as_loop in HR.
  apply bind_Returns in HR as (d & Hd & _).
  destruct (for_in_Returns_elem _ _ _ _
              (length (AleatoryVariable.distribution X)) Hd) as (s1 & s2 & Hb).
  { unfold Np.range. apply elem_of_seq. lia. }
  unfold body, Np.item in Hb.
  by rewrite (lookup_ge_None_2 (AleatoryVariable.distribution X)) in Hb by lia.
Qed.

Lemma sub_short_right :
  0 < n →
  length (AleatoryVariable.domain Y) < length (AleatoryVariable.distribution Y) →
  ¬ ∃ R, AleatoryVariable.sub X Y = Returns R.
Proof using Type.
  intros Hn Hlt [R HR]. rewrite sub_as_loop in HR.
  apply bind_Returns in HR as (d & Hd & _).
  destruct (for_in_Returns_elem _ _ _ _ 0 Hd) as (s1 & s2 & Hb).
  { unfold Np.range. apply elem_of_seq. lia. }
  unfold body in Hb. apply bind_Returns in Hb as (ps & _ & Hrow).
  unfold AleatoryVariable.sub_row in Hrow.
  destruct (for_in_Returns_elem _ _ _ _
              (length (AleatoryVariable.domain Y)) Hrow) as (d1 & d2 & Hb).
  { unfold Np.range. apply elem_of_seq. rewrite length_map. lia. }
  apply bind_Returns in Hb as (od & Hod & _). unfold Np.item in Hod.
  by rewrite (lookup_ge_None_2 (AleatoryVariable.domain Y)) in Hod by lia.
Qed.

Lemma sub_truncated :
  n ≤ length (AleatoryVariable.distribution X) →
  length (AleatoryVariable.distribution Y) ≤ length (AleatoryVariable.domain Y) →
  AleatoryVariable.sub X Y
  = AleatoryVariable.sub
      (AleatoryVariable.mk (AleatoryVariable.domain X)
         (take n (AleatoryVariable.distribution X)))
      (AleatoryVariable.mk
         (take (length (AleatoryVariable.distribution Y)) (AleatoryVariable.domain Y))
         (AleatoryVariable.distribution Y)).
Proof using Type.
  intros HX HY. unfold AleatoryVariable.sub, AleatoryVariable.len. simpl.
  fold n. f_equal. apply for_in_ext. intros d s Hs.
  apply elem_of_seq in Hs.
  assert (Hs' : s < n) by (unfold n, AleatoryVariable.len; lia).
  assert (Hi : Np.item (take n (AleatoryVariable.distribution X)) s
               = Np.item (AleatoryVariable.distribution X) s)
    by (unfold Np.item; by rewrite lookup_take_lt by lia).
  rewrite Hi.
  destruct (Np.item (AleatoryVariable.distribution X) s) as [ps| |]; [|done..].
  rewrite !bind_Returns_l. unfold AleatoryVariable.sub_row. simpl.
  apply for_in_ext. intros d' o Ho.
  apply elem_of_seq in Ho. rewrite length_map in Ho.
  assert (Ho' : Np.item (take (length (AleatoryVariable.distribution Y))
                           (AleatoryVariable.domain Y)) o
                = Np.item (AleatoryVariable.domain Y) o)
    by (unfold Np.item; by rewrite lookup_take_lt by lia).
  by rewrite Ho'.
Qed.
End sub_unaligned.

(** X21. When [X - Y] works on variables that are not aligned.  The only
    exception it can raise is [IndexError], and it returns exactly when [X]
    has no value at all, or [X] has at least one mass per value and [Y] has
    at least one value per mass; surplus masses of [X] and surplus values of
    [Y] are never read. *)
Theorem sub_returns_iff (X Y : AleatoryVariable.t) :
  ((∃ R, AleatoryVariable.sub X Y = Returns R) ∨
   AleatoryVariable.sub X Y = Raises IndexError) ∧
  ((∃ R, AleatoryVariable.sub X Y = Returns R) ↔
   (AleatoryVariable.len X = 0 ∨
    (AleatoryVariable.len X ≤ length (AleatoryVariable.distribution X) ∧
     length (AleatoryVariable.distribution Y)
     ≤ length (AleatoryVariable.domain Y)))).
Proof.
  split; [apply sub_index_only|]. split.
  - intros HR.
    destruct (decide (AleatoryVariable.len X = 0)) as [|Hn]; [by left | right].
    split.
    + destruct (decide (AleatoryVariable.len X
                        ≤ length (AleatoryVariable.distribution X))); [done|].
      exfalso. apply (sub_short_left X Y); [lia | done].
    + destruct (decide (length (AleatoryVariable.distribution Y)
                        ≤ length (AleatoryVariable.domain Y))); [done|].
      exfalso. apply (sub_short_right X Y); [lia | lia | done].
  - intros [H0|[HX HY]].
    + rewrite sub_as_loop, H0. by eexists.
    + rewrite (sub_truncated X Y HX HY).
      set (X' := AleatoryVariable.mk _ (take _ _)).
      set (Y' := AleatoryVariable.mk (take _ _) _).
      assert (HX' : aligned X')
        by (unfold aligned, X'; simpl; rewrite length_take;
            unfold AleatoryVariable.len in *; lia).
      assert (HY' : aligned Y')
        by (unfold aligned, Y'; simpl; rewrite length_take; lia).
      destruct (sub_spec X' Y' HX' HY') as (R & HR & _). by exists R.
Qed.

(** ** Float division of two integers *)

Lemma rint_inject (z : Z) : Np.rint (inject_Z z) = z.
Proof.
  unfold Np.rint. cbv zeta. rewrite Qfloor_Z.
  assert (E : (inject_Z z - inject_Z z ?= 1 # 2)%Q = Lt)
    by (apply (proj1 (Qlt_alt _ _)); lra).
  by rewrite E.
Qed.

Lemma rint_below (y : Q) (z : Z) :
  (y < inject_Z z + (1 # 2))%Q → (Np.rint y <= z)%Z.
Proof.
  intros Hy. pose proof (rint_le_floor_succ y). pose proof (Qfloor_le y) as Hf.
  destruct (Z_le_gt_dec (Qfloor y + 1) z) as [|Hgt]; [lia|].
  assert (Hz : (Qfloor y <= z)%Z).
  { destruct (Z_le_gt_dec (Qfloor y) z) as [|Hc]; [done|]. exfalso.
    assert (Hi : (inject_Z (z + 1) <= inject_Z (Qfloor y))%Q)
      by (rewrite <- Zle_Qle; lia).
    rewrite inject_Z_plus in Hi. change (inject_Z 1) with 1%Q in Hi. lra. }
  assert (E : Qfloor y = z) by lia.
  unfold Np.rint. cbv zeta. rewrite E.
  assert (E2 : (y - inject_Z z ?= 1 # 2)%Q = Lt)
    by (apply (proj1 (Qlt_alt _ _)); lra).
  rewrite E2. lia.
Qed.

Lemma rint_opp (q : Q) : Np.rint (- q) = (- Np.rint q)%Z.
Proof.
  rewrite (rint_comp (- q) (inject_Z 0 - q))
    by (change (inject_Z 0) with 0%Q; ring).
  by rewrite rint_reflect.
Qed.

Lemma rint_scaled_between (q : Q) (N : Z) :
  (0 <= q)%Q → (1 <= N)%Z →
  (1 < (inject_Z (Qfloor q + 1) - q) * inject_Z (2 * N))%Q →
  (Qfloor q * N <= Np.rint (q * inject_Z N) < (Qfloor q + 1) * N)%Z.
Proof.
  intros Hq HN Hgap. set (n := Qfloor q) in *.
  pose proof (Qfloor_le q) as Hf. fold n in Hf.
  assert (HNq : (1 <= inject_Z N)%Q)
    by (change 1%Q with (inject_Z 1); by rewrite <- Zle_Qle).
  split.
  - rewrite <- (rint_inject (n * N)) at 1. apply rint_mono.
    rewrite inject_Z_mult. apply Qmult_le_compat_r; lra.
  - cut (Np.rint (q * inject_Z N) <= (n + 1) * N - 1)%Z; [lia|].
    apply rint_below.
    rewrite inject_Z_plus, inject_Z_mult in Hgap.
    unfold Z.sub.
    rewrite inject_Z_plus, inject_Z_mult, inject_Z_plus, inject_Z_opp.
    change (inject_Z 1) with 1%Q in *. change (inject_Z 2) with 2%Q in *.
    lra.
Qed.

Lemma trunc_comp (q q' : Q) : (q == q')%Q → Np.trunc q = Np.trunc q'.
Proof.
  intros H. unfold Np.trunc.
  rewrite (Qleb_comp 0%Q 0%Q (Qeq_refl 0%Q) q q' H), (Qfloor_comp _ _ H).
  assert (H' : (- q == - q')%Q) by (by rewrite H).
  by rewrite (Qfloor_comp _ _ H').
Qed.

Lemma trunc_nonneg (q : Q) : (0 <= q)%Q → Np.trunc q = Qfloor q.
Proof.
  intros H. unfold Np.trunc. by rewrite (proj2 (Qle_bool_iff 0%Q q) H).
Qed.

Lemma trunc_nonpos (q : Q) : (q <= 0)%Q → Np.trunc q = (- Qfloor (- q))%Z.
Proof.
  intros H. unfold Np.trunc. destruct (Qle_bool 0 q) eqn:E; [|done].
  apply Qle_bool_iff in E. assert (H0 : (q == 0)%Q) by lra.
  assert (H1 : (- q == 0)%Q) by lra.
  by rewrite (Qfloor_comp _ _ H0), (Qfloor_comp _ _ H1).
Qed.

Lemma trunc_opp (q : Q) : Np.trunc (- q) = (- Np.trunc q)%Z.
Proof.
  destruct (Qlt_le_dec 0%Q q) as [Hq|Hq].
  - rewrite (trunc_nonneg q), (trunc_nonpos (- q)) by lra.
    rewrite (Qfloor_comp (- - q) q) by ring. done.
  - rewrite (trunc_nonpos q), (trunc_nonneg (- q)) by lra. lia.
Qed.

Lemma inject_Z_nonzero (z : Z) : z ≠ 0%Z → ¬ (inject_Z z == 0)%Q.
Proof.
  intros Hz E. unfold Qeq in E. simpl in E. lia.
Qed.

Lemma trunc_inject_div (W H : Z) :
  H ≠ 0%Z → Np.trunc (inject_Z W / inject_Z H) = (W ÷ H)%Z.
Proof.
  assert (Hpos : ∀ w h, (0 <= w)%Z → (0 < h)%Z →
            Np.trunc (inject_Z w / inject_Z h) = (w ÷ h)%Z).
  { intros w h Hw Hh. rewrite trunc_nonneg.
    - by rewrite <- Zdiv_Qdiv, Z.quot_div_nonneg.
    - apply Qle_shift_div_l.
      + change 0%Q with (inject_Z 0). by rewrite <- Zlt_Qlt.
      + rewrite Qmult_0_l. change 0%Q with (inject_Z 0). by rewrite <- Zle_Qle. }
  assert (Hh : ∀ w h, (0 < h)%Z →
            Np.trunc (inject_Z w / inject_Z h) = (w ÷ h)%Z).
  { intros w h Hh. destruct (Z_le_gt_dec 0 w) as [Hw|Hw]; [by apply Hpos|].
    rewrite (trunc_comp _ (- (inject_Z (- w) / inject_Z h))).
    - rewrite trunc_opp, Hpos by lia. rewrite Z.quot_opp_l by lia. lia.
    - rewrite inject_Z_opp. field. apply inject_Z_nonzero. lia. }
  intros HH. destruct (Z_lt_le_dec 0 H) as [Hp|Hn]; [by apply Hh|].
  rewrite (trunc_comp _ (inject_Z (- W) / inject_Z (- H))).
  - rewrite Hh by lia. by rewrite Z.quot_opp_opp.
  - rewrite !inject_Z_opp. field. by apply inject_Z_nonzero.
Qed.

Lemma Qdiv_le_cross (x y a d : Z) :
  (0 < y)%Z → (0 < d)%Z → (x * d <= a * y)%Z →
  (inject_Z x / inject_Z y <= inject_Z a / inject_Z d)%Q.
Proof.
  intros Hy Hd H.
  assert (Hy' : (0 < inject_Z y)%Q)
    by (change 0%Q with (inject_Z 0); by rewrite <- Zlt_Qlt).
  assert (Hd' : (0 < inject_Z d)%Q)
    by (change 0%Q with (inject_Z 0); by rewrite <- Zlt_Qlt).
  apply Qle_shift_div_l; [done|].
  assert (E : (inject_Z x / inject_Z y * inject_Z d
               == inject_Z (x * d) / inject_Z y)%Q).
  { rewrite inject_Z_mult. field. lra. }
  rewrite E. apply Qle_shift_div_r; [done|].
  rewrite <- inject_Z_mult, <- Zle_Qle. done.
Qed.

Lemma two_pow_inject (n : Z) : (0 <= n)%Z → (2 ^ n == inject_Z (2 ^ n))%Q.
Proof. intros Hn. by rewrite Zpower_Qpower. Qed.

Lemma two_pow_inv (k : Z) : (k <= 0)%Z → (2 ^ k == / inject_Z (2 ^ (- k)))%Q.
Proof.
  intros Hk. rewrite <- (Z.opp_involutive k) at 1.
  rewrite Qpower_opp, two_pow_inject by lia. done.
Qed.

Lemma binade_le (q : Q) : ¬ (q == 0)%Q → (2 ^ Np.binade q <= Qabs q)%Q.
Proof.
  intros Hq. unfold Np.binade. cbv zeta.
  destruct (Qle_bool _ _) eqn:E; [by apply Qle_bool_iff in E|]. clear E.
  destruct q as [n d]. simpl Qnum. simpl Qden.
  assert (Hn : n ≠ 0%Z).
  { intros ->. apply Hq. reflexivity. }
  set (a := Z.abs n). assert (Ha : (0 < a)%Z) by lia.
  destruct (Z.log2_spec a Ha) as [Hl _].
  destruct (Z.log2_spec (Zpos d) eq_refl) as [_ Hu]. unfold Z.succ in Hu.
  pose proof (Z.log2_nonneg a). pose proof (Z.log2_nonneg (Zpos d)).
  set (la := Z.log2 a) in *. set (ld := Z.log2 (Zpos d)) in *.
  replace (la - ld - 1)%Z with (la - (ld + 1))%Z by lia.
  rewrite Qpower_minus by done. rewrite !two_pow_inject by lia.
  change (Qabs (n # d)) with (a # d). rewrite Qmake_Qdiv.
  apply Qdiv_le_cross; [lia | done |].
  assert (0 < 2 ^ la)%Z by lia.
  transitivity (a * Z.pos d)%Z.
  - apply Z.mul_le_mono_nonneg_r; lia.
  - apply Z.mul_le_mono_nonneg_l; lia.
Qed.

Lemma Qabs_inject_div (W H : Z) :
  (Qabs (inject_Z W / inject_Z H)
   == inject_Z (Z.abs W) / inject_Z (Z.abs H))%Q.
Proof. unfold Qdiv. rewrite Qabs_Qmult, Qabs_Qinv. reflexivity. Qed.

(** Rounding a non-negative [q] to a multiple of [1 / N] does not reach the
    next integer when [q] is more than [1 / (2 N)] below it. *)
Lemma round_nonneg_trunc (q : Q) (N : Z) :
  (0 <= q)%Q → (1 <= N)%Z →
  (1 < (inject_Z (Qfloor q + 1) - q) * inject_Z (2 * N))%Q →
  let r := (inject_Z (Np.rint (q * inject_Z N)) / inject_Z N)%Q in
  Np.trunc r = Qfloor q ∧ (0 <= r <= q + 1)%Q.
Proof.
  intros Hq HN Hgap r.
  destruct (rint_scaled_between q N Hq HN Hgap) as [Hlo Hhi].
  set (m := Np.rint (q * inject_Z N)) in *. set (n := Qfloor q) in *.
  assert (Hn : (0 <= n)%Z).
  { change 0%Z with (Qfloor 0). by apply Qfloor_resp_le. }
  pose proof (Qfloor_le q) as Hf. fold n in Hf.
  assert (HN' : (0 < inject_Z N)%Q)
    by (change 0%Q with (inject_Z 0); rewrite <- Zlt_Qlt; lia).
  assert (Hm : (0 <= m)%Z) by nia.
  assert (Hr0 : (0 <= r)%Q).
  { apply Qle_shift_div_l; [done|]. rewrite Qmult_0_l.
    change 0%Q with (inject_Z 0). by rewrite <- Zle_Qle. }
  split; [|split; [done|]].
  - rewrite trunc_nonneg by done. unfold r. rewrite <- Zdiv_Qdiv.
    symmetry. apply (Z.div_unique_pos m N n (m - n * N)); lia.
  - apply Qle_shift_div_r; [done|].
    apply Qle_trans with (inject_Z (n + 1) * inject_Z N)%Q.
    + rewrite <- inject_Z_mult, <- Zle_Qle. lia.
    + apply Qmult_le_compat_r; [|lra].
      rewrite inject_Z_plus. change (inject_Z 1) with 1%Q. lra.
Qed.

(** The same for either sign, at the scale [2 ^ k]. *)
Lemma round_scaled_trunc (q : Q) (k : Z) :
  (k <= 0)%Z →
  (1 < (inject_Z (Qfloor (Qabs q) + 1) - Qabs q)
       * inject_Z (2 * 2 ^ (- k)))%Q →
  let r := (inject_Z (Np.rint (q * 2 ^ (- k))) * 2 ^ k)%Q in
  Np.trunc r = Np.trunc q ∧ (Qabs r <= Qabs q + 1)%Q.
Proof.
  intros Hk Hgap r. set (N := (2 ^ (- k))%Z) in *.
  assert (HN : (1 <= N)%Z) by (unfold N; lia).
  assert (Hc : (2 ^ (- k) == inject_Z N)%Q) by (apply two_pow_inject; lia).
  assert (Hi : (2 ^ k == / inject_Z N)%Q) by (by apply two_pow_inv).
  destruct (Qlt_le_dec q 0) as [Hq|Hq].
  - assert (Ha : (Qabs q == - q)%Q) by (apply Qabs_neg; lra).
    rewrite (Qfloor_comp _ _ Ha) in Hgap. rewrite Ha in Hgap.
    destruct (round_nonneg_trunc (- q) N ltac:(lra) HN Hgap) as (Ht & H0 & H1).
    set (r' := (inject_Z (Np.rint (- q * inject_Z N)) / inject_Z N)%Q) in *.
    assert (Hr : (r == - r')%Q).
    { unfold r, r'. rewrite Hi.
      rewrite (rint_comp (q * 2 ^ (- k)) (- (- q * inject_Z N)))
        by (rewrite Hc; ring).
      rewrite rint_opp, inject_Z_opp. unfold Qdiv. ring. }
    split.
    + rewrite (trunc_comp _ _ Hr), trunc_opp, Ht.
      by rewrite trunc_nonpos by lra.
    + rewrite Hr, Qabs_opp, (Qabs_pos r' H0), Ha. done.
  - assert (Ha : (Qabs q == q)%Q) by (by apply Qabs_pos).
    rewrite (Qfloor_comp _ _ Ha) in Hgap. rewrite Ha in Hgap.
    destruct (round_nonneg_trunc q N Hq HN Hgap) as (Ht & H0 & H1).
    set (r' := (inject_Z (Np.rint (q * inject_Z N)) / inject_Z N)%Q) in *.
    assert (Hr : (r == r')%Q).
    { unfold r, r'. rewrite Hi.
      rewrite (rint_comp (q * 2 ^ (- k)) (q * inject_Z N)) by (by rewrite Hc).
      reflexivity. }
    split.
    + rewrite (trunc_comp _ _ Hr), Ht. by rewrite trunc_nonneg.
    + rewrite Hr, (Qabs_pos r' H0), Ha. done.
Qed.

(** [a / b] on Python integers, for a dividend below [2 ^ 53] in absolute
    value: no overflow, and [int] of the float is the exact quotient
    truncated toward zero. *)
Lemma true_divide_trunc (W H : Z) :
  H ≠ 0%Z → (Z.abs W < 2 ^ 53)%Z →
  ∃ f, Np.binary64 (inject_Z W / inject_Z H) = Some f ∧
       Np.trunc f = (W ÷ H)%Z.
Proof.
  intros HH HW. set (q := (inject_Z W / inject_Z H)%Q).
  pose proof (inject_Z_nonzero H HH) as HHq.
  destruct (Z.eq_dec W 0%Z) as [->|HWn].
  { exists 0%Q. unfold Np.binary64.
    assert (E : Qeq_bool q 0%Q = true).
    { apply Qeq_eq_bool. unfold q, Qdiv. apply Qmult_0_l. }
    rewrite E. split; [done|]. by rewrite Z.quot_0_l. }
  assert (Hq : ¬ (q == 0)%Q).
  { intros E. apply (inject_Z_nonzero W HWn).
    assert (E' : (inject_Z W == q * inject_Z H)%Q) by (unfold q; field; done).
    rewrite E', E. ring. }
  set (a := Z.abs W) in *. set (b := Z.abs H).
  assert (Ha : (1 <= a)%Z) by lia. assert (Hb : (1 <= b)%Z) by lia.
  assert (Hb' : (0 < inject_Z b)%Q)
    by (change 0%Q with (inject_Z 0); rewrite <- Zlt_Qlt; lia).
  assert (HA : (Qabs q == inject_Z a / inject_Z b)%Q)
    by apply Qabs_inject_div.
  assert (Hqa : (Qabs q <= inject_Z a)%Q).
  { rewrite HA. apply Qle_shift_div_r; [done|].
    rewrite <- inject_Z_mult, <- Zle_Qle. nia. }
  assert (Ha53 : (inject_Z a < 2 ^ 53)%Q).
  { rewrite two_pow_inject by lia. by rewrite <- Zlt_Qlt. }
  pose proof (binade_le q Hq) as Hbin. set (e := Np.binade q) in *.
  assert (He : (e < 53)%Z).
  { apply (Qpower_lt_compat_l_inv 2%Q); [lra|done]. }
  set (k := (Z.max e (-1022) - 52)%Z).
  assert (Hk : (k <= 0)%Z) by lia.
  set (N := (2 ^ (- k))%Z). assert (HN : (1 <= N)%Z) by (unfold N; lia).
  set (n := (a / b)%Z).
  assert (Hn : Qfloor (Qabs q) = n).
  { rewrite (Qfloor_comp _ _ HA). symmetry. apply Zdiv_Qdiv. }
  assert (Hgap : (1 < (inject_Z (Qfloor (Qabs q) + 1) - Qabs q)
                      * inject_Z (2 * 2 ^ (- k)))%Q).
  { rewrite Hn. fold N. destruct (Z_lt_le_dec b (2 * N)) as [Hsm|Hbig].
    - pose proof (Z.mul_succ_div_gt a b ltac:(lia)) as Hc.
      fold n in Hc. unfold Z.succ in Hc.
      assert (E : ((inject_Z (n + 1) - Qabs q) * inject_Z (2 * N)
                   == inject_Z ((b * (n + 1) - a) * (2 * N)) / inject_Z b)%Q).
      { rewrite HA. unfold Z.sub.
        rewrite !inject_Z_mult, !inject_Z_plus, inject_Z_mult, inject_Z_opp.
        rewrite inject_Z_plus.
        change (inject_Z 1) with 1%Q. change (inject_Z 2) with 2%Q.
        field. lra. }
      rewrite E. apply Qlt_shift_div_l; [done|]. rewrite Qmult_1_l.
      rewrite <- Zlt_Qlt. nia.
    - assert (Hclamp : (e < -1022)%Z).
      { destruct (Z_lt_le_dec e (-1022)) as [|Hge]; [done|]. exfalso.
        assert (Hk' : k = (e - 52)%Z) by lia.
        assert (Hb2 : (inject_Z b * 2 ^ e <= inject_Z a)%Q).
        { apply Qle_trans with (inject_Z b * Qabs q)%Q.
          - apply Qmult_le_l; [done|done].
          - rewrite HA. apply Qle_lteq. right. field. lra. }
        assert (HNq : (inject_Z (2 * N) * 2 ^ e == 2 ^ 53)%Q).
        { unfold N. rewrite inject_Z_mult, <- two_pow_inject by lia.
          rewrite Hk'. change (inject_Z 2) with (2 ^ 1)%Q.
          rewrite <- !Qpower_plus by done. by replace (1 + - (e - 52) + e)%Z with 53%Z by lia. }
        assert (He0 : (0 < 2 ^ e)%Q) by (by apply Qpower_0_lt).
        assert (Hbb : (inject_Z (2 * N) <= inject_Z b)%Q) by (by rewrite <- Zle_Qle).
        assert (Hx : (inject_Z (2 * N) * 2 ^ e <= inject_Z b * 2 ^ e)%Q)
          by (apply Qmult_le_compat_r; [done|lra]).
        lra. }
      assert (HNv : N = (2 ^ 1074)%Z) by (unfold N, k; f_equal; lia).
      assert (H54 : (2 ^ 54 <= 2 ^ 1074)%Z) by (apply Z.pow_le_mono_r; lia).
      assert (Hhalf : (Qabs q < 1 # 2)%Q).
      { rewrite HA. apply Qlt_shift_div_r; [done|].
        assert (Hz : (inject_Z (2 * a) < inject_Z b)%Q).
        { rewrite <- Zlt_Qlt. change (2 ^ 54)%Z with (2 * 2 ^ 53)%Z in H54. lia. }
        rewrite inject_Z_mult in Hz. change (inject_Z 2) with 2%Q in Hz. lra. }
      assert (Hn0 : n = 0%Z).
      { rewrite <- Hn. apply Qfloor_unique.
        - apply Qabs_nonneg.
        - change (inject_Z (0 + 1)) with 1%Q. lra. }
      rewrite Hn0. change (inject_Z (0 + 1)) with 1%Q.
      assert (HNq : (1 <= inject_Z N)%Q)
        by (change 1%Q with (inject_Z 1); by rewrite <- Zle_Qle).
      rewrite inject_Z_mult. change (inject_Z 2) with 2%Q.
      nra. }
  destruct (round_scaled_trunc q k Hk Hgap) as [Ht Hr].
  unfold Np.binary64. cbv zeta.
  destruct (Qeq_bool q 0%Q) eqn:E; [by apply Qeq_bool_eq in E|]. clear E.
  fold e k.
  set (r := (inject_Z (Np.rint (q * 2 ^ (- k))) * 2 ^ k)%Q) in *.
  destruct (Qle_bool (2 ^ 1024) (Qabs r)) eqn:E.
  { exfalso. apply Qle_bool_iff in E.
    assert (H2 : (2 ^ 53 + 1 <= 2 ^ 1024)%Q)
      by (apply Qle_bool_iff; vm_compute; reflexivity).
    lra. }
  exists r. split; [done|]. rewrite Ht. by apply trunc_inject_div.
Qed.

(** ** Combined characters *)

Lemma combine_totals_from (cs : list Character.t) (h d n : Z) :
  foldl (λ '(h, d, n) ch,
           (h + Character.health ch,
            d + Character.defense ch * Character.health ch,
            n + Character.n_attacks ch)%Z) (h, d, n) cs
  = ((h + Zsum (map Character.health cs))%Z,
     (d + Zsum (map (λ c, Character.defense c * Character.health c) cs))%Z,
     (n + Zsum (map Character.n_attacks cs))%Z).
Proof.
  revert h d n. induction cs as [|c cs IH]; intros h d n; simpl.
  - by rewrite !Z.add_0_r.
  - rewrite IH. f_equal; [f_equal|]; lia.
Qed.

Lemma weighted_sum_bounds (cs : list Character.t) (lo hi : Z) :
  Forall (λ c, (0 < Character.health c)%Z) cs →
  Forall (λ c, (lo <= Character.defense c <= hi)%Z) cs →
  (0 <= Zsum (map Character.health cs))%Z ∧
  (lo * Zsum (map Character.health cs)
   <= Zsum (map (λ c, Character.defense c * Character.health c) cs)
   <= hi * Zsum (map Character.health cs))%Z.
Proof.
  induction 1 as [|c cs Hc _ IH]; intros Hd; simpl; [lia|].
  apply Forall_cons in Hd as [Hd1 Hd2]. specialize (IH Hd2).
  assert (lo * Character.health c <= Character.defense c * Character.health c)%Z
    by nia.
  assert (Character.defense c * Character.health c <= hi * Character.health c)%Z
    by nia.
  lia.
Qed.

Lemma quot_between (w h lo hi : Z) :
  (0 < h)%Z → (lo * h <= w <= hi * h)%Z → (lo <= w ÷ h <= hi)%Z.
Proof.
  intros Hh Hw. pose proof (Z.quot_rem' w h) as Hq.
  assert (Hr : (- h < Z.rem w h < h)%Z).
  { pose proof (Z.rem_bound_abs w h ltac:(lia)). lia. }
  set (q := (w ÷ h)%Z) in *. set (r := Z.rem w h) in *. split.
  - destruct (Z_lt_le_dec q lo) as [Hlt|]; [exfalso|done].
    assert (h * (q + 1) <= h * lo)%Z by (apply Z.mul_le_mono_nonneg_l; lia).
    lia.
  - destruct (Z_lt_le_dec hi q) as [Hlt|]; [exfalso|done].
    assert (h * (hi + 1) <= h * q)%Z by (apply Z.mul_le_mono_nonneg_l; lia).
    lia.
Qed.

(** X16. [Character.combine].  When the healths sum to 0, and so for an
    empty argument list, the division by the total health raises
    [ZeroDivisionError] before any dice are combined.  Otherwise the
    health-weighted sum of the defenses is divided by the total health as a
    float, and [int] truncates the float.  While the weighted sum is below
    [2 ^ 53] in absolute value, and for characters whose dice are well
    formed, the function returns a character whose health and number of
    attacks are the sums over the operands, whose defense is the exact
    health-weighted mean of the defenses truncated toward zero, and whose
    dice are the [Dice.combine] of the operands' dice, all with equal weight
    whatever the healths; when every health is positive the defense lies
    between the lowest and the highest defense of the operands.  Beyond
    that bound the float shows: a single character of health 1 and defense
    [2 ^ 53 + 1] combines to defense [2 ^ 53], and one of defense
    [10 ^ 400] raises [OverflowError]. *)
Theorem character_combine_spec (cs : list Character.t) :
  let H := Zsum (map Character.health cs) in
  let W := Zsum (map (λ c, Character.defense c * Character.health c)%Z cs) in
  (H = 0%Z → Character.combine cs = Character.ZeroDivisionError) ∧
  (H ≠ 0%Z → (Z.abs W < 2 ^ 53)%Z → Forall dice_sound cs →
   ∃ tot,
     Character.combine cs = Character.Combined (Returns tot) ∧
     Character.health tot = H ∧
     Character.n_attacks tot = Zsum (map Character.n_attacks cs) ∧
     Character.defense tot = (W ÷ H)%Z ∧
     Dice.combine (map Character.attack_dice cs)
     = Returns (Character.attack_dice tot) ∧
     Dice.combine (map Character.damage_dice cs)
     = Returns (Character.damage_dice tot) ∧
     (Forall (λ c, (0 < Character.health c)%Z) cs →
      ∀ lo hi, Forall (λ c, (lo <= Character.defense c <= hi)%Z) cs →
        (lo <= Character.defense tot <= hi)%Z)) ∧
  (∃ tot, Character.combine [wall_53] = Character.Combined (Returns tot) ∧
     Character.defense wall_53 = (2 ^ 53 + 1)%Z ∧
     Character.defense tot = (2 ^ 53)%Z) ∧
  Character.combine [wall_400] = Character.OverflowError.
Proof.
  intros H W. split; [|split; [|split]].
  - unfold Character.combine, Character.combine_totals.
    rewrite combine_totals_from, !Z.add_0_l. fold H W.
    intros ->. done.
  - unfold Character.combine, Character.combine_totals.
    rewrite combine_totals_from, !Z.add_0_l. fold H W.
    intros HH HW Hok. destruct (Z.eqb_spec H 0) as [|_]; [done|].
    destruct (true_divide_trunc W H HH HW) as (f & Hf & Ht). rewrite Hf, Ht.
    assert (Hne : cs ≠ []) by (intros ->; by apply HH).
    destruct (combine_spec (map Character.attack_dice cs))
      as (atk & _ & _ & Hatk & _).
    { by destruct cs. }
    { rewrite Forall_map. eapply Forall_impl; [exact Hok|]. by intros c [? _]. }
    destruct (combine_spec (map Character.damage_dice cs))
      as (dmg & _ & _ & Hdmg & _).
    { by destruct cs. }
    { rewrite Forall_map. eapply Forall_impl; [exact Hok|]. by intros c [_ ?]. }
    rewrite Hatk, Hdmg. eexists. split; [done|]. simpl.
    do 5 (split; [done|]).
    intros Hpos lo hi Hd.
    destruct (weighted_sum_bounds cs lo hi Hpos Hd) as [H0 Hw].
    apply quot_between; [fold H in H0; lia | done].
  - eexists. split; [vm_compute; reflexivity|]. split; reflexivity.
  - vm_compute. reflexivity.
Qed.

Lemma character_combine_spec_witness :
  ∃ tot,
    Character.combine [duel_8_characters.1; duel_8_characters.2]
    = Character.Combined (Returns tot) ∧
    Character.health tot = 16%Z ∧
    (2 <= Character.defense tot <= 3)%Z.
Proof.
  destruct (character_combine_spec [duel_8_characters.1; duel_8_characters.2])
    as (_ & H & _).
  destruct H as (tot & Hrun & Hh & _ & _ & _ & _ & Hd).
  - vm_compute. discriminate.
  - vm_compute. reflexivity.
  - destruct duel_8_sane as [(Ha1 & (l1 & h1 & Hd1 & _) & _)
                               (Ha2 & (l2 & h2 & Hd2 & _) & _)].
    repeat constructor; (done || by eexists _, _).
  - exists tot. split; [exact Hrun|]. split; [exact Hh|].
    apply Hd; repeat constructor; simpl; lia.
Defined.
